(** * AUTOCLAVE control core: sensors, safety gate and actuator sequencing

  A shallow embedding of the MicroPython control core
  (lib/hal/hw_esp32.py, lib/drivers/control.py, lib/drivers/sensors.py,
  lib/core/brain.py, lib/core/actuator.py, lib/config.py) and the
  properties of its safety gate, sensor decoding and actuator state
  machine.

  Conventions of the embedding:
  - Python [int] is unbounded, so it is [Z]; [&], [|], [>>] are
    [Z.land], [Z.lor], [Z.shiftr].
  - Python [float] is [pyfloat]: the NaN sentinel or a finite value held
    as an exact rational.  Comparisons with NaN are false, arithmetic on
    NaN gives NaN.  Rounding is not modelled there: finite arithmetic is
    exact.  It serves the properties that rounding cannot change (which
    branch is taken, NaN or not, monotonicity).  What depends on the
    value computed is stated over [ieee.t], floats with infinities whose
    operations round to nearest-even in a given binary format
    (module [sensors_fp]).
  - [None] is [option]'s [None]; a raised exception is [Raise].
  - Module globals are record fields that keep their Python names;
    functions that assign them take and return the records. *)

From Stdlib Require Import ZArith QArith Qfield Lqa Lia Bool String List.
Import ListNotations.

Local Open Scope Z_scope.

(* ===================================================================== *)
(** ** Python values *)

Inductive exn : Type :=
| ZeroDivisionError.

Inductive result (A : Type) : Type :=
| Ok (a : A)
| Raise (e : exn).

Arguments Ok {A} a.
Arguments Raise {A} e.

Definition bind {A B : Type} (r : result A) (k : A -> result B) : result B :=
match r with
| Ok a => k a
| Raise e => Raise e
end.

Notation "x <- r ;; k" := (bind r (fun x => k))
(at level 61, r at next level, right associativity).

Inductive pyfloat : Type :=
| NaN
| Fin (q : Q).

(** [float(n)] and the implicit widening of an [int] operand. *)
Definition of_int (n : Z) : pyfloat := Fin (inject_Z n).

Definition is_nan (x : pyfloat) : bool :=
match x with
| NaN => true
| Fin _ => false
end.

(** [x < y], [x <= y], [x > y], [x >= y]. *)
Definition flt (x y : pyfloat) : bool :=
match x, y with
| Fin a, Fin b => match (a ?= b)%Q with Lt => true | _ => false end
| _, _ => false
end.

Definition fle (x y : pyfloat) : bool :=
match x, y with
| Fin a, Fin b => match (a ?= b)%Q with Gt => false | _ => true end
| _, _ => false
end.

Definition fgt (x y : pyfloat) : bool := flt y x.
Definition fge (x y : pyfloat) : bool := fle y x.

Definition fadd (x y : pyfloat) : pyfloat :=
match x, y with
| Fin a, Fin b => Fin (a + b)
| _, _ => NaN
end.

Definition fsub (x y : pyfloat) : pyfloat :=
match x, y with
| Fin a, Fin b => Fin (a - b)
| _, _ => NaN
end.

Definition fmul (x y : pyfloat) : pyfloat :=
match x, y with
| Fin a, Fin b => Fin (a * b)
| _, _ => NaN
end.

(** [x / y]: Python raises on a zero divisor, also for floats. *)
Definition fdiv (x y : pyfloat) : result pyfloat :=
match y with
| Fin b =>
    if Qeq_bool b 0 then Raise ZeroDivisionError
    else match x with
         | Fin a => Ok (Fin (a / b))
         | NaN => Ok NaN
         end
| NaN => Ok NaN
end.

(** Truthiness of an [int] in a condition. *)
Definition truthy (n : Z) : bool := negb (n =? 0).

(* ===================================================================== *)
(** ** lib/config.py *)

Module config.

Record t : Type := {
  APP_MAX_PRESSURE_KGCM2 : Q;
  APP_MAX_TEMP_C : Q;
  PRESSURE_V_PIN_MIN : Q;
  PRESSURE_V_PIN_MAX : Q;
  PRESSURE_P_MIN_KGCM2 : Q;
  PRESSURE_P_MAX_KGCM2 : Q;
  SSR_ACTIVE_HIGH : bool;
  HEAT_ENABLE : bool
}.

(** The values of the repository's config.py. *)
Definition reference : t := {|
  APP_MAX_PRESSURE_KGCM2 := 141 # 100;
  APP_MAX_TEMP_C := 125;
  PRESSURE_V_PIN_MIN := 334 # 1000;
  PRESSURE_V_PIN_MAX := 2997 # 1000;
  PRESSURE_P_MIN_KGCM2 := 0;
  PRESSURE_P_MAX_KGCM2 := 210 # 100;
  SSR_ACTIVE_HIGH := true;
  HEAT_ENABLE := false
|}.

Definition with_HEAT_ENABLE (b : bool) (c : t) : t := {|
  APP_MAX_PRESSURE_KGCM2 := APP_MAX_PRESSURE_KGCM2 c;
  APP_MAX_TEMP_C := APP_MAX_TEMP_C c;
  PRESSURE_V_PIN_MIN := PRESSURE_V_PIN_MIN c;
  PRESSURE_V_PIN_MAX := PRESSURE_V_PIN_MAX c;
  PRESSURE_P_MIN_KGCM2 := PRESSURE_P_MIN_KGCM2 c;
  PRESSURE_P_MAX_KGCM2 := PRESSURE_P_MAX_KGCM2 c;
  SSR_ACTIVE_HIGH := SSR_ACTIVE_HIGH c;
  HEAT_ENABLE := b
|}.

End config.

(* ===================================================================== *)
(** ** lib/hal/hw_esp32.py *)

Module hw_esp32.

(** The module's pin handles and the environment it reads.
    A pin handle is [None] until initialised and otherwise holds the
    level last written.  [_pressure_adc] holds what [adc.read()]
    returns, [_tc_spi] the four bytes [readinto] delivers, and
    [clock k] is the value of the [k]-th call of [time.ticks_ms()]. *)
Record state : Type := {
  _REAL_HW : bool;
  _ssr_pin : option bool;
  _motor_fwd_pin : option bool;
  _motor_rev_pin : option bool;
  _pressure_adc : option (option Z);
  _tc_spi : option (Z * Z * Z * Z);
  _tc_cs : option bool;
  clock : nat -> Z;
  reads : nat
}.

Definition set_reads (n : nat) (h : state) : state :=
  {| _REAL_HW := _REAL_HW h; _ssr_pin := _ssr_pin h;
     _motor_fwd_pin := _motor_fwd_pin h; _motor_rev_pin := _motor_rev_pin h;
     _pressure_adc := _pressure_adc h; _tc_spi := _tc_spi h;
     _tc_cs := _tc_cs h; clock := clock h; reads := n |}.

Definition set_ssr_pin (p : option bool) (h : state) : state :=
  {| _REAL_HW := _REAL_HW h; _ssr_pin := p;
     _motor_fwd_pin := _motor_fwd_pin h; _motor_rev_pin := _motor_rev_pin h;
     _pressure_adc := _pressure_adc h; _tc_spi := _tc_spi h;
     _tc_cs := _tc_cs h; clock := clock h; reads := reads h |}.

Definition set_motor_pins (f r : option bool) (h : state) : state :=
  {| _REAL_HW := _REAL_HW h; _ssr_pin := _ssr_pin h;
     _motor_fwd_pin := f; _motor_rev_pin := r;
     _pressure_adc := _pressure_adc h; _tc_spi := _tc_spi h;
     _tc_cs := _tc_cs h; clock := clock h; reads := reads h |}.

Definition set_tc_cs (p : option bool) (h : state) : state :=
  {| _REAL_HW := _REAL_HW h; _ssr_pin := _ssr_pin h;
     _motor_fwd_pin := _motor_fwd_pin h; _motor_rev_pin := _motor_rev_pin h;
     _pressure_adc := _pressure_adc h; _tc_spi := _tc_spi h;
     _tc_cs := p; clock := clock h; reads := reads h |}.

Definition on_real_hw (h : state) : bool := _REAL_HW h.

Definition ticks_ms (h : state) : Z * state :=
  (clock h (reads h), set_reads (S (reads h)) h).

Definition write_ssr (cfg : config.t) (on : bool) (h : state) : state :=
  match _ssr_pin h with
  | None => h
  | Some _ =>
      if config.SSR_ACTIVE_HIGH cfg
      then set_ssr_pin (Some (if on then true else false)) h
      else set_ssr_pin (Some (if on then false else true)) h
  end.

Definition write_motor (fwd rev : bool) (h : state) : state :=
  match _motor_fwd_pin h, _motor_rev_pin h with
  | Some _, Some _ =>
      let '(fwd, rev) := if fwd && rev then (false, false) else (fwd, rev) in
      set_motor_pins (Some (if fwd then true else false))
                     (Some (if rev then true else false)) h
  | _, _ => h
  end.

(** [(raw / 4095.0) * 3.3], or [None] without an ADC or a sample. *)
Definition read_pressure_volts (h : state) : result (option pyfloat) :=
  match _pressure_adc h with
  | None => Ok None
  | Some None => Ok None
  | Some (Some raw) =>
      r <- fdiv (of_int raw) (Fin 4095) ;;
      Ok (Some (fmul r (Fin (33 # 10))))
  end.

(** Chip select low, four bytes read and combined big-endian, chip
    select high again; [None] without the SPI bus or the CS pin. *)
Definition read_tc_raw32 (h : state) : option Z * state :=
  match _tc_spi h, _tc_cs h with
  | Some (b0, b1, b2, b3), Some _ =>
      (Some (Z.lor (Z.lor (Z.lor (Z.shiftl b0 24) (Z.shiftl b1 16))
                          (Z.shiftl b2 8)) b3),
       set_tc_cs (Some true) h)
  | _, _ => (None, h)
  end.

End hw_esp32.

(* ===================================================================== *)
(** ** lib/drivers/control.py *)

Module control.

Record state : Type := {
  _ssr_on : bool;
  _motor_dir : Z;
  _alarm_on : bool
}.

(** The HAL import succeeds in this repository and [hw_esp32] defines
    [write_ssr] and [write_motor], so the [_HAS_HAL and hasattr(...)]
    guards are true. *)
Definition set_ssr (cfg : config.t) (on : bool)
    (c : state) (h : hw_esp32.state) : state * hw_esp32.state :=
  let c' := {| _ssr_on := on; _motor_dir := _motor_dir c;
               _alarm_on := _alarm_on c |} in
  (c', hw_esp32.write_ssr cfg (_ssr_on c') h).

Definition get_ssr (c : state) : bool := _ssr_on c.

Definition set_motor (fwd rev : bool)
    (c : state) (h : hw_esp32.state) : state * hw_esp32.state :=
  let '(fwd, rev) := if fwd && rev then (false, false) else (fwd, rev) in
  let d := if fwd then 1 else if rev then -1 else 0 in
  ({| _ssr_on := _ssr_on c; _motor_dir := d; _alarm_on := _alarm_on c |},
   hw_esp32.write_motor fwd rev h).

Definition stop_motor (c : state) (h : hw_esp32.state)
    : state * hw_esp32.state :=
  set_motor false false c h.

Definition get_motor_dir (c : state) : Z := _motor_dir c.

End control.

(* ===================================================================== *)
(** ** lib/drivers/sensors.py *)

Module sensors.

(** Desktop fallback values. *)
Record state : Type := {
  _temp_c : pyfloat;
  _pressure_kg : pyfloat
}.

Definition initial : state :=
  {| _temp_c := Fin 25; _pressure_kg := Fin (1 # 2) |}.

(** In exact arithmetic; [sensors_fp._map_voltage_to_kgcm2] is the same
    function with every operation rounded. *)
Definition _map_voltage_to_kgcm2 (cfg : config.t) (v : pyfloat)
    : result pyfloat :=
  let span_v := fsub (Fin (config.PRESSURE_V_PIN_MAX cfg))
                     (Fin (config.PRESSURE_V_PIN_MIN cfg)) in
  if fle span_v (Fin 0) then Ok NaN
  else
    ratio <- fdiv (fsub v (Fin (config.PRESSURE_V_PIN_MIN cfg))) span_v ;;
    let ratio :=
      if flt ratio (Fin 0) then Fin 0
      else if fgt ratio (Fin 1) then Fin 1
      else ratio in
    let span_p := fsub (Fin (config.PRESSURE_P_MAX_KGCM2 cfg))
                       (Fin (config.PRESSURE_P_MIN_KGCM2 cfg)) in
    Ok (fadd (Fin (config.PRESSURE_P_MIN_KGCM2 cfg)) (fmul ratio span_p)).

Definition read_pressure_kgcm2 (cfg : config.t)
    (s : state) (h : hw_esp32.state) : result pyfloat :=
  if negb (hw_esp32.on_real_hw h) then Ok (_pressure_kg s)
  else
    volts <- hw_esp32.read_pressure_volts h ;;
    match volts with
    | None => Ok NaN
    | Some v => _map_voltage_to_kgcm2 cfg v
    end.

Definition _decode_tc_c_from_raw (raw : Z) : pyfloat :=
  let fault := negb (Z.land raw 0x00010000 =? 0) in
  let tc14 := Z.land (Z.shiftr raw 18) 0x3FFF in
  let tc14 :=
    if truthy (Z.land tc14 0x2000) then Z.lor tc14 0xC000 else tc14 in
  if fault then NaN
  else fmul (of_int tc14) (Fin (1 # 4)).

Definition read_tc_c (s : state) (h : hw_esp32.state)
    : pyfloat * hw_esp32.state :=
  if negb (hw_esp32.on_real_hw h) then (_temp_c s, h)
  else
    let '(raw, h') := hw_esp32.read_tc_raw32 h in
    match raw with
    | None => (NaN, h')
    | Some raw => (_decode_tc_c_from_raw raw, h')
    end.

End sensors.

(* ===================================================================== *)
(** ** lib/core/brain.py *)

Module brain.

Record state : Type := {
  _ssr_on : bool;
  _allow_heat : bool
}.

Definition initial : state := {| _ssr_on := false; _allow_heat := false |}.

(** The module's own globals and those of the modules it calls. *)
Record world : Type := {
  st : state;
  ctl : control.state;
  sens : sensors.state;
  hw : hw_esp32.state
}.

(** [allow_heat] after the temperature gate. *)
Definition temperature_gate (cfg : config.t) (t_c : option pyfloat) : bool :=
  match t_c with
  | Some t =>
      if flt (Fin 0) t && flt t (Fin (config.APP_MAX_TEMP_C cfg))
      then true else false
  | None => false
  end.

(** [allow_heat] after the pressure gate. *)
Definition pressure_gate (cfg : config.t) (p_kg : option pyfloat)
    (allow_heat : bool) : bool :=
  match p_kg with
  | None => false
  | Some p =>
      if fge p (Fin (config.APP_MAX_PRESSURE_KGCM2 cfg)) then false
      else allow_heat
  end.

(** The body of [step_once] from the two readings on. *)
Definition decide (cfg : config.t) (t_c p_kg : option pyfloat)
    (w : world) : world :=
  let allow_heat := temperature_gate cfg t_c in
  let allow_heat := pressure_gate cfg p_kg allow_heat in
  let ssr := if config.HEAT_ENABLE cfg then allow_heat else false in
  let '(c, h) := control.set_ssr cfg ssr (ctl w) (hw w) in
  {| st := {| _ssr_on := ssr; _allow_heat := allow_heat |};
     ctl := c; sens := sens w; hw := h |}.

Definition step_once (cfg : config.t) (w : world) : result world :=
  let '(t_c, h) := sensors.read_tc_c (sens w) (hw w) in
  p_kg <- sensors.read_pressure_kgcm2 cfg (sens w) h ;;
  Ok (decide cfg (Some t_c) (Some p_kg)
        {| st := st w; ctl := ctl w; sens := sens w; hw := h |}).

Definition get_ssr_state (w : world) : bool := _ssr_on (st w).

Definition get_allow_heat (w : world) : bool := _allow_heat (st w).

End brain.

(* ===================================================================== *)
(** ** lib/core/actuator.py *)

Module actuator.

Definition AUTO_EXTEND_MS : Z := 10000.
Definition AUTO_WAIT_MS : Z := 1000.
Definition AUTO_RETRACT_MS : Z := 10000.

Record state : Type := {
  _state : string;
  _dir : Z;
  _until_ms : option Z
}.

Definition initial : state :=
  {| _state := "IDLE"; _dir := 0; _until_ms := None |}.

(** The module's own globals and those of the modules it calls. *)
Record world : Type := {
  st : state;
  ctl : control.state;
  hw : hw_esp32.state
}.

Definition init (w : world) : world :=
  let '(c, h) := control.stop_motor (ctl w) (hw w) in
  {| st := initial; ctl := c; hw := h |}.

Definition _start_phase (new_state : string) (dir_sign duration_ms : Z)
    (w : world) : world :=
  let '(d, (c, h)) :=
    if dir_sign >? 0 then (1, control.set_motor true false (ctl w) (hw w))
    else if dir_sign <? 0 then (-1, control.set_motor false true (ctl w) (hw w))
    else (0, control.stop_motor (ctl w) (hw w)) in
  let '(now, h) := hw_esp32.ticks_ms h in
  {| st := {| _state := new_state; _dir := d;
              _until_ms := Some (now + Z.max duration_ms 0) |};
     ctl := c; hw := h |}.

Definition _start_auto_cycle (w : world) : world :=
  if negb (String.eqb (_state (st w)) "IDLE") then w
  else _start_phase "EXTEND" 1 AUTO_EXTEND_MS w.

Definition jog_fwd (w : world) : world := _start_auto_cycle w.

Definition jog_rev (w : world) : world := _start_auto_cycle w.

(** The two branches of [step] that return to IDLE. *)
Definition to_idle (w : world) : world :=
  let '(c, h) := control.stop_motor (ctl w) (hw w) in
  {| st := {| _state := "IDLE"; _dir := 0; _until_ms := None |};
     ctl := c; hw := h |}.

Definition step (w : world) : world :=
  match _until_ms (st w) with
  | None => w
  | Some until =>
      if String.eqb (_state (st w)) "IDLE" then w
      else
        let '(now, h) := hw_esp32.ticks_ms (hw w) in
        let w := {| st := st w; ctl := ctl w; hw := h |} in
        if now - until <? 0 then w
        else if String.eqb (_state (st w)) "EXTEND"
        then _start_phase "WAIT" 0 AUTO_WAIT_MS w
        else if String.eqb (_state (st w)) "WAIT"
        then _start_phase "RETRACT" (-1) AUTO_RETRACT_MS w
        else if String.eqb (_state (st w)) "RETRACT"
        then to_idle w
        else to_idle w
  end.

Definition is_moving (w : world) : bool :=
  negb (String.eqb (_state (st w)) "IDLE").

Definition get_dir (w : world) : Z := _dir (st w).

(** The public operations, and a run of them in call order. *)
Inductive op : Type :=
| Init
| JogFwd
| JogRev
| Step.

Definition exec (o : op) (w : world) : world :=
  match o with
  | Init => init w
  | JogFwd => jog_fwd w
  | JogRev => jog_rev w
  | Step => step w
  end.

Definition run (ops : list op) (w : world) : world :=
  fold_left (fun w o => exec o w) ops w.

(** The state at module import: the globals' initial values. *)
Definition at_import (c : control.state) (h : hw_esp32.state) : world :=
  {| st := initial; ctl := c; hw := h |}.

(** [n] successive polls of the main loop. *)
Fixpoint steps (n : nat) (w : world) : world :=
  match n with
  | O => w
  | S n' => steps n' (step w)
  end.

(** What the properties observe of a machine: the three globals, the
    direction the control layer tracks, and how far the clock was read. *)
Definition at_phase (clk : nat -> Z) (s : string) (d : Z) (u : option Z)
    (r : nat) (w : world) : Prop :=
  st w = {| _state := s; _dir := d; _until_ms := u |} /\
  control._motor_dir (ctl w) = d /\
  hw_esp32.clock (hw w) = clk /\
  hw_esp32.reads (hw w) = r.

(** Phase [s] with direction [d], both in [_dir] and as tracked by the
    control layer. *)
Definition in_phase (s : string) (d : Z) (w : world) : Prop :=
  _state (st w) = s /\ get_dir w = d /\ control.get_motor_dir (ctl w) = d.

(** The four shapes the globals take. *)
Definition canonical (a : state) : Prop :=
  a = initial \/
  (exists u, a = {| _state := "EXTEND"; _dir := 1; _until_ms := Some u |}) \/
  (exists u, a = {| _state := "WAIT"; _dir := 0; _until_ms := Some u |}) \/
  (exists u, a = {| _state := "RETRACT"; _dir := -1; _until_ms := Some u |}).

(** Direction determined by the phase, deadline present exactly outside
    IDLE. *)
Definition invariant (a : state) : Prop :=
  In (_state a) ["IDLE"; "EXTEND"; "WAIT"; "RETRACT"]%string /\
  (_dir a = 1 <-> _state a = "EXTEND"%string) /\
  (_dir a = -1 <-> _state a = "RETRACT"%string) /\
  (_dir a = 0 <-> _state a = "IDLE"%string \/ _state a = "WAIT"%string) /\
  (_until_ms a = None <-> _state a = "IDLE"%string).

End actuator.

(* ===================================================================== *)
(** ** Reference definitions taken from the documentation *)

Module tc_spec.

(** The 14-bit field in bits [31:18]. *)
Definition field (raw : Z) : Z := Z.land (Z.shiftr raw 18) (Z.ones 14).

(** A 14-bit field read as a two's-complement integer. *)
Definition signed14 (f : Z) : Z := if f <? 2 ^ 13 then f else f - 2 ^ 14.

(** The decoding the documentation of [_decode_tc_c_from_raw] describes:
    NaN on the fault bit, else the signed field at 0.25 degrees per LSB. *)
Definition decode (raw : Z) : pyfloat :=
  if Z.testbit raw 16 then NaN
  else Fin (inject_Z (signed14 (field raw)) * (1 # 4)).

End tc_spec.

Module clock_spec.

(** [x] reduced to [width] bits and read as a two's-complement integer. *)
Definition to_signed (width x : Z) : Z :=
  let m := x mod 2 ^ width in
  if m <? 2 ^ (width - 1) then m else m - 2 ^ width.

(** The wrap-aware deadline test: the sign of [now - deadline] over the
    tick counter's width. *)
Definition elapsed (width deadline now : Z) : bool :=
  0 <=? to_signed width (now - deadline).

End clock_spec.

(* ===================================================================== *)
(** ** Concrete machines used in the examples *)

Module scenario.

(** The board after [control.init], [sensors.init] and [actuator.init]:
    pins bound and low, chip select idle high; [adc] and [spi] are the
    samples the converters deliver and [clk] the tick readings. *)
Definition board (adc : option (option Z)) (spi : option (Z * Z * Z * Z))
    (clk : nat -> Z) : hw_esp32.state :=
  {| hw_esp32._REAL_HW := true;
     hw_esp32._ssr_pin := Some false;
     hw_esp32._motor_fwd_pin := Some false;
     hw_esp32._motor_rev_pin := Some false;
     hw_esp32._pressure_adc := adc;
     hw_esp32._tc_spi := spi;
     hw_esp32._tc_cs := Some true;
     hw_esp32.clock := clk;
     hw_esp32.reads := 0 |}.

Definition control_off : control.state :=
  {| control._ssr_on := false; control._motor_dir := 0;
     control._alarm_on := false |}.

(** Thermocouple word 0x05000000 (80.0 degrees, no fault) and no
    pressure ADC bound. *)
Definition brain_no_adc : brain.world :=
  {| brain.st := brain.initial;
     brain.ctl := control_off;
     brain.sens := sensors.initial;
     brain.hw := board None (Some (5, 0, 0, 0)) (fun _ => 0) |}.

(** An actuator at rest whose clock advances 5 s per reading. *)
Definition actuator_idle : actuator.world :=
  actuator.at_import control_off
    (board None None (fun k => 5000 * Z.of_nat k)).

(** An actuator whose tick counter wraps at [2 ^ 30]: the cycle is
    triggered 5 s before the wrap and polled every 100 ms after it. *)
Definition wrapping_clock (k : nat) : Z :=
  match k with
  | O => 2 ^ 30 - 5000
  | S k' => (100 * Z.of_nat k') mod 2 ^ 30
  end.

Definition actuator_before_wrap : actuator.world :=
  actuator.at_import control_off (board None None wrapping_clock).

End scenario.

(* ===================================================================== *)
(** ** lib/core/actuator.py: the display code *)

Module actuator_ui.

Definition get_ui_state (w : actuator.world) : string :=
  if String.eqb (actuator._state (actuator.st w)) "IDLE" then "IDLE"
  else if String.eqb (actuator._state (actuator.st w)) "EXTEND" then "EXT+"
  else if String.eqb (actuator._state (actuator.st w)) "WAIT" then "WAIT"
  else if String.eqb (actuator._state (actuator.st w)) "RETRACT" then "EXT-"
  else "IDLE".

End actuator_ui.

(* ===================================================================== *)
(** ** Observations on the outputs *)

Module outputs.

(** Both motor drive pins at the active level. *)
Definition both_high (h : hw_esp32.state) : bool :=
  match hw_esp32._motor_fwd_pin h, hw_esp32._motor_rev_pin h with
  | Some true, Some true => true
  | _, _ => false
  end.

Definition motor_pins_bound (h : hw_esp32.state) : bool :=
  match hw_esp32._motor_fwd_pin h, hw_esp32._motor_rev_pin h with
  | Some _, Some _ => true
  | _, _ => false
  end.

(** The pin levels that drive direction [d]. *)
Definition drive_levels (d : Z) : option bool * option bool :=
  (Some (d =? 1), Some (d =? -1)).

Definition motor_pins (h : hw_esp32.state) : option bool * option bool :=
  (hw_esp32._motor_fwd_pin h, hw_esp32._motor_rev_pin h).

(** The SSR pin level that stands for the command [on]. *)
Definition ssr_level (cfg : config.t) (on : bool) : bool :=
  if config.SSR_ACTIVE_HIGH cfg then on else negb on.

(** What no actuator operation touches: the heater side, the alarm
    state, the sensor inputs and the clock's readings. *)
Definition actuator_frame (w w' : actuator.world) : Prop :=
  control._ssr_on (actuator.ctl w') = control._ssr_on (actuator.ctl w) /\
  control._alarm_on (actuator.ctl w') = control._alarm_on (actuator.ctl w) /\
  hw_esp32._REAL_HW (actuator.hw w') = hw_esp32._REAL_HW (actuator.hw w) /\
  hw_esp32._ssr_pin (actuator.hw w') = hw_esp32._ssr_pin (actuator.hw w) /\
  hw_esp32._pressure_adc (actuator.hw w')
    = hw_esp32._pressure_adc (actuator.hw w) /\
  hw_esp32._tc_spi (actuator.hw w') = hw_esp32._tc_spi (actuator.hw w) /\
  hw_esp32._tc_cs (actuator.hw w') = hw_esp32._tc_cs (actuator.hw w) /\
  hw_esp32.clock (actuator.hw w') = hw_esp32.clock (actuator.hw w).

(** The tracked direction and, where bound, the motor pins agree with
    the actuator's [_dir]. *)
Definition motor_follows (w : actuator.world) : Prop :=
  control._motor_dir (actuator.ctl w) = actuator._dir (actuator.st w) /\
  (motor_pins_bound (actuator.hw w) = true ->
   motor_pins (actuator.hw w) = drive_levels (actuator._dir (actuator.st w))).

(** The phase that follows a timed phase. *)
Definition next_phase (s : string) : string :=
  if String.eqb s "EXTEND" then "WAIT"
  else if String.eqb s "WAIT" then "RETRACT"
  else "IDLE".

(** How far a cycle triggered at clock value [t0] has come: in each
    phase, a lower bound on the deadline and on the last clock reading
    taken. *)
Definition cycle_progress (clk : nat -> Z) (t0 : Z) (w : actuator.world)
    : Prop :=
  exists r,
    (1 <= r)%nat /\
    (actuator.at_phase clk "EXTEND" 1
       (Some (t0 + actuator.AUTO_EXTEND_MS)) r w \/
     (exists u,
        actuator.at_phase clk "WAIT" 0 (Some u) r w /\
        t0 + actuator.AUTO_EXTEND_MS + actuator.AUTO_WAIT_MS <= u /\
        t0 + actuator.AUTO_EXTEND_MS <= clk (r - 1)%nat) \/
     (exists u,
        actuator.at_phase clk "RETRACT" (-1) (Some u) r w /\
        t0 + actuator.AUTO_EXTEND_MS + actuator.AUTO_WAIT_MS
           + actuator.AUTO_RETRACT_MS <= u /\
        t0 + actuator.AUTO_EXTEND_MS + actuator.AUTO_WAIT_MS
          <= clk (r - 1)%nat) \/
     (actuator.at_phase clk "IDLE" 0 None r w /\
      t0 + actuator.AUTO_EXTEND_MS + actuator.AUTO_WAIT_MS
         + actuator.AUTO_RETRACT_MS <= clk (r - 1)%nat)).

End outputs.

(* ===================================================================== *)
(** ** lib/core/actuator_sm.py: the timed-jog variant *)

Module actuator_sm.

Definition JOG_MS : Z := 800.

Record state : Type := {
  _state : string;
  _dir : Z;
  _until_ms : option Z
}.

Definition initial : state :=
  {| _state := "IDLE"; _dir := 0; _until_ms := None |}.

Record world : Type := {
  st : state;
  ctl : control.state;
  hw : hw_esp32.state
}.

Definition init (w : world) : world :=
  let '(c, h) := control.stop_motor (ctl w) (hw w) in
  {| st := initial; ctl := c; hw := h |}.

Definition _start_move (dir_sign : Z) (w : world) : world :=
  if dir_sign =? 0 then w
  else
    let '(now, h) := hw_esp32.ticks_ms (hw w) in
    let d := if dir_sign >? 0 then 1 else -1 in
    let '(c, h) :=
      if d >? 0 then control.set_motor true false (ctl w) h
      else control.set_motor false true (ctl w) h in
    {| st := {| _state := "MOVING"; _dir := d;
                _until_ms := Some (now + JOG_MS) |};
       ctl := c; hw := h |}.

Definition jog_fwd (w : world) : world := _start_move 1 w.

Definition jog_rev (w : world) : world := _start_move (-1) w.

Definition step (w : world) : world :=
  if negb (String.eqb (_state (st w)) "MOVING") then w
  else
    match _until_ms (st w) with
    | None => w
    | Some until =>
        let '(now, h) := hw_esp32.ticks_ms (hw w) in
        if now - until >=? 0 then
          let '(c, h) := control.stop_motor (ctl w) h in
          {| st := {| _state := "IDLE"; _dir := 0; _until_ms := None |};
             ctl := c; hw := h |}
        else {| st := st w; ctl := ctl w; hw := h |}
    end.

Definition is_moving (w : world) : bool :=
  String.eqb (_state (st w)) "MOVING".

Definition get_dir (w : world) : Z := _dir (st w).

Definition get_ui_state (w : world) : string :=
  if negb (String.eqb (_state (st w)) "MOVING") then "IDLE"
  else if _dir (st w) >? 0 then "MOV+"
  else if _dir (st w) <? 0 then "MOV-"
  else "IDLE".

Inductive op : Type :=
| Init
| JogFwd
| JogRev
| Step.

Definition exec (o : op) (w : world) : world :=
  match o with
  | Init => init w
  | JogFwd => jog_fwd w
  | JogRev => jog_rev w
  | Step => step w
  end.

Definition run (ops : list op) (w : world) : world :=
  fold_left (fun w o => exec o w) ops w.

Fixpoint steps (n : nat) (w : world) : world :=
  match n with
  | O => w
  | S n' => steps n' (step w)
  end.

(** Moving in direction [d] until [u], with [r] clock readings taken. *)
Definition moving (clk : nat -> Z) (d u : Z) (r : nat) (w : world) : Prop :=
  st w = {| _state := "MOVING"; _dir := d; _until_ms := Some u |} /\
  control._motor_dir (ctl w) = d /\
  hw_esp32.clock (hw w) = clk /\
  hw_esp32.reads (hw w) = r.

(** At rest with the motor stopped. *)
Definition resting (w : world) : Prop :=
  st w = initial /\ control._motor_dir (ctl w) = 0.

(** The two shapes the machine takes once initialised. *)
Definition canonical (w : world) : Prop :=
  resting w \/
  exists d u,
    (d = 1 \/ d = -1) /\
    moving (hw_esp32.clock (hw w)) d u (hw_esp32.reads (hw w)) w.

(** A machine at rest whose clock advances 500 ms per reading. *)
Definition example_idle : world :=
  {| st := initial;
     ctl := {| control._ssr_on := false; control._motor_dir := 0;
               control._alarm_on := false |};
     hw := {| hw_esp32._REAL_HW := true;
              hw_esp32._ssr_pin := Some false;
              hw_esp32._motor_fwd_pin := Some false;
              hw_esp32._motor_rev_pin := Some false;
              hw_esp32._pressure_adc := None;
              hw_esp32._tc_spi := None;
              hw_esp32._tc_cs := Some true;
              hw_esp32.clock := fun k => 500 * Z.of_nat k;
              hw_esp32.reads := 0 |} |}.

End actuator_sm.

(* ===================================================================== *)
(** ** More Python values: list indexing *)

(** [l[i]]: negative indices count from the end; [None] stands for
    [IndexError]. *)
Definition py_index {A : Type} (l : list A) (i : Z) : option A :=
  let n := Z.of_nat (length l) in
  if (0 <=? i) && (i <? n) then nth_error l (Z.to_nat i)
  else if (- n <=? i) && (i <? 0) then nth_error l (Z.to_nat (i + n))
  else None.

(* ===================================================================== *)
(** ** More Python values: text *)

From Stdlib Require Import Ascii DecimalString.

(** A [str] as its sequence of characters. *)
Definition text : Type := list ascii.

Definition txt (s : string) : text := list_ascii_of_string s.

Definition len (s : text) : Z := Z.of_nat (length s).

(** [" " * n] *)
Definition spaces (n : Z) : text := repeat " "%char (Z.to_nat n).

(** [s.ljust(w)] and [s.rjust(w)] *)
Definition ljust (w : Z) (s : text) : text := s ++ spaces (w - len s).

Definition rjust (w : Z) (s : text) : text := spaces (w - len s) ++ s.

(** [s[:n]]; a negative [n] counts from the end. *)
Definition slice_to (n : Z) (s : text) : text :=
  if 0 <=? n then firstn (Z.to_nat n) s
  else firstn (length s - Z.to_nat (- n)) s.

(** [s[a:b]] for [0 <= a <= b] *)
Definition slice (a b : nat) (s : text) : text := firstn (b - a) (skipn a s).

Fixpoint text_eqb (a b : text) : bool :=
  match a, b with
  | [], [] => true
  | x :: a', y :: b' => Ascii.eqb x y && text_eqb a' b'
  | _, _ => false
  end.

(** Position of the first [c] in [s], as [s.find(c)] gives it; [None]
    stands for [-1]. *)
Fixpoint find_char (c : ascii) (s : text) : option nat :=
  match s with
  | [] => None
  | x :: rest =>
      if Ascii.eqb x c then Some O
      else match find_char c rest with
           | Some k => Some (S k)
           | None => None
           end
  end.

(** [str(n)] for an [int] *)
Definition str_of_int (n : Z) : text := txt (NilZero.string_of_int (Z.to_int n)).

(** Values held in a template context: strings and integers. *)
Inductive value : Type :=
| VStr (s : text)
| VInt (n : Z).

Definition str_of_value (v : value) : text :=
  match v with
  | VStr s => s
  | VInt n => str_of_int n
  end.

(** A [dict] with [str] keys, as its items in insertion order. *)
Definition dict : Type := list (text * value).

(** [d.get(key, default)] *)
Fixpoint dict_get (d : dict) (key : text) (default : value) : value :=
  match d with
  | [] => default
  | (k, v) :: rest => if text_eqb k key then v else dict_get rest key default
  end.

(** [config.py]: the display constants. *)
Module config_lcd.

Definition LCD_ENABLE : bool := true.
Definition LCD_COLS : Z := 20.

End config_lcd.

(* ===================================================================== *)
(** ** lib/core/units.py: the units mode *)

Module units.

Definition UNITS_METRIC : Z := 0.
Definition UNITS_USCS : Z := 1.

(** [config.DEFAULT_UNITS] *)
Definition DEFAULT_UNITS : Z := UNITS_USCS.

(** The module's global [_current_units]. *)
Definition state : Type := Z.

Definition initial : state := DEFAULT_UNITS.

Definition set_units (mode : Z) (u : state) : state := mode.

Definition get_units (u : state) : Z := u.

Definition temp_unit_str (u : state) : string :=
  if u =? UNITS_METRIC then "C" else "F".

Definition press_unit_str (u : state) : string :=
  if u =? UNITS_METRIC then "kg" else "psi".

Definition units_name (u : state) : string :=
  if u =? UNITS_METRIC then "METRIC" else "USCS".

Section Format.

(** Python's fixed-point formatting ["{:W.Pf}".format(v)], with [width]
    absent for ["{:.Pf}"]; the digits it produces are not modelled. *)
Variable format_float : option Z -> Z -> pyfloat -> text.

Definition format_temp (u : state) (temp_c : option pyfloat) : result text :=
  match temp_c with
  | None => Ok (txt "  NaN ")
  | Some v =>
      if u =? UNITS_METRIC then Ok (format_float (Some 5) 1 v)
      else
        q <- fdiv (fmul v (Fin 9)) (Fin 5) ;;
        let temp_f := fadd q (Fin 32) in
        Ok (format_float (Some 5) 1 temp_f)
  end.

Definition format_press (u : state) (press_kgcm2 : option pyfloat)
    : result text :=
  match press_kgcm2 with
  | None => Ok (txt "  NaN ")
  | Some v =>
      if u =? UNITS_METRIC then Ok (format_float (Some 5) 2 v)
      else
        let psi := fmul v (Fin (14223 # 1000)) in
        Ok (format_float (Some 5) 1 psi)
  end.

End Format.

End units.

(* ===================================================================== *)
(** ** lib/drivers/buttons.py: press detection *)

Module buttons.

(** A [Button] object; [pin] is the level [self.pin.value()] returns,
    set by the environment between polls. *)
Record Button : Type := {
  pin : Z;
  name : string;
  last_state : Z;
  last_change_ms : Z;
  press_start_ms : option Z;
  short_ms : Z;
  long_ms : Z
}.

Definition Button_init (pin_level : Z) (nm : string) : Button :=
  {| pin := pin_level; name := nm; last_state := pin_level;
     last_change_ms := 0; press_start_ms := None;
     short_ms := 50; long_ms := 800 |}.

(** The environment moving the input to level [v]. *)
Definition with_pin (v : Z) (b : Button) : Button :=
  {| pin := v; name := name b; last_state := last_state b;
     last_change_ms := last_change_ms b; press_start_ms := press_start_ms b;
     short_ms := short_ms b; long_ms := long_ms b |}.

Section Callback.

(** The state the event callback acts on. *)
Variable W : Type.

Definition Button_poll (b : Button) (now_ms : Z)
    (callback : string -> W -> W) (s : W) : Button * W :=
  let state := pin b in
  if negb (state =? last_state b) then
    if state =? 0 then
      ({| pin := pin b; name := name b; last_state := state;
          last_change_ms := now_ms; press_start_ms := Some now_ms;
          short_ms := short_ms b; long_ms := long_ms b |}, s)
    else
      let s' :=
        match press_start_ms b with
        | Some start =>
            let dur := now_ms - start in
            if dur >=? long_ms b then callback (name b ++ "_LONG")%string s
            else if dur >=? short_ms b
                 then callback (name b ++ "_SHORT")%string s
                 else s
        | None => s
        end in
      ({| pin := pin b; name := name b; last_state := state;
          last_change_ms := now_ms; press_start_ms := None;
          short_ms := short_ms b; long_ms := long_ms b |}, s')
  else (b, s).

(** Polls at the times [ts] with the input left as it is. *)
Fixpoint Button_polls (b : Button) (ts : list Z)
    (callback : string -> W -> W) (s : W) : Button * W :=
  match ts with
  | [] => (b, s)
  | t :: rest =>
      let '(b', s') := Button_poll b t callback s in
      Button_polls b' rest callback s'
  end.

Record ButtonManager : Type := {
  buttons : list Button;
  event_cb : option (string -> W -> W)
}.

Definition ButtonManager_init (bs : list Button) : ButtonManager :=
  {| buttons := bs; event_cb := None |}.

Definition set_callback (cb : string -> W -> W) (m : ButtonManager)
    : ButtonManager :=
  {| buttons := buttons m; event_cb := Some cb |}.

(** The [for b in self.buttons] loop. *)
Fixpoint poll_each (bs : list Button) (now_ms : Z)
    (cb : string -> W -> W) (s : W) : list Button * W :=
  match bs with
  | [] => ([], s)
  | b :: rest =>
      let '(b', s1) := Button_poll b now_ms cb s in
      let '(rest', s2) := poll_each rest now_ms cb s1 in
      (b' :: rest', s2)
  end.

Definition ButtonManager_poll (m : ButtonManager) (now_ms : Z) (s : W)
    : ButtonManager * W :=
  match event_cb m with
  | None => (m, s)
  | Some cb =>
      let '(bs, s') := poll_each (buttons m) now_ms cb s in
      ({| buttons := bs; event_cb := event_cb m |}, s')
  end.

(** The environment moving the input of the [i]-th button to [v]. *)
Fixpoint set_pin_at (i : nat) (v : Z) (bs : list Button) : list Button :=
  match bs, i with
  | [], _ => []
  | b :: rest, O => with_pin v b :: rest
  | b :: rest, S i' => b :: set_pin_at i' v rest
  end.

Definition set_pin (i : nat) (v : Z) (m : ButtonManager) : ButtonManager :=
  {| buttons := set_pin_at i v (buttons m); event_cb := event_cb m |}.

(** [init(event_cb)]: on the board two buttons, BTN1 and BTN2, created
    while their inputs read [p1] and [p2]; elsewhere none. *)
Definition init (real_hw : bool) (p1 p2 : Z) (event_cb_ : string -> W -> W)
    : ButtonManager :=
  let bs :=
    if real_hw then [Button_init p1 "BTN1"; Button_init p2 "BTN2"]
    else [] in
  set_callback event_cb_ (ButtonManager_init bs).

End Callback.

End buttons.

(* ===================================================================== *)
(** ** lib/core/ui_pages.py: the template engine *)

Module ui_pages.

(** The four lines handed to the display. *)
Record page : Type := {
  line1 : text;
  line2 : text;
  line3 : text;
  line4 : text
}.

Definition _DEFAULT_PAGES : list (text * list text) :=
  [ (txt "status",
     [ txt "T:{TEMP}{TUNIT} P:{PRESS}{PUNIT}";
       txt "SSR:{SSR} ACT:{ACT}";
       txt "Step {STEP_IDX}/{STEP_COUNT}";
       txt "{MESSAGE}" ]);
    (txt "limits",
     [ txt "MaxT:{APP_MAX_TEMP}{TUNIT}";
       txt "MaxP:{APP_MAX_PRESS}{PUNIT}";
       txt "Units:{UNITS_NAME}";
       txt "Program:{PROGRAM_NAME}" ]);
    (txt "debug",
     [ txt "TEMP_RAW:{TEMP}";
       txt "PRESS_RAW:{PRESS}";
       txt "SSR:{SSR} ACT:{ACT}";
       txt "{DEBUG_HINT}" ]) ].

(** [_DEFAULT_PAGES.get(page_id)], giving the page's lines. *)
Fixpoint default_page (pages : list (text * list text)) (page_id : text)
    : option (list text) :=
  match pages with
  | [] => None
  | (k, ls) :: rest =>
      if text_eqb k page_id then Some ls else default_page rest page_id
  end.

(** What becomes of reading [ui_templates/<page_id>.txt]: [open]
    raises [OSError], or [open] succeeds and [f.read()] raises (a
    decoding or I/O error), or the file's text is read and split into
    [raw_lines]. *)
Inductive file_read : Type :=
| OpenFails
| ReadFails
| FileLines (raw_lines : list text).

(** A call of this module returns, or lets out an exception of the
    formatting arithmetic, or lets out the exception of [f.read()],
    which [except OSError] around [open] does not catch. *)
Inductive outcome (A : Type) : Type :=
| Returns (a : A)
| Throws (e : exn)
| ReadError.

Arguments Returns {A} a.
Arguments Throws {A} e.
Arguments ReadError {A}.

Definition _load_page_from_file (file : file_read)
    : outcome (option (list text)) :=
  match file with
  | OpenFails => Returns None
  | ReadFails => ReadError
  | FileLines raw_lines =>
      let lines := firstn 4 raw_lines in
      if (length lines <? 4)%nat
      then Returns (Some (lines ++ repeat (txt "") (4 - length lines)))
      else Returns (Some lines)
  end.

(** The inner [for c in s] loop: append while there is room. *)
Fixpoint append_clamped (width : Z) (out s : text) : text :=
  match s with
  | [] => out
  | c :: rest =>
      if len out >=? width then out
      else append_clamped width (out ++ [c]) rest
  end.

(** The main loop of [_expand_line]; [rest] is [tmpl[i:]].  Every turn
    consumes at least one character of the template, so [fuel] equal to
    its length is enough. *)
Fixpoint expand_loop (fuel : nat) (ctx : dict) (width : Z)
    (rest out : text) : text :=
  match fuel with
  | O => out
  | S fuel' =>
      match rest with
      | [] => out
      | ch :: tail =>
          if len out <? width then
            if Ascii.eqb ch "{" then
              match find_char "}" tail with
              | None => expand_loop fuel' ctx width tail (out ++ ["{"%char])
              | Some e =>
                  let key := firstn e tail in
                  let val := dict_get ctx key (VStr (txt "?")) in
                  let s := str_of_value val in
                  expand_loop fuel' ctx width (skipn (S e) tail)
                    (append_clamped width out s)
              end
            else expand_loop fuel' ctx width tail (out ++ [ch])
          else out
      end
  end.

Definition _expand_line (tmpl : option text) (ctx : dict)
    (width : option Z) : text :=
  let width :=
    match width with
    | None => config_lcd.LCD_COLS
    | Some w => w
    end in
  let tmpl := match tmpl with Some t => t | None => [] end in
  let out := expand_loop (length tmpl) ctx width tmpl [] in
  let out := out ++ spaces (width - len out) in
  slice_to width out.

Section Format.

Variable format_float : option Z -> Z -> pyfloat -> text.

Definition build_context (cfg : config.t) (u : units.state)
    (temp_c pressure_kg : option pyfloat) (ssr_on : bool)
    (act_state : text) (step_idx step_count : Z)
    (message program_name debug_hint : text) : result dict :=
  temp_txt <- units.format_temp format_float u
                (Some (match temp_c with Some t => t | None => NaN end)) ;;
  press_txt <- units.format_press format_float u
                 (Some (match pressure_kg with Some p => p | None => NaN end)) ;;
  Ok [ (txt "TEMP", VStr temp_txt);
       (txt "TUNIT", VStr (txt (units.temp_unit_str u)));
       (txt "PRESS", VStr press_txt);
       (txt "PUNIT", VStr (txt (units.press_unit_str u)));
       (txt "SSR", VStr (if ssr_on then txt "ON" else txt "OFF"));
       (txt "ACT", VStr (match act_state with [] => txt "--" | _ => act_state end));
       (txt "STEP_IDX", VInt (if truthy step_idx then step_idx else 0));
       (txt "STEP_COUNT", VInt (if truthy step_count then step_count else 0));
       (txt "MESSAGE", VStr (match message with [] => txt "" | _ => message end));
       (txt "UNITS_NAME", VStr (txt (units.units_name u)));
       (txt "PROGRAM_NAME",
        VStr (match program_name with [] => txt "-" | _ => program_name end));
       (txt "APP_MAX_TEMP",
        VStr (format_float None 1 (Fin (config.APP_MAX_TEMP_C cfg))));
       (txt "APP_MAX_PRESS",
        VStr (format_float None 2 (Fin (config.APP_MAX_PRESSURE_KGCM2 cfg))));
       (txt "DEBUG_HINT",
        VStr (match debug_hint with [] => txt "" | _ => debug_hint end)) ].

(** [lines[k]] expanded when the list has it, else a blank line. *)
Definition line_or_blank (lines : list text) (k : nat) (ctx : dict)
    (cols : Z) : text :=
  match nth_error lines k with
  | Some l => _expand_line (Some l) ctx (Some cols)
  | None => spaces cols
  end.

(** [file] is what reading the template file of [page_id] gives, see
    [_load_page_from_file]; the file is opened only for a built-in
    page. *)
Definition render_page (cfg : config.t) (u : units.state)
    (file : file_read) (page_id : text)
    (temp_c pressure_kg : option pyfloat) (ssr_on : bool)
    (act_state : text) (step_idx step_count : Z)
    (message program_name debug_hint : text) : outcome page :=
  match default_page _DEFAULT_PAGES page_id with
  | None =>
      let cols := config_lcd.LCD_COLS in
      Returns {| line1 := slice_to cols (ljust cols (txt "UNKNOWN PAGE"));
                 line2 := slice_to cols (ljust cols (txt "id=" ++ page_id));
                 line3 := spaces cols;
                 line4 := spaces cols |}
  | Some meta_lines =>
      match _load_page_from_file file with
      | ReadError => ReadError
      | Throws e => Throws e
      | Returns file_lines =>
          let lines :=
            match file_lines with
            | Some file_lines => file_lines
            | None => meta_lines
            end in
          match build_context cfg u temp_c pressure_kg ssr_on act_state
                  step_idx step_count message program_name debug_hint with
          | Raise e => Throws e
          | Ok ctx =>
              let cols := config_lcd.LCD_COLS in
              Returns {| line1 := line_or_blank lines 0 ctx cols;
                         line2 := line_or_blank lines 1 ctx cols;
                         line3 := line_or_blank lines 2 ctx cols;
                         line4 := line_or_blank lines 3 ctx cols |}
          end
      end
  end.

End Format.

(** A template as its pieces: literal text and [{KEY}] tokens. *)
Inductive piece : Type :=
| Lit (s : text)
| Tok (key : text).

Definition piece_text (p : piece) : text :=
  match p with
  | Lit s => s
  | Tok key => "{"%char :: key ++ ["}"%char]
  end.

Definition template_text (ps : list piece) : text :=
  concat (map piece_text ps).

(** What a piece stands for under a context. *)
Definition piece_value (ctx : dict) (p : piece) : text :=
  match p with
  | Lit s => s
  | Tok key => str_of_value (dict_get ctx key (VStr (txt "?")))
  end.

Definition template_value (ctx : dict) (ps : list piece) : text :=
  concat (map (piece_value ctx) ps).

(** Literal text holds no opening brace and a key no closing brace. *)
Definition piece_ok (p : piece) : Prop :=
  match p with
  | Lit s => ~ In "{"%char s
  | Tok key => ~ In "}"%char key
  end.

End ui_pages.

(* ===================================================================== *)
(** ** lib/core/ui_model.py *)

Module ui_model.

Section Format.

Variable format_float : option Z -> Z -> pyfloat -> text.

Definition _fmt_float_or_nan (value : option pyfloat) (width prec : Z)
    : text :=
  match value with
  | None => rjust width (txt "NaN")
  | Some v =>
      if is_nan v then rjust width (txt "NaN")
      else format_float (Some width) prec v
  end.

Definition _fmt_fixed (value : option pyfloat) (width prec : Z)
    (nan_text : text) : text :=
  let t :=
    match value with
    | None => nan_text
    | Some v => if is_nan v then nan_text else format_float None prec v
    end in
  if len t <? width then t ++ spaces (width - len t)
  else slice_to width t.

Definition make_status_16x4 (u : units.state)
    (temp_c pressure_kg : option pyfloat) (ssr_on : bool)
    : result ui_pages.page :=
  let t := match temp_c with Some t => t | None => NaN end in
  let p := match pressure_kg with Some p => p | None => NaN end in
  t_str <- units.format_temp format_float u (Some t) ;;
  p_str <- units.format_press format_float u (Some p) ;;
  let u_str := txt (units.temp_unit_str u) in
  let l1 := txt "T=" ++ t_str ++ u_str ++ txt " P=" ++ p_str in
  let l2 := if ssr_on then txt "SSR:ON " else txt "SSR:OFF" in
  let cols := config_lcd.LCD_COLS in
  Ok {| ui_pages.line1 := slice_to cols (ljust cols l1);
        ui_pages.line2 := slice_to cols (ljust cols l2);
        ui_pages.line3 := slice_to cols (ljust cols (txt ""));
        ui_pages.line4 := slice_to cols (ljust cols (txt "")) |}.

End Format.

End ui_model.

(* ===================================================================== *)
(** ** lib/core/ui_controller.py: page selection and units toggle *)

Module ui_controller.

Definition _PAGES : list string := ["status"; "limits"; "debug"]%string.

Record state : Type := {
  _page_idx : Z;
  units_mode : units.state
}.

Definition init (s : state) : state :=
  {| _page_idx := 0;
     units_mode := units.set_units units.DEFAULT_UNITS (units_mode s) |}.

Definition current_page_id (s : state) : option string :=
  py_index _PAGES (_page_idx s).

Definition next_page (s : state) : state :=
  {| _page_idx := (_page_idx s + 1) mod Z.of_nat (length _PAGES);
     units_mode := units_mode s |}.

Definition toggle_units (s : state) : state :=
  let cur := units.get_units (units_mode s) in
  if cur =? units.UNITS_METRIC
  then {| _page_idx := _page_idx s;
          units_mode := units.set_units units.UNITS_USCS (units_mode s) |}
  else {| _page_idx := _page_idx s;
          units_mode := units.set_units units.UNITS_METRIC (units_mode s) |}.

(** [n] presses of the page button. *)
Fixpoint presses (n : nat) (s : state) : state :=
  match n with
  | O => s
  | S n' => presses n' (next_page s)
  end.

Fixpoint toggles (n : nat) (s : state) : state :=
  match n with
  | O => s
  | S n' => toggles n' (toggle_units s)
  end.

(** [None] stands for the [IndexError] of [current_page_id]. *)
Definition make_page (format_float : option Z -> Z -> pyfloat -> text)
    (cfg : config.t) (file : ui_pages.file_read) (s : state)
    (temp_c pressure_kg : option pyfloat) (ssr_on : bool)
    (act_state : text) (step_idx step_count : Z)
    (message program_name debug_hint : text)
    : option (ui_pages.outcome ui_pages.page) :=
  match current_page_id s with
  | None => None
  | Some page_id =>
      Some (ui_pages.render_page format_float cfg (units_mode s) file
              (txt page_id) temp_c pressure_kg ssr_on act_state
              step_idx step_count message program_name debug_hint)
  end.

End ui_controller.

(* ===================================================================== *)
(** ** lib/drivers/i2c_hd44780.py: the LCD behind an I2C expander *)

Module i2c_hd44780.

(** What the driver does to the outside, in order: single-byte writes
    to the I2C device and [hw_esp32.sleep_ms] pauses. *)
Inductive io : Type :=
| I2cWrite (addr data : Z)
| Sleep (ms : Z).

Definition _MASK_RS : Z := 0x01.
Definition _MASK_RW : Z := 0x02.
Definition _MASK_EN : Z := 0x04.
Definition _MASK_BL : Z := 0x08.


Record I2cLcd : Type := {
  _cols : Z;
  _rows : Z;
  _addr : Z;
  _backlight : bool
}.

Definition _backlight_mask (lcd : I2cLcd) : Z :=
  if _backlight lcd then _MASK_BL else 0.

Definition _write_byte (lcd : I2cLcd) (data : Z) : list io :=
  [I2cWrite (_addr lcd) (Z.land data 0xFF)].

Definition _pulse_enable (lcd : I2cLcd) (data : Z) : list io :=
  _write_byte lcd (Z.lor data _MASK_EN) ++ [Sleep 1] ++
  _write_byte lcd (Z.land data (Z.lnot _MASK_EN)) ++ [Sleep 1].

Definition _send_nibble (lcd : I2cLcd) (nibble : Z) (rs : bool) : list io :=
  let base := Z.land nibble 0xF0 in
  let base := if rs then Z.lor base _MASK_RS else base in
  let base := Z.lor base (_backlight_mask lcd) in
  _pulse_enable lcd base.

Definition _send_byte (lcd : I2cLcd) (value : Z) (rs : bool) : list io :=
  let high := Z.land value 0xF0 in
  let low := Z.land (Z.shiftl value 4) 0xF0 in
  _send_nibble lcd high rs ++ _send_nibble lcd low rs.

Definition _command (lcd : I2cLcd) (cmd : Z) : list io :=
  _send_byte lcd cmd false ++
  (if (cmd =? 0x01) || (cmd =? 0x02) then [Sleep 2] else []).


Definition clear (lcd : I2cLcd) : list io := _command lcd 0x01.

Definition home (lcd : I2cLcd) : list io := _command lcd 0x02.

Definition _init_lcd (lcd : I2cLcd) : list io :=
  [Sleep 50] ++
  concat (repeat (_send_nibble lcd 0x30 false ++ [Sleep 5]) 3) ++
  _send_nibble lcd 0x20 false ++ [Sleep 5] ++
  _command lcd 0x28 ++
  _command lcd 0x08 ++
  clear lcd ++
  _command lcd 0x06 ++
  _command lcd 0x0C.




Definition set_backlight (lcd : I2cLcd) (on : bool) : I2cLcd * list io :=
  let lcd' := {| _cols := _cols lcd; _rows := _rows lcd;
                 _addr := _addr lcd; _backlight := on |} in
  (lcd', _write_byte lcd' (_backlight_mask lcd')).

(** The display's side of the bus.  The expander's P2 is the enable
    line, P0 register select and P4..P7 the data lines: a nibble is
    taken when enable falls, and two nibbles, high first, make a byte.
    [latched] lists the nibbles taken, [received] the bytes, each with
    its register-select flag ([true] for data, [false] for a command). *)
Fixpoint latched (held : option Z) (tr : list io) : list (bool * Z) :=
  match tr with
  | [] => []
  | Sleep _ :: rest => latched held rest
  | I2cWrite _ d :: rest =>
      if Z.testbit d 2 then latched (Some d) rest
      else
        match held with
        | Some p =>
            (Z.testbit p 0, Z.land (Z.shiftr p 4) 0xF) :: latched None rest
        | None => latched None rest
        end
  end.

Fixpoint pair_nibbles (l : list (bool * Z)) : list (bool * Z) :=
  match l with
  | (rs, h) :: (_, lo) :: rest => (rs, h * 16 + lo) :: pair_nibbles rest
  | _ => []
  end.

Definition received (tr : list io) : list (bool * Z) :=
  pair_nibbles (latched None tr).


End i2c_hd44780.

(* ===================================================================== *)
(** ** main.py: button events *)

Module main.

(** What the button handling of the main loop acts on: the console,
    the UI controller and the actuator with the layers below it. *)
Record world : Type := {
  console : list text;
  ui : ui_controller.state;
  act : actuator.world
}.

(** [print("Button event:", evt)] *)
Definition print_event (evt : string) (w : world) : world :=
  {| console := console w ++ [txt "Button event: " ++ txt evt];
     ui := ui w; act := act w |}.

Definition on_button_event (evt : string) (w : world) : world :=
  let w := print_event evt w in
  if String.eqb evt "BTN1_SHORT" then
    {| console := console w; ui := ui_controller.next_page (ui w);
       act := act w |}
  else if String.eqb evt "BTN2_SHORT" then
    {| console := console w; ui := ui_controller.toggle_units (ui w);
       act := act w |}
  else if String.eqb evt "BTN1_LONG" then
    {| console := console w; ui := ui w; act := actuator.jog_fwd (act w) |}
  else if String.eqb evt "BTN2_LONG" then
    {| console := console w; ui := ui w; act := actuator.jog_rev (act w) |}
  else w.

(** [buttons.poll()]: one tick is read and every button polled with it. *)
Definition buttons_poll (m : option (buttons.ButtonManager world))
    (w : world) : option (buttons.ButtonManager world) * world :=
  match m with
  | None => (None, w)
  | Some mgr =>
      let '(now, h) := hw_esp32.ticks_ms (actuator.hw (act w)) in
      let w := {| console := console w; ui := ui w;
                  act := {| actuator.st := actuator.st (act w);
                            actuator.ctl := actuator.ctl (act w);
                            actuator.hw := h |} |} in
      let '(mgr', w') := buttons.ButtonManager_poll world mgr now w in
      (Some mgr', w')
  end.

(** The button manager as [main()] sets it up on the board, with both
    inputs released. *)
Definition board_buttons : buttons.ButtonManager world :=
  buttons.init world true 1 1 on_button_event.

(** Button [i] goes down, is polled, goes up again and is polled. *)
Definition press_and_release (i : nat) (w : world)
    : option (buttons.ButtonManager world) * world :=
  let '(m1, w1) :=
    buttons_poll (Some (buttons.set_pin world i 0 board_buttons)) w in
  match m1 with
  | None => (None, w1)
  | Some m1 => buttons_poll (Some (buttons.set_pin world i 1 m1)) w1
  end.

(** The board at rest on the first page, its clock advancing 5 s per
    reading. *)
Definition example : world :=
  {| console := [];
     ui := {| ui_controller._page_idx := 0;
              ui_controller.units_mode := units.initial |};
     act := scenario.actuator_idle |}.

End main.

(* ===================================================================== *)
(** ** Floating-point arithmetic with rounding *)

From Stdlib Require Import Qpower Qabs Qround SpecFloat.

Local Open Scope Z_scope.

(** Python's [float] once more, now with the rounding of the machine
    arithmetic: every operation returns the exact result rounded to the
    nearest value of the format, ties to the even significand, as
    IEEE 754 defines it.  CPython computes in binary64; MicroPython on
    the ESP32 is built with single-precision floats, so the format is a
    parameter.  The sign of zero is not modelled: the code modelled here
    never divides by a zero it could observe and never formats the
    result. *)
Module ieee.

(** [prec] bits of significand; the smallest positive value is
    [2 ^ emin]; a result of magnitude [2 ^ emax] or more overflows. *)
Record format : Type := {
  prec : Z;
  emin : Z;
  emax : Z
}.

Definition binary64 : format := {| prec := 53; emin := -1074; emax := 1024 |}.

Definition binary32 : format := {| prec := 24; emin := -149; emax := 128 |}.

(** What makes the record a format: at least one bit, and [1.0] among
    the finite values. *)
Definition valid (fmt : format) : Prop :=
  1 <= prec fmt /\ emin fmt <= 1 - prec fmt /\ 1 <= emax fmt.

Inductive t : Type :=
| Nan
| Infinity (negative : bool)
| Finite (q : Q).

Definition pow2 (e : Z) : Q := (2 ^ e)%Q.

(** [floor (log2 q)] of a positive rational. *)
Definition ilog2 (q : Q) : Z :=
  let k := Z.log2 (Qnum q) - Z.log2 (Zpos (Qden q)) in
  if Qle_bool (pow2 k) q then k else k - 1.

(** The nearest integer, a tie going to the even one. *)
Definition nearest_even (x : Q) : Z :=
  let f := Qfloor x in
  match (x - inject_Z f ?= 1 # 2)%Q with
  | Lt => f
  | Gt => f + 1
  | Eq => if Z.even f then f else f + 1
  end.

(** The exponent of the unit in the last place at [q]: [prec] bits below
    the leading bit, and never below [emin] (subnormal range). *)
Definition exponent (fmt : format) (q : Q) : Z :=
  Z.max (ilog2 (Qabs q) - prec fmt + 1) (emin fmt).

(** [q] rounded to a multiple of its unit in the last place. *)
Definition round_finite (fmt : format) (q : Q) : Q :=
  let e := exponent fmt q in
  Qred (inject_Z (nearest_even (q / pow2 e)) * pow2 e).

Definition negative_q (q : Q) : bool := negb (Qle_bool 0 q).

(** The float nearest to the exact value [q]. *)
Definition round (fmt : format) (q : Q) : t :=
  let r := round_finite fmt q in
  if Qle_bool (pow2 (emax fmt)) (Qabs r) then Infinity (negative_q r)
  else Finite r.

Definition add (fmt : format) (x y : t) : t :=
  match x, y with
  | Nan, _ | _, Nan => Nan
  | Infinity a, Infinity b => if Bool.eqb a b then Infinity a else Nan
  | Infinity a, Finite _ => Infinity a
  | Finite _, Infinity b => Infinity b
  | Finite a, Finite b => round fmt (a + b)
  end.

Definition sub (fmt : format) (x y : t) : t :=
  match x, y with
  | Nan, _ | _, Nan => Nan
  | Infinity a, Infinity b => if Bool.eqb a b then Nan else Infinity a
  | Infinity a, Finite _ => Infinity a
  | Finite _, Infinity b => Infinity (negb b)
  | Finite a, Finite b => round fmt (a - b)
  end.

Definition mul (fmt : format) (x y : t) : t :=
  match x, y with
  | Nan, _ | _, Nan => Nan
  | Infinity a, Infinity b => Infinity (xorb a b)
  | Infinity a, Finite q | Finite q, Infinity a =>
      if Qeq_bool q 0 then Nan else Infinity (xorb a (negative_q q))
  | Finite a, Finite b => round fmt (a * b)
  end.

(** [x / y]: Python raises on a zero divisor, whatever the dividend. *)
Definition div (fmt : format) (x y : t) : result t :=
  match y with
  | Nan => Ok Nan
  | Infinity b =>
      match x with
      | Finite _ => Ok (Finite 0)
      | _ => Ok Nan
      end
  | Finite b =>
      if Qeq_bool b 0 then Raise ZeroDivisionError
      else match x with
           | Nan => Ok Nan
           | Infinity a => Ok (Infinity (xorb a (negative_q b)))
           | Finite a => Ok (round fmt (a / b))
           end
  end.

(** [x < y], [x <= y], [x > y], [x >= y]: false when either is NaN. *)
Definition lt (x y : t) : bool :=
  match x, y with
  | Nan, _ | _, Nan => false
  | Infinity a, Infinity b => a && negb b
  | Infinity a, Finite _ => a
  | Finite _, Infinity b => negb b
  | Finite a, Finite b => match (a ?= b)%Q with Lt => true | _ => false end
  end.

Definition le (x y : t) : bool :=
  match x, y with
  | Nan, _ | _, Nan => false
  | Infinity a, Infinity b => a || negb b
  | Infinity a, Finite _ => a
  | Finite _, Infinity b => negb b
  | Finite a, Finite b => match (a ?= b)%Q with Gt => false | _ => true end
  end.

Definition gt (x y : t) : bool := lt y x.
Definition ge (x y : t) : bool := le y x.

(** The value of a float of the Standard Library's IEEE 754
    specification. *)
Definition of_spec (x : spec_float) : t :=
  match x with
  | S754_zero _ => Finite 0
  | S754_infinity s => Infinity s
  | S754_nan => Nan
  | S754_finite s m e =>
      Finite (Qred ((if s then - 1 else 1) * inject_Z (Zpos m) * pow2 e))
  end.

End ieee.

(* ===================================================================== *)
(** ** lib/drivers/sensors.py: the pressure mapping in machine arithmetic *)

Module sensors_fp.

(** A decimal literal of config.py as the float it denotes. *)
Definition literal (fmt : ieee.format) (q : Q) : ieee.t := ieee.round fmt q.

Definition _map_voltage_to_kgcm2 (fmt : ieee.format) (cfg : config.t)
    (v : ieee.t) : result ieee.t :=
  let V_MIN := literal fmt (config.PRESSURE_V_PIN_MIN cfg) in
  let V_MAX := literal fmt (config.PRESSURE_V_PIN_MAX cfg) in
  let P_MIN := literal fmt (config.PRESSURE_P_MIN_KGCM2 cfg) in
  let P_MAX := literal fmt (config.PRESSURE_P_MAX_KGCM2 cfg) in
  let span_v := ieee.sub fmt V_MAX V_MIN in
  if ieee.le span_v (ieee.Finite 0) then Ok ieee.Nan
  else
    ratio <- ieee.div fmt (ieee.sub fmt v V_MIN) span_v ;;
    let ratio :=
      if ieee.lt ratio (ieee.Finite 0) then ieee.Finite 0
      else if ieee.gt ratio (ieee.Finite 1) then ieee.Finite 1
      else ratio in
    let span_p := ieee.sub fmt P_MAX P_MIN in
    Ok (ieee.add fmt P_MIN (ieee.mul fmt ratio span_p)).

(** The ratio after the two clamping tests. *)
Definition clamped (ratio : ieee.t) : ieee.t :=
  if ieee.lt ratio (ieee.Finite 0) then ieee.Finite 0
  else if ieee.gt ratio (ieee.Finite 1) then ieee.Finite 1
  else ratio.

(** A calibration with the pressure range 0.3 .. 0.9 kg/cm2 in place of
    0.0 .. 2.10. *)
Definition calibration_03_09 : config.t := {|
  config.APP_MAX_PRESSURE_KGCM2 := config.APP_MAX_PRESSURE_KGCM2 config.reference;
  config.APP_MAX_TEMP_C := config.APP_MAX_TEMP_C config.reference;
  config.PRESSURE_V_PIN_MIN := config.PRESSURE_V_PIN_MIN config.reference;
  config.PRESSURE_V_PIN_MAX := config.PRESSURE_V_PIN_MAX config.reference;
  config.PRESSURE_P_MIN_KGCM2 := 3 # 10;
  config.PRESSURE_P_MAX_KGCM2 := 9 # 10;
  config.SSR_ACTIVE_HIGH := config.SSR_ACTIVE_HIGH config.reference;
  config.HEAT_ENABLE := config.HEAT_ENABLE config.reference
|}.

End sensors_fp.
(* ===================================================================== *)
(** ** Facts about the float model *)

Lemma flt_Fin (a b : Q) : flt (Fin a) (Fin b) = true <-> (a < b)%Q.
Proof.
  simpl. rewrite Qlt_alt. destruct (a ?= b)%Q; split; congruence.
Qed.

Lemma fle_Fin (a b : Q) : fle (Fin a) (Fin b) = true <-> (a <= b)%Q.
Proof.
  simpl. rewrite Qle_alt. destruct (a ?= b)%Q; split; congruence.
Qed.


Lemma fle_Fin_false (a b : Q) : fle (Fin a) (Fin b) = false <-> (b < a)%Q.
Proof.
  rewrite <- Bool.not_true_iff_false, fle_Fin. split.
  - apply Qnot_le_lt.
  - apply Qlt_not_le.
Qed.

Lemma flt_NaN_l (y : pyfloat) : flt NaN y = false.
Proof. reflexivity. Qed.

Lemma flt_NaN_r (x : pyfloat) : flt x NaN = false.
Proof. destruct x; reflexivity. Qed.

Lemma fle_NaN_l (y : pyfloat) : fle NaN y = false.
Proof. reflexivity. Qed.

Lemma fle_NaN_r (x : pyfloat) : fle x NaN = false.
Proof. destruct x; reflexivity. Qed.

Lemma fdiv_Fin (a b : Q) :
  ~ (b == 0)%Q -> fdiv (Fin a) (Fin b) = Ok (Fin (a / b)).
Proof.
  intros Hb. unfold fdiv.
  destruct (Qeq_bool b 0) eqn:E; [|reflexivity].
  apply Qeq_bool_iff in E. contradiction.
Qed.

Lemma land_pow2_eqb (a k : Z) :
  0 <= k -> (Z.land a (2 ^ k) =? 0) = negb (Z.testbit a k).
Proof.
  intros Hk.
  destruct (Z.testbit a k) eqn:Hb; simpl.
  - apply Z.eqb_neq. intros H0.
    apply (f_equal (fun z => Z.testbit z k)) in H0.
    rewrite Z.land_spec, Hb, Z.pow2_bits_true, Z.bits_0 in H0 by lia.
    discriminate.
  - apply Z.eqb_eq. apply Z.bits_inj'. intros n Hn.
    rewrite Z.land_spec, Z.bits_0.
    destruct (Z.eq_dec n k) as [->|Hne].
    + rewrite Hb. reflexivity.
    + rewrite (Z.pow2_bits_false k n) by lia. apply Bool.andb_false_r.
Qed.

Lemma land_bit16 (raw : Z) :
  (Z.land raw 0x00010000 =? 0) = negb (Z.testbit raw 16).
Proof. apply (land_pow2_eqb raw 16). lia. Qed.

Lemma field_range (raw : Z) : 0 <= tc_spec.field raw < 2 ^ 14.
Proof.
  unfold tc_spec.field. rewrite Z.land_ones by lia.
  apply Z.mod_pos_bound. lia.
Qed.

Lemma field_bit13 (raw : Z) :
  Z.testbit (tc_spec.field raw) 13 = Z.testbit raw 31.
Proof.
  unfold tc_spec.field.
  rewrite Z.land_spec, Z.shiftr_spec by lia.
  rewrite Z.ones_spec_low by lia. apply Bool.andb_true_r.
Qed.

Lemma land_bit13 (f : Z) :
  (Z.land f 0x2000 =? 0) = negb (Z.testbit f 13).
Proof. apply (land_pow2_eqb f 13). lia. Qed.

Lemma bit13_high (f : Z) :
  0 <= f < 2 ^ 14 -> Z.testbit f 13 = true -> 2 ^ 13 <= f.
Proof.
  intros Hr Hb.
  destruct (Z_lt_le_dec f (2 ^ 13)) as [Hlt|Hge]; [|exact Hge].
  rewrite <- (Z.mod_small f (2 ^ 13)) in Hb by lia.
  rewrite Z.mod_pow2_bits_high in Hb by lia. discriminate.
Qed.

Lemma lor_C000 (f : Z) : 0 <= f < 2 ^ 14 -> Z.lor f 0xC000 = f + 0xC000.
Proof.
  intros Hr.
  assert (Hland : Z.land f 0xC000 = 0).
  { apply Z.bits_inj'. intros n Hn.
    rewrite Z.land_spec, Z.bits_0.
    destruct (Z_lt_le_dec n 14) as [Hlt|Hge].
    - change 0xC000 with (Z.shiftl 3 14).
      rewrite Z.shiftl_spec_low by lia. apply Bool.andb_false_r.
    - rewrite <- (Z.mod_small f (2 ^ 14)) by lia.
      rewrite Z.mod_pow2_bits_high by lia. reflexivity. }
  pose proof (Z.add_lor_land f 0xC000) as H. rewrite Hland in H. lia.
Qed.

(* ===================================================================== *)
(** ** The embedding on concrete inputs *)

Example decode_zero_word :
  sensors._decode_tc_c_from_raw 0 = Fin (inject_Z 0 * (1 # 4)).
Proof. reflexivity. Qed.

Example decode_80_degrees :
  sensors._decode_tc_c_from_raw 0x05000000 = Fin (inject_Z 320 * (1 # 4)).
Proof. reflexivity. Qed.

Example decode_fault_word :
  sensors._decode_tc_c_from_raw 0x05010000 = NaN.
Proof. reflexivity. Qed.

Example map_voltage_zero_span :
  sensors._map_voltage_to_kgcm2
    {| config.APP_MAX_PRESSURE_KGCM2 := 141 # 100;
       config.APP_MAX_TEMP_C := 125;
       config.PRESSURE_V_PIN_MIN := 1;
       config.PRESSURE_V_PIN_MAX := 1;
       config.PRESSURE_P_MIN_KGCM2 := 0;
       config.PRESSURE_P_MAX_KGCM2 := 210 # 100;
       config.SSR_ACTIVE_HIGH := true;
       config.HEAT_ENABLE := false |} (Fin 2) = Ok NaN.
Proof. reflexivity. Qed.

Example gate_80_degrees_half_bar :
  brain.pressure_gate config.reference (Some (Fin (1 # 2)))
    (brain.temperature_gate config.reference (Some (Fin 80))) = true.
Proof. reflexivity. Qed.

Example gate_at_pressure_ceiling :
  brain.pressure_gate config.reference (Some (Fin (141 # 100)))
    (brain.temperature_gate config.reference (Some (Fin 80))) = false.
Proof. reflexivity. Qed.

Example desktop_step_once :
  exists w',
    brain.step_once (config.with_HEAT_ENABLE true config.reference)
      {| brain.st := brain.initial;
         brain.ctl := scenario.control_off;
         brain.sens := sensors.initial;
         brain.hw :=
           {| hw_esp32._REAL_HW := false;
              hw_esp32._ssr_pin := None;
              hw_esp32._motor_fwd_pin := None;
              hw_esp32._motor_rev_pin := None;
              hw_esp32._pressure_adc := None;
              hw_esp32._tc_spi := None;
              hw_esp32._tc_cs := None;
              hw_esp32.clock := fun _ => 0;
              hw_esp32.reads := 0 |} |} = Ok w' /\
    brain.get_allow_heat w' = true /\
    brain.get_ssr_state w' = true.
Proof. eexists. repeat split. Qed.

Example jog_starts_extend :
  actuator.st (actuator.jog_fwd scenario.actuator_idle) =
  {| actuator._state := "EXTEND"; actuator._dir := 1;
     actuator._until_ms := Some 10000 |}.
Proof. reflexivity. Qed.

(* ===================================================================== *)
(** ** Thermocouple decoding (sensors._decode_tc_c_from_raw) *)

Lemma decode_unfold (raw : Z) :
  sensors._decode_tc_c_from_raw raw =
  if Z.testbit raw 16 then NaN
  else
    let f := tc_spec.field raw in
    Fin (inject_Z (if Z.testbit raw 31 then Z.lor f 0xC000 else f) * (1 # 4)).
Proof.
  unfold sensors._decode_tc_c_from_raw, truthy.
  change 0x3FFF with (Z.ones 14). fold (tc_spec.field raw).
  rewrite land_bit16, land_bit13, field_bit13, !Bool.negb_involutive.
  destruct (Z.testbit raw 16); [reflexivity|].
  destruct (Z.testbit raw 31); reflexivity.
Qed.

(** C7: a thermocouple word with the composite fault bit (bit 16) set
    decodes to the NaN sentinel, whatever its temperature field holds. *)
Theorem decode_tc_fault_is_nan (raw : Z) :
  Z.testbit raw 16 = true ->
  sensors._decode_tc_c_from_raw raw = NaN.
Proof.
  intros Hfault. rewrite decode_unfold, Hfault. reflexivity.
Qed.

Lemma decode_tc_fault_is_nan_witness :
  Z.testbit 0xFFFD0000 16 = true /\
  sensors._decode_tc_c_from_raw 0xFFFD0000 = NaN.
Proof.
  split; [reflexivity | apply decode_tc_fault_is_nan; reflexivity].
Defined.

(** Without a fault and with the sign bit clear the code agrees with the
    documented decoding. *)
Lemma decode_tc_nonnegative_field (raw : Z) :
  Z.testbit raw 16 = false ->
  Z.testbit raw 31 = false ->
  sensors._decode_tc_c_from_raw raw = tc_spec.decode raw.
Proof.
  intros Hfault Hsign.
  rewrite decode_unfold. unfold tc_spec.decode. rewrite Hfault, Hsign.
  cbv zeta. unfold tc_spec.signed14.
  pose proof (field_range raw) as Hr.
  destruct (Z.ltb_spec (tc_spec.field raw) (2 ^ 13)) as [_|Hge]; [reflexivity|].
  exfalso.
  assert (Hb : Z.testbit (tc_spec.field raw) 13 = true).
  { apply Z.testbit_true; [lia|].
    assert (Hd : tc_spec.field raw / 2 ^ 13 = 1).
    { symmetry.
      apply Z.div_unique with (r := tc_spec.field raw - 2 ^ 13); lia. }
    rewrite Hd. reflexivity. }
  rewrite field_bit13, Hsign in Hb. discriminate.
Qed.

(** C3: for a word with no fault and the sign bit of the field set, the
    code ORs 0xC000 into the field and scales the resulting non-negative
    integer: the value returned is the sign-extended value plus 65536
    counts, that is 16384 degrees above the documented negative
    temperature, and it is never negative. *)
Theorem decode_tc_sign_bit_not_extended (raw : Z) :
  Z.testbit raw 16 = false ->
  Z.testbit raw 31 = true ->
  sensors._decode_tc_c_from_raw raw =
    Fin (inject_Z (tc_spec.signed14 (tc_spec.field raw) + 65536) * (1 # 4)) /\
  tc_spec.decode raw =
    Fin (inject_Z (tc_spec.signed14 (tc_spec.field raw)) * (1 # 4)) /\
  tc_spec.signed14 (tc_spec.field raw) < 0 /\
  0 < tc_spec.signed14 (tc_spec.field raw) + 65536.
Proof.
  intros Hfault Hsign.
  pose proof (field_range raw) as Hr.
  assert (Hhigh : 2 ^ 13 <= tc_spec.field raw).
  { apply bit13_high; [exact Hr|]. rewrite field_bit13. exact Hsign. }
  assert (Hs : tc_spec.signed14 (tc_spec.field raw) = tc_spec.field raw - 2 ^ 14).
  { unfold tc_spec.signed14.
    destruct (Z.ltb_spec (tc_spec.field raw) (2 ^ 13)); [lia|reflexivity]. }
  repeat split.
  - rewrite decode_unfold, Hfault, Hsign. cbv zeta.
    rewrite lor_C000 by exact Hr. rewrite Hs.
    replace (tc_spec.field raw - 2 ^ 14 + 65536)
      with (tc_spec.field raw + 0xC000) by lia.
    reflexivity.
  - unfold tc_spec.decode. rewrite Hfault. reflexivity.
  - rewrite Hs. lia.
  - rewrite Hs. lia.
Qed.

Lemma decode_tc_sign_bit_not_extended_witness :
  sensors._decode_tc_c_from_raw 0xFFFC0000 = Fin (inject_Z 65535 * (1 # 4)) /\
  tc_spec.decode 0xFFFC0000 = Fin (inject_Z (-1) * (1 # 4)).
Proof.
  destruct (decode_tc_sign_bit_not_extended 0xFFFC0000 eq_refl eq_refl)
    as (Hcode & Hspec & _ & _).
  split; [exact Hcode | exact Hspec].
Defined.

(* ===================================================================== *)
(** ** Pressure mapping in exact arithmetic
       (sensors._map_voltage_to_kgcm2) *)

Section PressureMapping.

Variable cfg : config.t.

Let vmin := config.PRESSURE_V_PIN_MIN cfg.
Let vmax := config.PRESSURE_V_PIN_MAX cfg.
Let pmin := config.PRESSURE_P_MIN_KGCM2 cfg.
Let pmax := config.PRESSURE_P_MAX_KGCM2 cfg.

Hypothesis span_pos : (0 < vmax - vmin)%Q.



End PressureMapping.

(** The mapping never raises: the span guard keeps zero away from the
    division. *)
Lemma map_voltage_total (cfg : config.t) (v : pyfloat) :
  exists r, sensors._map_voltage_to_kgcm2 cfg v = Ok r.
Proof.
  unfold sensors._map_voltage_to_kgcm2. cbn [fsub].
  set (span := (config.PRESSURE_V_PIN_MAX cfg - config.PRESSURE_V_PIN_MIN cfg)%Q).
  destruct (fle (Fin span) (Fin 0)) eqn:Eg; [eexists; reflexivity|].
  apply fle_Fin_false in Eg.
  assert (Hnz : ~ (span == 0)%Q).
  { intros H0. rewrite H0 in Eg. discriminate. }
  destruct v as [|q]; cbn [fsub].
  - unfold fdiv. destruct (Qeq_bool span 0) eqn:E.
    + apply Qeq_bool_iff in E. contradiction.
    + eexists; reflexivity.
  - rewrite fdiv_Fin by exact Hnz. eexists; reflexivity.
Qed.

Lemma read_pressure_volts_total (h : hw_esp32.state) :
  exists v, hw_esp32.read_pressure_volts h = Ok v.
Proof.
  unfold hw_esp32.read_pressure_volts.
  destruct (hw_esp32._pressure_adc h) as [[raw|]|]; eexists; reflexivity.
Qed.

Lemma read_pressure_kgcm2_total (cfg : config.t)
    (s : sensors.state) (h : hw_esp32.state) :
  exists p, sensors.read_pressure_kgcm2 cfg s h = Ok p.
Proof.
  unfold sensors.read_pressure_kgcm2.
  destruct (negb (hw_esp32.on_real_hw h)); [eexists; reflexivity|].
  destruct (read_pressure_volts_total h) as [v ->]. cbn [bind].
  destruct v as [v|]; [apply map_voltage_total | eexists; reflexivity].
Qed.

(** Without an ADC the sensor layer reports the NaN sentinel. *)
Lemma read_pressure_without_adc (cfg : config.t)
    (s : sensors.state) (h : hw_esp32.state) :
  hw_esp32.on_real_hw h = true ->
  hw_esp32._pressure_adc h = None ->
  sensors.read_pressure_kgcm2 cfg s h = Ok NaN.
Proof.
  intros Hhw Hadc.
  unfold sensors.read_pressure_kgcm2, hw_esp32.read_pressure_volts.
  rewrite Hhw, Hadc. reflexivity.
Qed.

(* ===================================================================== *)
(** ** Safety gate (brain.step_once) *)

Lemma decide_allow_heat (cfg : config.t) (t_c p_kg : option pyfloat)
    (w : brain.world) :
  brain.get_allow_heat (brain.decide cfg t_c p_kg w) =
  brain.pressure_gate cfg p_kg (brain.temperature_gate cfg t_c).
Proof.
  unfold brain.decide, brain.get_allow_heat.
  destruct (control.set_ssr _ _ _ _). reflexivity.
Qed.

Lemma decide_ssr (cfg : config.t) (t_c p_kg : option pyfloat)
    (w : brain.world) :
  brain.get_ssr_state (brain.decide cfg t_c p_kg w) =
  (if config.HEAT_ENABLE cfg
   then brain.pressure_gate cfg p_kg (brain.temperature_gate cfg t_c)
   else false).
Proof.
  unfold brain.decide, brain.get_ssr_state.
  destruct (control.set_ssr _ _ _ _). reflexivity.
Qed.

Lemma decide_control_ssr (cfg : config.t) (t_c p_kg : option pyfloat)
    (w : brain.world) :
  control.get_ssr (brain.ctl (brain.decide cfg t_c p_kg w)) =
  brain.get_ssr_state (brain.decide cfg t_c p_kg w).
Proof.
  unfold brain.decide, brain.get_ssr_state, control.set_ssr. reflexivity.
Qed.

(** [step_once] always completes: it is the two reads followed by
    [decide] on the values read. *)
Lemma step_once_decide (cfg : config.t) (w : brain.world) :
  exists t p h,
    sensors.read_tc_c (brain.sens w) (brain.hw w) = (t, h) /\
    sensors.read_pressure_kgcm2 cfg (brain.sens w) h = Ok p /\
    brain.step_once cfg w =
      Ok (brain.decide cfg (Some t) (Some p)
            {| brain.st := brain.st w; brain.ctl := brain.ctl w;
               brain.sens := brain.sens w; brain.hw := h |}).
Proof.
  unfold brain.step_once.
  destruct (sensors.read_tc_c (brain.sens w) (brain.hw w)) as [t h].
  destruct (read_pressure_kgcm2_total cfg (brain.sens w) h) as [p Hp].
  exists t, p, h. rewrite Hp. repeat split.
Qed.

(** The readings do not depend on the heat-enable flag. *)
Lemma read_pressure_kgcm2_HEAT_ENABLE (b : bool) (cfg : config.t)
    (s : sensors.state) (h : hw_esp32.state) :
  sensors.read_pressure_kgcm2 (config.with_HEAT_ENABLE b cfg) s h =
  sensors.read_pressure_kgcm2 cfg s h.
Proof. reflexivity. Qed.

Lemma temperature_gate_true_iff (cfg : config.t) (t : Q) :
  brain.temperature_gate cfg (Some (Fin t)) = true <->
  (0 < t /\ t < config.APP_MAX_TEMP_C cfg)%Q.
Proof.
  unfold brain.temperature_gate.
  rewrite <- (flt_Fin 0 t), <- (flt_Fin t (config.APP_MAX_TEMP_C cfg)).
  destruct (flt (Fin 0) (Fin t)),
           (flt (Fin t) (Fin (config.APP_MAX_TEMP_C cfg)));
    simpl; intuition congruence.
Qed.

(** C5: the temperature window, read off [step_once].  When the
    thermocouple reading [step_once] takes is a valid temperature [t]:
    [step_once] returns, the [allow_heat] it records is true only if
    [0 < t < APP_MAX_TEMP_C]; when the pressure reading does not close
    the pressure gate it is true exactly when [0 < t < APP_MAX_TEMP_C];
    and at [t = 0] and at [t = APP_MAX_TEMP_C] it is false whatever the
    pressure, both bounds being strict. *)
Theorem temperature_gate_window (cfg : config.t) (w : brain.world) (t : Q)
    (h : hw_esp32.state) :
  sensors.read_tc_c (brain.sens w) (brain.hw w) = (Fin t, h) ->
  exists w' p,
    brain.step_once cfg w = Ok w' /\
    sensors.read_pressure_kgcm2 cfg (brain.sens w) h = Ok p /\
    (brain.get_allow_heat w' = true ->
     (0 < t /\ t < config.APP_MAX_TEMP_C cfg)%Q) /\
    (fge p (Fin (config.APP_MAX_PRESSURE_KGCM2 cfg)) = false ->
     (brain.get_allow_heat w' = true <->
      (0 < t /\ t < config.APP_MAX_TEMP_C cfg)%Q)) /\
    ((t == 0 \/ t == config.APP_MAX_TEMP_C cfg)%Q ->
     brain.get_allow_heat w' = false).
Proof.
  intros Hread.
  destruct (step_once_decide cfg w) as (t' & p & h' & Ht & Hp & Hstep).
  rewrite Hread in Ht. injection Ht as <- <-.
  eexists. exists p.
  split; [exact Hstep|]. split; [exact Hp|].
  rewrite decide_allow_heat.
  pose proof (temperature_gate_true_iff cfg t) as Hgate.
  unfold brain.pressure_gate.
  destruct (fge p (Fin (config.APP_MAX_PRESSURE_KGCM2 cfg))).
  - split; [discriminate|]. split; [discriminate|]. reflexivity.
  - split; [apply Hgate|]. split; [intros _; exact Hgate|].
    intros Hb.
    destruct (brain.temperature_gate cfg (Some (Fin t))); [|reflexivity].
    destruct (proj1 Hgate eq_refl) as [H0 Hmax].
    destruct Hb as [Hb|Hb]; rewrite Hb in *;
      [apply Qlt_irrefl in H0 | apply Qlt_irrefl in Hmax]; contradiction.
Qed.

(** On the board with the thermocouple at 80.0 degrees and no pressure
    ADC, [step_once] records [allow_heat = True]: 80 is inside the
    window. *)
Lemma temperature_gate_window_witness :
  exists w',
    brain.step_once config.reference scenario.brain_no_adc = Ok w' /\
    brain.get_allow_heat w' = true.
Proof.
  destruct (temperature_gate_window config.reference scenario.brain_no_adc
              (inject_Z 320 * (1 # 4))
              (hw_esp32.set_tc_cs (Some true)
                 (brain.hw scenario.brain_no_adc)) eq_refl)
    as (w' & p & Hstep & Hp & _ & Hiff & _).
  exists w'. split; [exact Hstep|].
  injection Hp as <-.
  apply (Hiff eq_refl). split; reflexivity.
Defined.

(** An invalid temperature, absent or NaN, is denied by the gate. *)
Lemma temperature_gate_invalid (cfg : config.t) :
  brain.temperature_gate cfg None = false /\
  brain.temperature_gate cfg (Some NaN) = false.
Proof. split; reflexivity. Qed.

(** The part of the fail-closed contract that the code keeps: an absent
    pressure or one at or above the ceiling denies heat. *)
Lemma pressure_gate_closed (cfg : config.t) (allow : bool) (p : Q) :
  brain.pressure_gate cfg None allow = false /\
  ((config.APP_MAX_PRESSURE_KGCM2 cfg <= p)%Q ->
   brain.pressure_gate cfg (Some (Fin p)) allow = false).
Proof.
  split; [reflexivity|].
  intros Hp. unfold brain.pressure_gate, fge.
  rewrite (proj2 (fle_Fin _ _) Hp). reflexivity.
Qed.

(** A NaN pressure passes the pressure gate untouched: [p_kg is None] is
    false for it and so is [p_kg >= APP_MAX_PRESSURE_KGCM2]. *)
Lemma pressure_gate_nan (cfg : config.t) (allow : bool) :
  brain.pressure_gate cfg (Some NaN) allow = allow.
Proof. reflexivity. Qed.

(** C1: when the sensor layer reports the NaN sentinel for the pressure
    and the temperature lies inside the window, [step_once] records
    [allow_heat = True], and the heater follows [HEAT_ENABLE]: the
    fail-closed contract is broken for the NaN sentinel. *)
Theorem step_once_nan_pressure_allows_heat (cfg : config.t)
    (w : brain.world) (t : Q) (h : hw_esp32.state) :
  sensors.read_tc_c (brain.sens w) (brain.hw w) = (Fin t, h) ->
  sensors.read_pressure_kgcm2 cfg (brain.sens w) h = Ok NaN ->
  (0 < t /\ t < config.APP_MAX_TEMP_C cfg)%Q ->
  exists w',
    brain.step_once cfg w = Ok w' /\
    brain.get_allow_heat w' = true /\
    brain.get_ssr_state w' = config.HEAT_ENABLE cfg.
Proof.
  intros Ht Hp Hwin.
  unfold brain.step_once. rewrite Ht, Hp. cbn [bind].
  eexists. split; [reflexivity|].
  rewrite decide_allow_heat, decide_ssr, pressure_gate_nan.
  rewrite (proj2 (temperature_gate_true_iff cfg t) Hwin).
  destruct (config.HEAT_ENABLE cfg); split; reflexivity.
Qed.

Lemma step_once_nan_pressure_allows_heat_witness :
  exists w',
    brain.step_once config.reference scenario.brain_no_adc = Ok w' /\
    brain.get_allow_heat w' = true /\
    brain.get_ssr_state w' = false.
Proof.
  apply (step_once_nan_pressure_allows_heat config.reference
           scenario.brain_no_adc (inject_Z 320 * (1 # 4))
           (hw_esp32.set_tc_cs (Some true) (brain.hw scenario.brain_no_adc))).
  - reflexivity.
  - reflexivity.
  - split; reflexivity.
Defined.

(** C6: the heater command is [allow_heat and HEAT_ENABLE], for the
    decision on any pair of readings and for [step_once] as a whole; it
    is what the control layer is given; with [HEAT_ENABLE] false it is
    off; and the recorded [allow_heat] is the same whatever the flag. *)
Theorem heater_is_allow_and_enable (cfg : config.t) (w : brain.world) :
  (forall t_c p_kg,
     let w' := brain.decide cfg t_c p_kg w in
     brain.get_ssr_state w' =
       brain.get_allow_heat w' && config.HEAT_ENABLE cfg /\
     control.get_ssr (brain.ctl w') = brain.get_ssr_state w') /\
  (exists w',
     brain.step_once cfg w = Ok w' /\
     brain.get_ssr_state w' =
       brain.get_allow_heat w' && config.HEAT_ENABLE cfg /\
     control.get_ssr (brain.ctl w') = brain.get_ssr_state w' /\
     forall b, exists wb,
       brain.step_once (config.with_HEAT_ENABLE b cfg) w = Ok wb /\
       brain.get_allow_heat wb = brain.get_allow_heat w' /\
       brain.get_ssr_state wb = brain.get_allow_heat w' && b).
Proof.
  assert (Hd : forall c t_c p_kg w0,
             brain.get_ssr_state (brain.decide c t_c p_kg w0) =
             brain.get_allow_heat (brain.decide c t_c p_kg w0)
               && config.HEAT_ENABLE c).
  { intros c t_c p_kg w0. rewrite decide_ssr, decide_allow_heat.
    destruct (config.HEAT_ENABLE c);
      [rewrite Bool.andb_true_r | rewrite Bool.andb_false_r]; reflexivity. }
  split.
  - intros t_c p_kg w'. split; [apply Hd | apply decide_control_ssr].
  - destruct (step_once_decide cfg w) as (t & p & h & Ht & Hp & Hs).
    eexists. split; [exact Hs|].
    split; [apply Hd|].
    split; [apply decide_control_ssr|].
    intros b. eexists. split.
    + unfold brain.step_once. rewrite Ht.
      rewrite read_pressure_kgcm2_HEAT_ENABLE, Hp. reflexivity.
    + split.
      * rewrite !decide_allow_heat. reflexivity.
      * rewrite Hd, !decide_allow_heat. reflexivity.
Qed.

(* ===================================================================== *)
(** ** Actuator state machine (actuator.py) *)

Lemma set_motor_clock (f r : bool) (c : control.state) (h : hw_esp32.state) :
  hw_esp32.clock (snd (control.set_motor f r c h)) = hw_esp32.clock h /\
  hw_esp32.reads (snd (control.set_motor f r c h)) = hw_esp32.reads h.
Proof.
  unfold control.set_motor, hw_esp32.write_motor.
  destruct f, r;
    destruct (hw_esp32._motor_fwd_pin h), (hw_esp32._motor_rev_pin h);
    split; reflexivity.
Qed.

Lemma set_motor_dir (f r : bool) (c : control.state) (h : hw_esp32.state) :
  control._motor_dir (fst (control.set_motor f r c h)) =
  if f && r then 0 else if f then 1 else if r then -1 else 0.
Proof.
  unfold control.set_motor. destruct f, r; reflexivity.
Qed.

(** [_start_phase] with one of the three direction signs the code uses. *)
Lemma start_phase_at (clk : nat -> Z) (r : nat) (s : string) (d dur : Z)
    (w : actuator.world) :
  d = 1 \/ d = 0 \/ d = -1 ->
  hw_esp32.clock (actuator.hw w) = clk ->
  hw_esp32.reads (actuator.hw w) = r ->
  actuator.at_phase clk s d (Some (clk r + Z.max dur 0)) (S r)
    (actuator._start_phase s d dur w).
Proof.
  intros Hd Hclk Hr. unfold actuator._start_phase, control.stop_motor.
  destruct Hd as [ -> | [ -> | -> ] ]; cbn [Z.gtb Z.ltb Z.compare];
    match goal with
    | |- context [control.set_motor ?f ?r ?c ?h] =>
        pose proof (set_motor_clock f r c h) as [Hc Hn];
        pose proof (set_motor_dir f r c h) as Hm;
        destruct (control.set_motor f r c h) as [c' h']
    end;
    cbn [fst snd] in *; unfold hw_esp32.ticks_ms;
    unfold actuator.at_phase; cbn;
    rewrite Hc, Hn, Hclk, Hr; repeat split; assumption.
Qed.

Lemma jog_from_idle (clk : nat -> Z) (r : nat) (w : actuator.world) :
  actuator._state (actuator.st w) = "IDLE"%string ->
  hw_esp32.clock (actuator.hw w) = clk ->
  hw_esp32.reads (actuator.hw w) = r ->
  actuator.at_phase clk "EXTEND" 1
    (Some (clk r + actuator.AUTO_EXTEND_MS)) (S r) (actuator.jog_fwd w) /\
  actuator.jog_rev w = actuator.jog_fwd w.
Proof.
  intros Hs Hclk Hr. split; [|reflexivity].
  unfold actuator.jog_fwd, actuator._start_auto_cycle. rewrite Hs.
  cbn [String.eqb Ascii.eqb Bool.eqb negb].
  apply (start_phase_at clk r "EXTEND" 1 actuator.AUTO_EXTEND_MS w);
    auto.
Qed.

(** A poll before the deadline only consumes a clock reading. *)
Lemma step_pending (clk : nat -> Z) (s : string) (d u : Z) (r : nat)
    (w : actuator.world) :
  actuator.at_phase clk s d (Some u) r w ->
  s <> "IDLE"%string ->
  clk r < u ->
  actuator.at_phase clk s d (Some u) (S r) (actuator.step w).
Proof.
  intros (Hst & Hm & Hclk & Hr) Hs Hlt.
  unfold actuator.step. rewrite Hst. cbn [actuator._until_ms actuator._state].
  apply String.eqb_neq in Hs. rewrite Hs.
  unfold hw_esp32.ticks_ms. rewrite Hclk, Hr.
  destruct (Z.ltb_spec (clk r - u) 0) as [_|Hge]; [|lia].
  unfold actuator.at_phase. cbn. repeat split; assumption.
Qed.

Lemma steps_pending (clk : nat -> Z) (s : string) (d u : Z) (n r : nat)
    (w : actuator.world) :
  actuator.at_phase clk s d (Some u) r w ->
  s <> "IDLE"%string ->
  (forall i, (r <= i < r + n)%nat -> clk i < u) ->
  actuator.at_phase clk s d (Some u) (r + n) (actuator.steps n w).
Proof.
  revert r w. induction n as [|n IH]; intros r w Hw Hs Hlt.
  - rewrite Nat.add_0_r. exact Hw.
  - cbn [actuator.steps]. rewrite <- Nat.add_succ_comm.
    apply IH; [|exact Hs|].
    + apply step_pending; [exact Hw|exact Hs|]. apply Hlt. lia.
    + intros i Hi. apply Hlt. lia.
Qed.

(** A poll at or after the deadline performs the phase's exit action. *)
Lemma step_extend_done (clk : nat -> Z) (d u : Z) (r : nat)
    (w : actuator.world) :
  actuator.at_phase clk "EXTEND" d (Some u) r w ->
  u <= clk r ->
  actuator.at_phase clk "WAIT" 0
    (Some (clk (S r) + actuator.AUTO_WAIT_MS)) (S (S r)) (actuator.step w).
Proof.
  intros (Hst & Hm & Hclk & Hr) Hge.
  unfold actuator.step. rewrite Hst. cbn [actuator._until_ms actuator._state].
  cbn [String.eqb Ascii.eqb Bool.eqb].
  unfold hw_esp32.ticks_ms. rewrite Hclk, Hr.
  destruct (Z.ltb_spec (clk r - u) 0) as [Hlt|_]; [lia|].
  apply (start_phase_at clk (S r) "WAIT" 0 actuator.AUTO_WAIT_MS); auto.
Qed.

Lemma step_wait_done (clk : nat -> Z) (d u : Z) (r : nat)
    (w : actuator.world) :
  actuator.at_phase clk "WAIT" d (Some u) r w ->
  u <= clk r ->
  actuator.at_phase clk "RETRACT" (-1)
    (Some (clk (S r) + actuator.AUTO_RETRACT_MS)) (S (S r)) (actuator.step w).
Proof.
  intros (Hst & Hm & Hclk & Hr) Hge.
  unfold actuator.step. rewrite Hst. cbn [actuator._until_ms actuator._state].
  cbn [String.eqb Ascii.eqb Bool.eqb].
  unfold hw_esp32.ticks_ms. rewrite Hclk, Hr.
  destruct (Z.ltb_spec (clk r - u) 0) as [Hlt|_]; [lia|].
  apply (start_phase_at clk (S r) "RETRACT" (-1) actuator.AUTO_RETRACT_MS);
    auto.
Qed.

Lemma to_idle_at (clk : nat -> Z) (r : nat) (w : actuator.world) :
  hw_esp32.clock (actuator.hw w) = clk ->
  hw_esp32.reads (actuator.hw w) = r ->
  actuator.at_phase clk "IDLE" 0 None r (actuator.to_idle w).
Proof.
  intros Hclk Hr. unfold actuator.to_idle, control.stop_motor.
  pose proof (set_motor_clock false false (actuator.ctl w) (actuator.hw w))
    as [Hc Hn].
  pose proof (set_motor_dir false false (actuator.ctl w) (actuator.hw w))
    as Hm.
  destruct (control.set_motor false false (actuator.ctl w) (actuator.hw w))
    as [c' h'].
  cbn [fst snd] in *. unfold actuator.at_phase. cbn.
  rewrite Hc, Hn. repeat split; assumption.
Qed.

Lemma step_retract_done (clk : nat -> Z) (d u : Z) (r : nat)
    (w : actuator.world) :
  actuator.at_phase clk "RETRACT" d (Some u) r w ->
  u <= clk r ->
  actuator.at_phase clk "IDLE" 0 None (S r) (actuator.step w).
Proof.
  intros (Hst & Hm & Hclk & Hr) Hge.
  unfold actuator.step. rewrite Hst. cbn [actuator._until_ms actuator._state].
  cbn [String.eqb Ascii.eqb Bool.eqb].
  unfold hw_esp32.ticks_ms. rewrite Hclk, Hr.
  destruct (Z.ltb_spec (clk r - u) 0) as [Hlt|_]; [lia|].
  apply to_idle_at; [exact Hclk | reflexivity].
Qed.

Lemma step_idle (w : actuator.world) :
  actuator._state (actuator.st w) = "IDLE"%string ->
  actuator.step w = w.
Proof.
  intros Hs. unfold actuator.step. rewrite Hs.
  destruct (actuator._until_ms (actuator.st w)); reflexivity.
Qed.

Lemma steps_idle (n : nat) (w : actuator.world) :
  actuator._state (actuator.st w) = "IDLE"%string ->
  actuator.steps n w = w.
Proof.
  intros Hs. induction n as [|n IH]; [reflexivity|].
  cbn [actuator.steps]. rewrite step_idle by exact Hs. exact IH.
Qed.

Lemma steps_add (n m : nat) (w : actuator.world) :
  actuator.steps (n + m) w = actuator.steps m (actuator.steps n w).
Proof.
  revert w. induction n as [|n IH]; intros w; [reflexivity|].
  cbn [Nat.add actuator.steps]. apply IH.
Qed.

(** C9: outside IDLE both jog entry points return the machine as it
    was: phase, direction and deadline, the control layer, the pins and
    the clock are untouched, so no motor command is issued. *)
Theorem jog_dropped_while_cycle_runs (w : actuator.world) :
  actuator._state (actuator.st w) <> "IDLE"%string ->
  actuator.jog_fwd w = w /\ actuator.jog_rev w = w.
Proof.
  intros Hs. apply String.eqb_neq in Hs.
  unfold actuator.jog_fwd, actuator.jog_rev, actuator._start_auto_cycle.
  rewrite Hs. split; reflexivity.
Qed.

Lemma jog_dropped_while_cycle_runs_witness :
  actuator.jog_fwd (actuator.jog_fwd scenario.actuator_idle)
    = actuator.jog_fwd scenario.actuator_idle /\
  actuator.jog_rev (actuator.jog_fwd scenario.actuator_idle)
    = actuator.jog_fwd scenario.actuator_idle.
Proof.
  apply (jog_dropped_while_cycle_runs
           (actuator.jog_fwd scenario.actuator_idle)).
  discriminate.
Defined.

Lemma at_phase_in_phase (clk : nat -> Z) (s : string) (d : Z)
    (u : option Z) (r : nat) (w : actuator.world) :
  actuator.at_phase clk s d u r w -> actuator.in_phase s d w.
Proof.
  intros (Hst & Hm & _ & _).
  unfold actuator.in_phase, actuator.get_dir, control.get_motor_dir.
  rewrite Hst. repeat split. exact Hm.
Qed.

Lemma at_phase_eq (clk : nat -> Z) (s : string) (d u u' : Z) (r r' : nat)
    (w : actuator.world) :
  actuator.at_phase clk s d (Some u) r w ->
  u = u' -> r = r' ->
  actuator.at_phase clk s d (Some u') r' w.
Proof. intros Hw -> ->. exact Hw. Qed.

(** While every reading stays below the deadline the machine stays in
    its phase. *)
Lemma phase_holds (clk : nat -> Z) (s : string) (d u : Z) (n r : nat)
    (w : actuator.world) :
  actuator.at_phase clk s d (Some u) r w ->
  s <> "IDLE"%string ->
  (forall i, (r <= i < r + n)%nat -> clk i < u) ->
  forall j, (j <= n)%nat ->
    actuator.at_phase clk s d (Some u) (r + j) (actuator.steps j w).
Proof.
  intros Hw Hs Hlt j Hj.
  apply steps_pending; [exact Hw|exact Hs|].
  intros i Hi. apply Hlt. lia.
Qed.

Lemma steps_succ (n : nat) (w : actuator.world) :
  actuator.steps (S n) w = actuator.step (actuator.steps n w).
Proof.
  replace (S n) with (n + 1)%nat by lia. rewrite steps_add. reflexivity.
Qed.

(** Without a wrap of the tick counter the cycle runs as documented:
    from IDLE, a jog trigger (either entry point) followed by polls -- any
    number of them before each deadline, then one whose reading is at or
    after it as an integer -- takes the
    actuator through EXTEND with direction +1, WAIT with 0, RETRACT with
    -1 and back to IDLE with 0, where it stays; no other phase occurs.
    [k], [k2] and [k3] index the clock readings taken when the three
    timed phases start. *)
Theorem full_cycle_sequence (w0 : actuator.world) (n1 n2 n3 : nat) :
  let clk := hw_esp32.clock (actuator.hw w0) in
  let k := hw_esp32.reads (actuator.hw w0) in
  let k2 := (k + n1 + 2)%nat in
  let k3 := (k2 + n2 + 2)%nat in
  let d1 := clk k + actuator.AUTO_EXTEND_MS in
  let d2 := clk k2 + actuator.AUTO_WAIT_MS in
  let d3 := clk k3 + actuator.AUTO_RETRACT_MS in
  actuator._state (actuator.st w0) = "IDLE"%string ->
  (forall i, (k < i <= k + n1)%nat -> clk i < d1) ->
  d1 <= clk (k + n1 + 1)%nat ->
  (forall i, (k2 < i <= k2 + n2)%nat -> clk i < d2) ->
  d2 <= clk (k2 + n2 + 1)%nat ->
  (forall i, (k3 < i <= k3 + n3)%nat -> clk i < d3) ->
  d3 <= clk (k3 + n3 + 1)%nat ->
  let w1 := actuator.jog_fwd w0 in
  let w2 := actuator.steps (S n1) w1 in
  let w3 := actuator.steps (S n2) w2 in
  let w4 := actuator.steps (S n3) w3 in
  (forall j, (j <= n1)%nat ->
     actuator.in_phase "EXTEND" 1 (actuator.steps j w1)) /\
  (forall j, (j <= n2)%nat ->
     actuator.in_phase "WAIT" 0 (actuator.steps j w2)) /\
  (forall j, (j <= n3)%nat ->
     actuator.in_phase "RETRACT" (-1) (actuator.steps j w3)) /\
  (forall j, actuator.in_phase "IDLE" 0 (actuator.steps j w4)) /\
  actuator.jog_rev w0 = w1.
Proof.
  intros clk k k2 k3 d1 d2 d3 Hidle Hp1 He1 Hp2 He2 Hp3 He3 w1 w2 w3 w4.
  (* EXTEND *)
  assert (H1 : actuator.at_phase clk "EXTEND" 1 (Some d1) (S k) w1).
  { apply jog_from_idle; auto. }
  assert (S1 : forall j, (j <= n1)%nat ->
             actuator.at_phase clk "EXTEND" 1 (Some d1) (S k + j)
               (actuator.steps j w1)).
  { apply phase_holds; [exact H1|discriminate|].
    intros i Hi. apply Hp1. lia. }
  (* WAIT *)
  assert (H2 : actuator.at_phase clk "WAIT" 0 (Some d2) (S k2) w2).
  { unfold w2. rewrite steps_succ.
    eapply at_phase_eq.
    - eapply step_extend_done; [apply (S1 n1); lia|].
      replace (S k + n1)%nat with (k + n1 + 1)%nat by lia. exact He1.
    - unfold d2, k2. do 2 f_equal. lia.
    - unfold k2. lia. }
  assert (S2 : forall j, (j <= n2)%nat ->
             actuator.at_phase clk "WAIT" 0 (Some d2) (S k2 + j)
               (actuator.steps j w2)).
  { apply phase_holds; [exact H2|discriminate|].
    intros i Hi. apply Hp2. lia. }
  (* RETRACT *)
  assert (H3 : actuator.at_phase clk "RETRACT" (-1) (Some d3) (S k3) w3).
  { unfold w3. rewrite steps_succ.
    eapply at_phase_eq.
    - eapply step_wait_done; [apply (S2 n2); lia|].
      replace (S k2 + n2)%nat with (k2 + n2 + 1)%nat by lia. exact He2.
    - unfold d3, k3. do 2 f_equal. lia.
    - unfold k3. lia. }
  assert (S3 : forall j, (j <= n3)%nat ->
             actuator.at_phase clk "RETRACT" (-1) (Some d3) (S k3 + j)
               (actuator.steps j w3)).
  { apply phase_holds; [exact H3|discriminate|].
    intros i Hi. apply Hp3. lia. }
  (* IDLE *)
  assert (H4 : actuator.at_phase clk "IDLE" 0 None (S (S k3 + n3)) w4).
  { unfold w4. rewrite steps_succ.
    eapply step_retract_done; [apply (S3 n3); lia|].
    replace (S k3 + n3)%nat with (k3 + n3 + 1)%nat by lia. exact He3. }
  split; [|split; [|split; [|split; [|reflexivity]]]].
  - intros j Hj. eapply at_phase_in_phase. apply S1, Hj.
  - intros j Hj. eapply at_phase_in_phase. apply S2, Hj.
  - intros j Hj. eapply at_phase_in_phase. apply S3, Hj.
  - intros j. rewrite steps_idle.
    + eapply at_phase_in_phase. exact H4.
    + destruct H4 as (Hst & _). rewrite Hst. reflexivity.
Qed.

Lemma full_cycle_sequence_witness :
  let w1 := actuator.jog_fwd scenario.actuator_idle in
  let w2 := actuator.steps 2 w1 in
  let w3 := actuator.steps 1 w2 in
  let w4 := actuator.steps 2 w3 in
  actuator.in_phase "EXTEND" 1 (actuator.steps 0 w1) /\
  actuator.in_phase "EXTEND" 1 (actuator.steps 1 w1) /\
  actuator.in_phase "WAIT" 0 (actuator.steps 0 w2) /\
  actuator.in_phase "RETRACT" (-1) (actuator.steps 0 w3) /\
  actuator.in_phase "RETRACT" (-1) (actuator.steps 1 w3) /\
  actuator.in_phase "IDLE" 0 (actuator.steps 0 w4) /\
  actuator.in_phase "IDLE" 0 (actuator.steps 1 w4).
Proof.
  assert (Hone : forall (k : nat) (P : nat -> Prop),
            P (S k) -> forall i, (k < i <= k + 1)%nat -> P i).
  { intros k P HP i Hi. replace i with (S k) by lia. exact HP. }
  destruct (full_cycle_sequence scenario.actuator_idle 1 0 1)
    as (HE & HW & HR & HI & _).
  - reflexivity.
  - apply (Hone 0%nat (fun i => 5000 * Z.of_nat i < 10000)). reflexivity.
  - cbv. discriminate.
  - intros i Hi. cbn in Hi. lia.
  - cbv. discriminate.
  - apply (Hone 5%nat (fun i => 5000 * Z.of_nat i < 35000)). reflexivity.
  - cbv. discriminate.
  - intros w1 w2 w3 w4.
    split; [exact (HE 0%nat (le_S _ _ (le_n _)))|].
    split; [exact (HE 1%nat (le_n _))|].
    split; [exact (HW 0%nat (le_n _))|].
    split; [exact (HR 0%nat (le_S _ _ (le_n _)))|].
    split; [exact (HR 1%nat (le_n _))|].
    split; [exact (HI 0%nat) | exact (HI 1%nat)].
Defined.

(* --------------------------------------------------------------------- *)
(** *** Direction and deadline follow the phase *)

Lemma start_phase_st (s : string) (d dur : Z) (w : actuator.world) :
  exists u,
    actuator.st (actuator._start_phase s d dur w) =
    {| actuator._state := s;
       actuator._dir := if d >? 0 then 1 else if d <? 0 then -1 else 0;
       actuator._until_ms := Some u |}.
Proof.
  unfold actuator._start_phase, control.stop_motor.
  destruct (d >? 0); [|destruct (d <? 0)];
    match goal with
    | |- context [control.set_motor ?f ?r ?c ?h] =>
        destruct (control.set_motor f r c h) as [c' h']
    end;
    eexists; reflexivity.
Qed.

Lemma canonical_invariant (a : actuator.state) :
  actuator.canonical a -> actuator.invariant a.
Proof.
  intros [-> | [[u ->] | [[u ->] | [u ->]]]];
    unfold actuator.invariant; cbn;
    repeat split; intros; try discriminate; try lia; try reflexivity;
    intuition (try discriminate; try lia).
Qed.

Lemma init_canonical (w : actuator.world) :
  actuator.canonical (actuator.st (actuator.init w)).
Proof.
  unfold actuator.init.
  destruct (control.stop_motor (actuator.ctl w) (actuator.hw w)).
  left. reflexivity.
Qed.

Lemma jog_canonical (w : actuator.world) :
  actuator.canonical (actuator.st w) ->
  actuator.canonical (actuator.st (actuator.jog_fwd w)) /\
  actuator.canonical (actuator.st (actuator.jog_rev w)).
Proof.
  intros Hc.
  unfold actuator.jog_rev, actuator.jog_fwd, actuator._start_auto_cycle.
  destruct (negb (actuator._state (actuator.st w) =? "IDLE")%string);
    [split; exact Hc|].
  destruct (start_phase_st "EXTEND" 1 actuator.AUTO_EXTEND_MS w) as [u Hu].
  split; right; left; exists u; exact Hu.
Qed.

Lemma step_canonical (w : actuator.world) :
  actuator.canonical (actuator.st w) ->
  actuator.canonical (actuator.st (actuator.step w)).
Proof.
  intros Hc. pose proof Hc as Hc0.
  destruct Hc as [Hi | [[u Hu] | [[u Hu] | [u Hu]]]].
  - rewrite step_idle; [exact Hc0 | rewrite Hi; reflexivity].
  - unfold actuator.step. rewrite Hu.
    cbn [actuator._until_ms actuator._state String.eqb Ascii.eqb Bool.eqb].
    destruct (hw_esp32.ticks_ms (actuator.hw w)) as [now h].
    destruct (now - u <? 0).
    + right; left; exists u; reflexivity.
    + cbn [actuator.st actuator._state String.eqb Ascii.eqb Bool.eqb].
      match goal with
      | |- context [actuator._start_phase ?s ?d ?dur ?w'] =>
          destruct (start_phase_st s d dur w') as [u' Hu']
      end.
      right; right; left; exists u'; exact Hu'.
  - unfold actuator.step. rewrite Hu.
    cbn [actuator._until_ms actuator._state String.eqb Ascii.eqb Bool.eqb].
    destruct (hw_esp32.ticks_ms (actuator.hw w)) as [now h].
    destruct (now - u <? 0).
    + right; right; left; exists u; reflexivity.
    + cbn [actuator.st actuator._state String.eqb Ascii.eqb Bool.eqb].
      match goal with
      | |- context [actuator._start_phase ?s ?d ?dur ?w'] =>
          destruct (start_phase_st s d dur w') as [u' Hu']
      end.
      right; right; right; exists u'; exact Hu'.
  - unfold actuator.step. rewrite Hu.
    cbn [actuator._until_ms actuator._state String.eqb Ascii.eqb Bool.eqb].
    destruct (hw_esp32.ticks_ms (actuator.hw w)) as [now h].
    destruct (now - u <? 0).
    + right; right; right; exists u; reflexivity.
    + cbn [actuator.st actuator._state String.eqb Ascii.eqb Bool.eqb].
      unfold actuator.to_idle.
      match goal with
      | |- context [control.stop_motor ?c ?h'] =>
          destruct (control.stop_motor c h')
      end.
      left. reflexivity.
Qed.

Lemma exec_canonical (o : actuator.op) (w : actuator.world) :
  actuator.canonical (actuator.st w) ->
  actuator.canonical (actuator.st (actuator.exec o w)).
Proof.
  intros Hc. destruct o; cbn [actuator.exec].
  - apply init_canonical.
  - apply jog_canonical, Hc.
  - apply jog_canonical, Hc.
  - apply step_canonical, Hc.
Qed.

Lemma run_canonical (ops : list actuator.op) (w : actuator.world) :
  actuator.canonical (actuator.st w) ->
  actuator.canonical (actuator.st (actuator.run ops w)).
Proof.
  revert w. induction ops as [|o ops IH]; intros w Hc; [exact Hc|].
  cbn [actuator.run fold_left]. apply IH, exec_canonical, Hc.
Qed.

(** C10: after any sequence of [init], [jog_fwd], [jog_rev] and [step]
    calls from the state at import, under any clock, the direction is
    +1 exactly in EXTEND, -1 exactly in RETRACT and 0 exactly in IDLE or
    WAIT, and the deadline is [None] exactly in IDLE. *)
Theorem direction_and_deadline_follow_phase (c : control.state)
    (h : hw_esp32.state) (ops : list actuator.op) :
  actuator.invariant (actuator.st (actuator.run ops (actuator.at_import c h))).
Proof.
  apply canonical_invariant, run_canonical. left. reflexivity.
Qed.

(* --------------------------------------------------------------------- *)
(** *** The deadline test and a wrapping tick counter *)

(** Just after a counter of any width wraps, the wrap-aware test reports
    a deadline set at the counter's last value as elapsed. *)
Lemma elapsed_spec_after_wrap (width : Z) :
  2 <= width -> clock_spec.elapsed width (2 ^ width - 1) 0 = true.
Proof.
  intros Hw. unfold clock_spec.elapsed, clock_spec.to_signed.
  assert (Hp : 2 ^ width = 2 * 2 ^ (width - 1)).
  { rewrite <- Z.pow_succ_r by lia. f_equal. lia. }
  assert (Hq : 2 ^ 1 <= 2 ^ (width - 1)) by (apply Z.pow_le_mono_r; lia).
  change (2 ^ 1) with 2 in Hq.
  replace (0 - (2 ^ width - 1)) with (1 + (-1) * 2 ^ width) by lia.
  rewrite Z.mod_add by lia.
  rewrite Z.mod_small by lia.
  cbv zeta.
  destruct (Z.ltb_spec 1 (2 ^ (width - 1))); apply Z.leb_le; lia.
Qed.

Lemma to_signed_small (width x : Z) :
  1 <= width ->
  - 2 ^ (width - 1) <= x < 2 ^ (width - 1) ->
  clock_spec.to_signed width x = x.
Proof.
  intros Hw Hx. unfold clock_spec.to_signed.
  assert (Hp : 2 ^ width = 2 * 2 ^ (width - 1)).
  { rewrite <- Z.pow_succ_r by lia. f_equal. lia. }
  destruct (Z_lt_le_dec x 0) as [Hneg|Hpos].
  - assert (Hm : x mod 2 ^ width = x + 2 ^ width).
    { symmetry. apply Z.mod_unique with (q := -1); lia. }
    rewrite Hm. cbv zeta.
    destruct (Z.ltb_spec (x + 2 ^ width) (2 ^ (width - 1))); lia.
  - rewrite Z.mod_small by lia. cbv zeta.
    destruct (Z.ltb_spec x (2 ^ (width - 1))); lia.
Qed.

(** While deadline and reading are less than half the counter's range
    apart as integers, the test in [step] is the wrap-aware one. *)
Lemma step_test_without_wrap (width u now : Z) :
  1 <= width ->
  - 2 ^ (width - 1) <= now - u < 2 ^ (width - 1) ->
  (now - u <? 0) = negb (clock_spec.elapsed width u now).
Proof.
  intros Hw Hx. unfold clock_spec.elapsed.
  rewrite to_signed_small by assumption.
  destruct (Z.ltb_spec (now - u) 0), (Z.leb_spec 0 (now - u));
    try reflexivity; lia.
Qed.

(** C2: [step] compares the unbounded integers [now] and [_until_ms].
    When the tick counter has wrapped, so that [now] is numerically
    below the deadline although the wrap-aware test over the counter's
    width reports the deadline as elapsed, [step] treats the phase as
    still running: phase, direction and deadline stay as they were. *)
Theorem step_waits_after_clock_wrap (width : Z) (clk : nat -> Z)
    (s : string) (d u : Z) (r : nat) (w : actuator.world) :
  actuator.at_phase clk s d (Some u) r w ->
  s <> "IDLE"%string ->
  clk r < u ->
  clock_spec.elapsed width u (clk r) = true ->
  actuator.at_phase clk s d (Some u) (S r) (actuator.step w) /\
  actuator.is_moving (actuator.step w) = true.
Proof.
  intros Hw Hs Hlt _.
  pose proof (step_pending clk s d u r w Hw Hs Hlt) as Hp.
  split; [exact Hp|].
  destruct Hp as (Hst & _). unfold actuator.is_moving. rewrite Hst.
  cbn [actuator._state]. apply String.eqb_neq in Hs. rewrite Hs. reflexivity.
Qed.

Lemma wrapping_clock_below (i : nat) :
  (1 <= i)%nat -> 0 <= scenario.wrapping_clock i < 2 ^ 30.
Proof.
  intros Hi. destruct i as [|i']; [lia|].
  unfold scenario.wrapping_clock. apply Z.mod_pos_bound. lia.
Qed.

Lemma before_wrap_extending :
  actuator.at_phase scenario.wrapping_clock "EXTEND" 1
    (Some (2 ^ 30 + 5000)) 1
    (actuator.jog_fwd scenario.actuator_before_wrap).
Proof.
  apply (at_phase_eq scenario.wrapping_clock "EXTEND" 1
           (scenario.wrapping_clock 0 + actuator.AUTO_EXTEND_MS)
           (2 ^ 30 + 5000) 1 1); [|reflexivity|reflexivity].
  apply (jog_from_idle scenario.wrapping_clock 0
           scenario.actuator_before_wrap); reflexivity.
Qed.

(** A cycle triggered 5 s before a 30-bit tick counter wraps never
    leaves EXTEND: every later reading is below the deadline
    [2 ^ 30 + 5000], so the motor is driven forward for as long as the
    loop polls. *)
Lemma before_wrap_never_stops (n : nat) :
  actuator.at_phase scenario.wrapping_clock "EXTEND" 1
    (Some (2 ^ 30 + 5000)) (1 + n)
    (actuator.steps n (actuator.jog_fwd scenario.actuator_before_wrap)).
Proof.
  apply steps_pending; [exact before_wrap_extending|discriminate|].
  intros i Hi. pose proof (wrapping_clock_below i) as Hb. lia.
Qed.

Lemma step_waits_after_clock_wrap_witness :
  let w := actuator.steps 50
             (actuator.jog_fwd scenario.actuator_before_wrap) in
  scenario.wrapping_clock 51 = 5000 /\
  clock_spec.elapsed 30 (2 ^ 30 + 5000) 5000 = true /\
  actuator.at_phase scenario.wrapping_clock "EXTEND" 1
    (Some (2 ^ 30 + 5000)) 52 (actuator.step w) /\
  actuator.is_moving (actuator.step w) = true.
Proof.
  intros w.
  split; [reflexivity|]. split; [reflexivity|].
  apply (step_waits_after_clock_wrap 30 scenario.wrapping_clock
           "EXTEND" 1 (2 ^ 30 + 5000) 51 w).
  - exact (before_wrap_never_stops 50).
  - discriminate.
  - reflexivity.
  - reflexivity.
Defined.

(** C4: the cycle does not run through when the tick counter wraps
    during EXTEND.  On a counter of [width] bits, a jog from IDLE whose
    deadline [now + AUTO_EXTEND_MS] reaches [2 ^ width] leaves the
    actuator in EXTEND with the motor driven forward after any number of
    polls, however far the clock advances: WAIT, RETRACT and IDLE are
    never reached.  The cause is the deadline test of C2. *)
Theorem cycle_stalls_across_clock_wrap (width : Z) (w0 : actuator.world)
    (n : nat) :
  let clk := hw_esp32.clock (actuator.hw w0) in
  let r := hw_esp32.reads (actuator.hw w0) in
  let deadline := clk r + actuator.AUTO_EXTEND_MS in
  actuator._state (actuator.st w0) = "IDLE"%string ->
  (forall i, (r < i)%nat -> 0 <= clk i < 2 ^ width) ->
  2 ^ width <= deadline ->
  let w := actuator.steps n (actuator.jog_fwd w0) in
  actuator.in_phase "EXTEND" 1 w /\
  actuator._until_ms (actuator.st w) = Some deadline /\
  actuator.is_moving w = true /\
  actuator.steps n (actuator.jog_rev w0) = w.
Proof.
  intros clk r deadline Hidle Hwrap Hlate w.
  destruct (jog_from_idle clk r w0 Hidle eq_refl eq_refl) as [Hjog Hrev].
  assert (Hrun : actuator.at_phase clk "EXTEND" 1 (Some deadline)
                   (S r + n) w).
  { apply steps_pending; [exact Hjog|discriminate|].
    intros i Hi. specialize (Hwrap i). lia. }
  split; [exact (at_phase_in_phase _ _ _ _ _ _ Hrun)|].
  destruct Hrun as (Hst & _).
  split; [rewrite Hst; reflexivity|].
  split; [unfold actuator.is_moving; rewrite Hst; reflexivity|].
  rewrite Hrev. reflexivity.
Qed.

(** Triggered 5 s before a 30-bit counter wraps and polled every 100 ms:
    30 s after the wrap, when the whole 21 s cycle should be over and
    the wrap-aware test reports the deadline as elapsed, the actuator is
    still in EXTEND. *)
Lemma cycle_stalls_across_clock_wrap_witness :
  scenario.wrapping_clock 301 = 30000 /\
  clock_spec.elapsed 30 (2 ^ 30 + 5000) 30000 = true /\
  actuator.in_phase "EXTEND" 1
    (actuator.steps 300 (actuator.jog_fwd scenario.actuator_before_wrap)) /\
  actuator._until_ms
    (actuator.st
       (actuator.steps 300 (actuator.jog_fwd scenario.actuator_before_wrap)))
  = Some (scenario.wrapping_clock 0 + actuator.AUTO_EXTEND_MS).
Proof.
  split; [reflexivity|]. split; [reflexivity|].
  destruct (cycle_stalls_across_clock_wrap 30 scenario.actuator_before_wrap
              300) as (Hphase & Huntil & _).
  - reflexivity.
  - intros i Hi. apply wrapping_clock_below. exact Hi.
  - change (2 ^ 30 <= 2 ^ 30 - 5000 + 10000). lia.
  - split; [exact Hphase|exact Huntil].
Defined.

(* ===================================================================== *)
(** ** Further properties of the sensor layer *)

Lemma field_ext (a b : Z) :
  (forall i, 18 <= i <= 31 -> Z.testbit a i = Z.testbit b i) ->
  tc_spec.field a = tc_spec.field b.
Proof.
  intros H. unfold tc_spec.field. apply Z.bits_inj'. intros n Hn.
  rewrite !Z.land_spec, !Z.shiftr_spec by lia.
  destruct (Z_lt_le_dec n 14) as [Hlt|Hge].
  - rewrite (H (n + 18)) by lia. reflexivity.
  - rewrite Z.ones_spec_high by lia. rewrite !Bool.andb_false_r. reflexivity.
Qed.

(** X1: the decoded temperature depends only on the fault bit (bit 16)
    and the field in bits 31..18: the cold-junction bits, the reserved
    bits and the fault sub-flags never change the result. *)
Theorem decode_tc_ignores_other_bits (a b : Z) :
  (forall i, i = 16 \/ 18 <= i <= 31 -> Z.testbit a i = Z.testbit b i) ->
  sensors._decode_tc_c_from_raw a = sensors._decode_tc_c_from_raw b.
Proof.
  intros H. rewrite !decode_unfold.
  rewrite (H 16) by (left; reflexivity).
  rewrite (H 31) by (right; lia).
  rewrite (field_ext a b) by (intros i Hi; apply H; right; exact Hi).
  reflexivity.
Qed.

Lemma decode_tc_ignores_other_bits_witness :
  sensors._decode_tc_c_from_raw 0x05000000 =
  sensors._decode_tc_c_from_raw 0x0502FFF7.
Proof.
  apply decode_tc_ignores_other_bits.
  intros i Hi.
  assert (Hc : i = 16 \/ i = 18 \/ i = 19 \/ i = 20 \/ i = 21 \/ i = 22 \/
               i = 23 \/ i = 24 \/ i = 25 \/ i = 26 \/ i = 27 \/ i = 28 \/
               i = 29 \/ i = 30 \/ i = 31) by lia.
  repeat (destruct Hc as [-> | Hc]; [reflexivity|]).
  subst i. reflexivity.
Defined.

(** X2: a word with the fault bit and the sign bit of the field clear
    decodes as documented, to the field value times 0.25: a finite
    temperature from 0 to 2047.75 degrees. *)
Theorem decode_tc_positive_range (raw : Z) :
  Z.testbit raw 16 = false ->
  Z.testbit raw 31 = false ->
  sensors._decode_tc_c_from_raw raw
    = Fin (inject_Z (tc_spec.field raw) * (1 # 4)) /\
  sensors._decode_tc_c_from_raw raw = tc_spec.decode raw /\
  0 <= tc_spec.field raw < 2 ^ 13 /\
  (0 <= inject_Z (tc_spec.field raw) * (1 # 4) <= 8191 # 4)%Q.
Proof.
  intros Hfault Hsign.
  assert (Hf : 0 <= tc_spec.field raw < 2 ^ 13).
  { pose proof (field_range raw) as Hr.
    destruct (Z_lt_le_dec (tc_spec.field raw) (2 ^ 13)) as [Hlt|Hge]; [lia|].
    exfalso.
    assert (Hb : Z.testbit (tc_spec.field raw) 13 = true).
    { apply Z.testbit_true; [lia|].
      assert (Hd : tc_spec.field raw / 2 ^ 13 = 1).
      { symmetry.
        apply Z.div_unique with (r := tc_spec.field raw - 2 ^ 13); lia. }
      rewrite Hd. reflexivity. }
    rewrite field_bit13, Hsign in Hb. discriminate. }
  split; [|split; [|split]].
  - rewrite decode_unfold, Hfault, Hsign. reflexivity.
  - apply decode_tc_nonnegative_field; assumption.
  - exact Hf.
  - unfold Qle. cbn [Qnum Qden inject_Z Qmult]. lia.
Qed.

Lemma decode_tc_positive_range_witness :
  sensors._decode_tc_c_from_raw 0x05000000
    = Fin (inject_Z 320 * (1 # 4)).
Proof.
  apply (decode_tc_positive_range 0x05000000); reflexivity.
Defined.

(** A word is decoded to the NaN sentinel exactly when its fault bit is
    set; every other word gives a finite temperature. *)
Lemma decode_tc_nan_iff_fault (raw : Z) :
  is_nan (sensors._decode_tc_c_from_raw raw) = Z.testbit raw 16.
Proof.
  rewrite decode_unfold. destruct (Z.testbit raw 16); reflexivity.
Qed.

Lemma land_multiple_small (m y k : Z) :
  0 <= k -> 0 <= y < 2 ^ k -> Z.land (m * 2 ^ k) y = 0.
Proof.
  intros Hk Hy. apply Z.bits_inj'. intros n Hn.
  rewrite Z.land_spec, Z.bits_0.
  destruct (Z_lt_le_dec n k) as [Hlt|Hge].
  - rewrite Z.mul_pow2_bits_low by lia. reflexivity.
  - rewrite <- (Z.mod_small y (2 ^ k)) by exact Hy.
    rewrite Z.mod_pow2_bits_high by lia. apply Bool.andb_false_r.
Qed.

Lemma lor_multiple_small (m y k : Z) :
  0 <= k -> 0 <= y < 2 ^ k -> Z.lor (m * 2 ^ k) y = m * 2 ^ k + y.
Proof.
  intros Hk Hy.
  pose proof (Z.add_lor_land (m * 2 ^ k) y) as H.
  rewrite land_multiple_small in H by assumption. lia.
Qed.

Lemma assemble_bytes (b0 b1 b2 b3 : Z) :
  0 <= b1 < 256 -> 0 <= b2 < 256 -> 0 <= b3 < 256 ->
  Z.lor (Z.lor (Z.lor (Z.shiftl b0 24) (Z.shiftl b1 16)) (Z.shiftl b2 8)) b3
  = b0 * 2 ^ 24 + b1 * 2 ^ 16 + b2 * 2 ^ 8 + b3.
Proof.
  intros H1 H2 H3. rewrite !Z.shiftl_mul_pow2 by lia.
  rewrite (lor_multiple_small b0 (b1 * 2 ^ 16) 24) by lia.
  replace (b0 * 2 ^ 24 + b1 * 2 ^ 16) with ((b0 * 2 ^ 8 + b1) * 2 ^ 16) by lia.
  rewrite (lor_multiple_small (b0 * 2 ^ 8 + b1) (b2 * 2 ^ 8) 16) by lia.
  replace ((b0 * 2 ^ 8 + b1) * 2 ^ 16 + b2 * 2 ^ 8)
    with ((b0 * 2 ^ 16 + b1 * 2 ^ 8 + b2) * 2 ^ 8) by lia.
  rewrite (lor_multiple_small _ b3 8) by lia.
  lia.
Qed.

(** X3: [read_tc_raw32] combines the four bytes big-endian: the word is
    [b0 * 2^24 + b1 * 2^16 + b2 * 2^8 + b3], it fits 32 bits, each byte
    can be read back from it, and the chip select is left high. *)
Theorem read_tc_raw32_big_endian (h : hw_esp32.state) (b0 b1 b2 b3 : Z)
    (cs : bool) :
  hw_esp32._tc_spi h = Some (b0, b1, b2, b3) ->
  hw_esp32._tc_cs h = Some cs ->
  0 <= b0 < 256 -> 0 <= b1 < 256 -> 0 <= b2 < 256 -> 0 <= b3 < 256 ->
  let raw := b0 * 2 ^ 24 + b1 * 2 ^ 16 + b2 * 2 ^ 8 + b3 in
  hw_esp32.read_tc_raw32 h = (Some raw, hw_esp32.set_tc_cs (Some true) h) /\
  0 <= raw < 2 ^ 32 /\
  Z.land (Z.shiftr raw 24) 0xFF = b0 /\
  Z.land (Z.shiftr raw 16) 0xFF = b1 /\
  Z.land (Z.shiftr raw 8) 0xFF = b2 /\
  Z.land raw 0xFF = b3.
Proof.
  intros Hspi Hcs H0 H1 H2 H3 raw.
  split.
  { unfold hw_esp32.read_tc_raw32. rewrite Hspi, Hcs.
    rewrite assemble_bytes by assumption. reflexivity. }
  split; [unfold raw; lia|].
  change 0xFF with (Z.ones 8).
  rewrite !Z.land_ones, !Z.shiftr_div_pow2 by lia.
  unfold raw. repeat split.
  - assert (Hd : (b0 * 2 ^ 24 + b1 * 2 ^ 16 + b2 * 2 ^ 8 + b3) / 2 ^ 24 = b0).
    { symmetry.
      apply Z.div_unique with (r := b1 * 2 ^ 16 + b2 * 2 ^ 8 + b3); lia. }
    rewrite Hd. apply Z.mod_small. lia.
  - replace (b0 * 2 ^ 24 + b1 * 2 ^ 16 + b2 * 2 ^ 8 + b3)
      with ((b0 * 2 ^ 8 + b1) * 2 ^ 16 + (b2 * 2 ^ 8 + b3)) by lia.
    rewrite Z.div_add_l by lia. rewrite (Z.div_small (b2 * 2 ^ 8 + b3)) by lia.
    rewrite Z.add_0_r. rewrite Z.add_comm, Z.mod_add by lia.
    apply Z.mod_small. lia.
  - replace (b0 * 2 ^ 24 + b1 * 2 ^ 16 + b2 * 2 ^ 8 + b3)
      with ((b0 * 2 ^ 16 + b1 * 2 ^ 8 + b2) * 2 ^ 8 + b3) by lia.
    rewrite Z.div_add_l by lia. rewrite (Z.div_small b3) by lia.
    rewrite Z.add_0_r.
    replace (b0 * 2 ^ 16 + b1 * 2 ^ 8 + b2)
      with (b2 + (b0 * 2 ^ 8 + b1) * 2 ^ 8) by lia.
    rewrite Z.mod_add by lia. apply Z.mod_small. lia.
  - replace (b0 * 2 ^ 24 + b1 * 2 ^ 16 + b2 * 2 ^ 8 + b3)
      with (b3 + (b0 * 2 ^ 16 + b1 * 2 ^ 8 + b2) * 2 ^ 8) by lia.
    rewrite Z.mod_add by lia. apply Z.mod_small. lia.
Qed.

Lemma read_tc_raw32_big_endian_witness :
  hw_esp32.read_tc_raw32 (scenario.board None (Some (5, 1, 2, 3)) (fun _ => 0))
  = (Some 0x05010203,
     hw_esp32.set_tc_cs (Some true)
       (scenario.board None (Some (5, 1, 2, 3)) (fun _ => 0))).
Proof.
  apply (read_tc_raw32_big_endian
           (scenario.board None (Some (5, 1, 2, 3)) (fun _ => 0))
           5 1 2 3 true); try reflexivity; lia.
Defined.

Lemma assembled_bit16 (b0 b1 b2 b3 : Z) :
  0 <= b2 < 256 -> 0 <= b3 < 256 ->
  Z.testbit
    (Z.lor (Z.lor (Z.lor (Z.shiftl b0 24) (Z.shiftl b1 16)) (Z.shiftl b2 8)) b3)
    16
  = Z.testbit b1 0.
Proof.
  intros H2 H3.
  rewrite !Z.lor_spec, !Z.shiftl_spec by lia.
  change (16 - 24) with (-8). change (16 - 16) with 0. change (16 - 8) with 8.
  rewrite Z.testbit_neg_r by lia.
  rewrite <- (Z.mod_small b2 (2 ^ 8)) by lia.
  rewrite <- (Z.mod_small b3 (2 ^ 8)) by lia.
  rewrite !Z.mod_pow2_bits_high by lia.
  rewrite !Bool.orb_false_r. reflexivity.
Qed.

(** X4: on the board [read_tc_c] reports the NaN sentinel exactly when
    the SPI bus or the chip select is not set up or the fault bit (bit 0
    of the second byte read) is set; it never raises. *)
Theorem read_tc_c_nan_iff (s : sensors.state) (h : hw_esp32.state) :
  hw_esp32.on_real_hw h = true ->
  (forall b0 b1 b2 b3, hw_esp32._tc_spi h = Some (b0, b1, b2, b3) ->
     0 <= b2 < 256 /\ 0 <= b3 < 256) ->
  (is_nan (fst (sensors.read_tc_c s h)) = true <->
   hw_esp32._tc_spi h = None \/ hw_esp32._tc_cs h = None \/
   exists b0 b1 b2 b3,
     hw_esp32._tc_spi h = Some (b0, b1, b2, b3) /\ Z.testbit b1 0 = true).
Proof.
  intros Hhw Hbytes.
  unfold sensors.read_tc_c, hw_esp32.read_tc_raw32. rewrite Hhw. cbn [negb].
  destruct (hw_esp32._tc_spi h) as [[[[b0 b1] b2] b3]|] eqn:Hspi.
  - destruct (hw_esp32._tc_cs h) as [cs|] eqn:Hcs.
    + cbn [fst]. rewrite decode_tc_nan_iff_fault.
      destruct (Hbytes b0 b1 b2 b3 eq_refl) as [H2 H3].
      rewrite assembled_bit16 by assumption.
      split.
      * intros Hb. right; right. exists b0, b1, b2, b3. split; [reflexivity|exact Hb].
      * intros [Hn | [Hn | (c0 & c1 & c2 & c3 & Heq & Hb)]]; try discriminate.
        injection Heq as <- <- <- <-. exact Hb.
    + cbn. split; [intros _; right; left; reflexivity | reflexivity].
  - cbn. split; [intros _; left; reflexivity | reflexivity].
Qed.

Lemma read_tc_c_nan_iff_witness :
  is_nan (fst (sensors.read_tc_c sensors.initial
                 (scenario.board None (Some (5, 1, 0, 0)) (fun _ => 0))))
  = true.
Proof.
  apply (read_tc_c_nan_iff sensors.initial
           (scenario.board None (Some (5, 1, 0, 0)) (fun _ => 0))).
  - reflexivity.
  - intros b0 b1 b2 b3 Heq. injection Heq as <- <- <- <-. lia.
  - right; right. exists 5, 1, 0, 0. split; reflexivity.
Defined.

(* --------------------------------------------------------------------- *)
(** *** Pressure path *)







(* ===================================================================== *)
(** ** Further properties of the safety gate *)



(** The readings depend on the board's inputs only. *)
Lemma read_pressure_kgcm2_inputs (cfg : config.t) (s : sensors.state)
    (h h' : hw_esp32.state) :
  hw_esp32._REAL_HW h' = hw_esp32._REAL_HW h ->
  hw_esp32._pressure_adc h' = hw_esp32._pressure_adc h ->
  sensors.read_pressure_kgcm2 cfg s h' = sensors.read_pressure_kgcm2 cfg s h.
Proof.
  intros Hr Ha.
  unfold sensors.read_pressure_kgcm2, hw_esp32.read_pressure_volts,
    hw_esp32.on_real_hw.
  rewrite Hr, Ha. reflexivity.
Qed.

Lemma write_ssr_frame (cfg : config.t) (on : bool) (h : hw_esp32.state) :
  let h' := hw_esp32.write_ssr cfg on h in
  hw_esp32._REAL_HW h' = hw_esp32._REAL_HW h /\
  hw_esp32._motor_fwd_pin h' = hw_esp32._motor_fwd_pin h /\
  hw_esp32._motor_rev_pin h' = hw_esp32._motor_rev_pin h /\
  hw_esp32._pressure_adc h' = hw_esp32._pressure_adc h /\
  hw_esp32._tc_spi h' = hw_esp32._tc_spi h /\
  hw_esp32._tc_cs h' = hw_esp32._tc_cs h /\
  hw_esp32.clock h' = hw_esp32.clock h /\
  hw_esp32.reads h' = hw_esp32.reads h.
Proof.
  unfold hw_esp32.write_ssr.
  destruct (hw_esp32._ssr_pin h), (config.SSR_ACTIVE_HIGH cfg);
    repeat split.
Qed.

Lemma read_tc_c_frame (s : sensors.state) (h : hw_esp32.state) :
  let h' := snd (sensors.read_tc_c s h) in
  hw_esp32._REAL_HW h' = hw_esp32._REAL_HW h /\
  hw_esp32._ssr_pin h' = hw_esp32._ssr_pin h /\
  hw_esp32._motor_fwd_pin h' = hw_esp32._motor_fwd_pin h /\
  hw_esp32._motor_rev_pin h' = hw_esp32._motor_rev_pin h /\
  hw_esp32._pressure_adc h' = hw_esp32._pressure_adc h /\
  hw_esp32._tc_spi h' = hw_esp32._tc_spi h /\
  hw_esp32.clock h' = hw_esp32.clock h /\
  hw_esp32.reads h' = hw_esp32.reads h.
Proof.
  destruct h as [rh ssr mf mr adc spi cs clk rd].
  unfold sensors.read_tc_c, hw_esp32.read_tc_raw32, hw_esp32.on_real_hw.
  cbn. destruct rh; cbn; [|repeat split].
  destruct spi as [[[[b0 b1] b2] b3]|]; [destruct cs|]; cbn; repeat split.
Qed.

(** X9: [step_once] touches only the brain's two globals, the tracked
    SSR state, the SSR pin and the thermocouple chip select: the motor
    direction and pins, the alarm state, the sensor inputs and the clock
    are as before. *)
Theorem step_once_frame (cfg : config.t) (w : brain.world) :
  exists w',
    brain.step_once cfg w = Ok w' /\
    control._motor_dir (brain.ctl w') = control._motor_dir (brain.ctl w) /\
    control._alarm_on (brain.ctl w') = control._alarm_on (brain.ctl w) /\
    brain.sens w' = brain.sens w /\
    outputs.motor_pins (brain.hw w') = outputs.motor_pins (brain.hw w) /\
    hw_esp32._pressure_adc (brain.hw w') = hw_esp32._pressure_adc (brain.hw w) /\
    hw_esp32._tc_spi (brain.hw w') = hw_esp32._tc_spi (brain.hw w) /\
    hw_esp32.clock (brain.hw w') = hw_esp32.clock (brain.hw w) /\
    hw_esp32.reads (brain.hw w') = hw_esp32.reads (brain.hw w).
Proof.
  destruct (step_once_decide cfg w) as (t & p & h & Ht & Hp & Hs).
  eexists. split; [exact Hs|].
  pose proof (read_tc_c_frame (brain.sens w) (brain.hw w)) as Hf.
  rewrite Ht in Hf. cbn [snd] in Hf.
  destruct Hf as (_ & _ & F1 & F2 & F3 & F4 & F5 & F6).
  unfold brain.decide, control.set_ssr. cbn.
  match goal with
  | |- context [hw_esp32.write_ssr ?c ?o ?x] =>
      pose proof (write_ssr_frame c o x) as Hw
  end.
  cbv zeta in Hw. destruct Hw as (_ & W1 & W2 & W3 & W4 & _ & W5 & W6).
  unfold outputs.motor_pins.
  rewrite W1, W2, W3, W4, W5, W6, F1, F2, F3, F4, F5, F6.
  repeat split.
Qed.

(** X10: after [step_once] on a board whose SSR pin is bound, the pin is
    at the level that stands for the heater command under the
    configured polarity, and the control layer tracks the same command;
    with [HEAT_ENABLE] false the pin is at the inactive level. *)
Theorem step_once_drives_ssr_pin (cfg : config.t) (w : brain.world)
    (lvl : bool) :
  hw_esp32._ssr_pin (brain.hw w) = Some lvl ->
  exists w',
    brain.step_once cfg w = Ok w' /\
    hw_esp32._ssr_pin (brain.hw w') =
      Some (outputs.ssr_level cfg (brain.get_ssr_state w')) /\
    control.get_ssr (brain.ctl w') = brain.get_ssr_state w' /\
    (config.HEAT_ENABLE cfg = false ->
     hw_esp32._ssr_pin (brain.hw w') = Some (negb (config.SSR_ACTIVE_HIGH cfg))).
Proof.
  intros Hpin.
  destruct (step_once_decide cfg w) as (t & p & h & Ht & Hp & Hs).
  eexists. split; [exact Hs|].
  pose proof (read_tc_c_frame (brain.sens w) (brain.hw w)) as Hf.
  rewrite Ht in Hf. cbn [snd] in Hf.
  destruct Hf as (_ & Hpin' & _). rewrite Hpin in Hpin'.
  assert (Hlevel : forall on,
            hw_esp32._ssr_pin (hw_esp32.write_ssr cfg on h) =
            Some (outputs.ssr_level cfg on)).
  { intros on. unfold hw_esp32.write_ssr, outputs.ssr_level.
    rewrite Hpin'. destruct (config.SSR_ACTIVE_HIGH cfg), on; reflexivity. }
  split; [|split].
  - unfold brain.decide, control.set_ssr, brain.get_ssr_state. cbn.
    apply Hlevel.
  - apply decide_control_ssr.
  - intros Hoff. unfold brain.decide, control.set_ssr. cbn.
    rewrite Hlevel, Hoff. unfold outputs.ssr_level.
    destruct (config.SSR_ACTIVE_HIGH cfg); reflexivity.
Qed.

Lemma step_once_drives_ssr_pin_witness :
  exists w',
    brain.step_once config.reference scenario.brain_no_adc = Ok w' /\
    hw_esp32._ssr_pin (brain.hw w') = Some false.
Proof.
  destruct (step_once_drives_ssr_pin config.reference scenario.brain_no_adc
              false eq_refl) as (w' & Hs & _ & _ & Hoff).
  exists w'. split; [exact Hs|]. exact (Hoff eq_refl).
Defined.

Lemma read_tc_c_write_ssr (cfg : config.t) (on : bool) (s : sensors.state)
    (h : hw_esp32.state) :
  sensors.read_tc_c s (hw_esp32.write_ssr cfg on h) =
  (fst (sensors.read_tc_c s h),
   hw_esp32.write_ssr cfg on (snd (sensors.read_tc_c s h))).
Proof.
  destruct h as [rh ssr mf mr adc spi cs clk rd].
  unfold sensors.read_tc_c, hw_esp32.read_tc_raw32, hw_esp32.write_ssr,
    hw_esp32.on_real_hw.
  destruct rh, ssr as [l|], (config.SSR_ACTIVE_HIGH cfg),
    spi as [[[[b0 b1] b2] b3]|], cs as [c|]; reflexivity.
Qed.

Lemma read_tc_c_again (s : sensors.state) (h : hw_esp32.state) :
  sensors.read_tc_c s (snd (sensors.read_tc_c s h)) = sensors.read_tc_c s h.
Proof.
  destruct h as [rh ssr mf mr adc spi cs clk rd].
  unfold sensors.read_tc_c, hw_esp32.read_tc_raw32, hw_esp32.on_real_hw.
  destruct rh, spi as [[[[b0 b1] b2] b3]|], cs as [c|]; reflexivity.
Qed.

Lemma write_ssr_again (cfg : config.t) (on : bool) (h : hw_esp32.state) :
  hw_esp32.write_ssr cfg on (hw_esp32.write_ssr cfg on h) =
  hw_esp32.write_ssr cfg on h.
Proof.
  destruct h as [rh ssr mf mr adc spi cs clk rd].
  unfold hw_esp32.write_ssr.
  destruct ssr as [l|], (config.SSR_ACTIVE_HIGH cfg); reflexivity.
Qed.

(** X11: [step_once] is idempotent: run again on its own result, with
    the sensor inputs unchanged, it returns that result. *)
Theorem step_once_idempotent (cfg : config.t) (w w1 : brain.world) :
  brain.step_once cfg w = Ok w1 ->
  brain.step_once cfg w1 = Ok w1.
Proof.
  intros H1.
  destruct (step_once_decide cfg w) as (t & p & h & Ht & Hp & Hs).
  rewrite Hs in H1. injection H1 as <-.
  assert (Hh : h = snd (sensors.read_tc_c (brain.sens w) (brain.hw w)))
    by (rewrite Ht; reflexivity).
  assert (Ht' : fst (sensors.read_tc_c (brain.sens w) h) = t).
  { rewrite Hh, read_tc_c_again, Ht. reflexivity. }
  assert (Hh' : snd (sensors.read_tc_c (brain.sens w) h) = h).
  { rewrite Hh at 1. rewrite read_tc_c_again, Ht. reflexivity. }
  unfold brain.step_once, brain.decide, control.set_ssr.
  cbn [brain.sens brain.hw brain.st brain.ctl control._ssr_on
       control._motor_dir control._alarm_on].
  rewrite read_tc_c_write_ssr, Ht', Hh'.
  rewrite read_pressure_kgcm2_inputs with (h := h);
    [|apply write_ssr_frame|apply write_ssr_frame].
  rewrite Hp. cbn [bind].
  cbn [brain.sens brain.hw brain.st brain.ctl control._ssr_on
       control._motor_dir control._alarm_on].
  rewrite write_ssr_again. reflexivity.
Qed.

Lemma step_once_idempotent_witness :
  exists w1,
    brain.step_once config.reference scenario.brain_no_adc = Ok w1 /\
    brain.step_once config.reference w1 = Ok w1.
Proof.
  eexists. split; [reflexivity|].
  apply (step_once_idempotent config.reference scenario.brain_no_adc).
  reflexivity.
Defined.

(* ===================================================================== *)
(** ** Further properties of the actuator *)

Lemma write_motor_not_both (f r : bool) (h : hw_esp32.state) :
  outputs.both_high (hw_esp32.write_motor f r h) = false.
Proof.
  destruct h as [rh ssr mf mr adc spi cs clk rd].
  unfold hw_esp32.write_motor, outputs.both_high.
  destruct mf as [[|]|], mr as [[|]|], f, r; reflexivity.
Qed.

Lemma set_motor_not_both (f r : bool) (c : control.state)
    (h : hw_esp32.state) :
  outputs.both_high (snd (control.set_motor f r c h)) = false.
Proof.
  unfold control.set_motor.
  destruct (f && r); cbn [snd]; apply write_motor_not_both.
Qed.

Lemma set_reads_both_high (n : nat) (h : hw_esp32.state) :
  outputs.both_high (hw_esp32.set_reads n h) = outputs.both_high h.
Proof. reflexivity. Qed.

Lemma start_phase_not_both (s : string) (d dur : Z) (w : actuator.world) :
  outputs.both_high (actuator.hw (actuator._start_phase s d dur w)) = false.
Proof.
  unfold actuator._start_phase, control.stop_motor.
  destruct (d >? 0); [|destruct (d <? 0)];
    match goal with
    | |- context [control.set_motor ?f ?r ?c ?h] =>
        pose proof (set_motor_not_both f r c h) as Hn;
        destruct (control.set_motor f r c h) as [c' h']
    end; exact Hn.
Qed.

Lemma to_idle_not_both (w : actuator.world) :
  outputs.both_high (actuator.hw (actuator.to_idle w)) = false.
Proof.
  unfold actuator.to_idle, control.stop_motor.
  pose proof (set_motor_not_both false false (actuator.ctl w) (actuator.hw w))
    as Hn.
  destruct (control.set_motor false false (actuator.ctl w) (actuator.hw w)).
  exact Hn.
Qed.

Lemma init_not_both (w : actuator.world) :
  outputs.both_high (actuator.hw (actuator.init w)) = false.
Proof.
  unfold actuator.init, control.stop_motor.
  pose proof (set_motor_not_both false false (actuator.ctl w) (actuator.hw w))
    as Hn.
  destruct (control.set_motor false false (actuator.ctl w) (actuator.hw w)).
  exact Hn.
Qed.

Lemma step_not_both (w : actuator.world) :
  outputs.both_high (actuator.hw w) = false ->
  outputs.both_high (actuator.hw (actuator.step w)) = false.
Proof.
  intros Hw. unfold actuator.step.
  destruct (actuator._until_ms (actuator.st w)) as [u|]; [|exact Hw].
  destruct (String.eqb (actuator._state (actuator.st w)) "IDLE");
    [exact Hw|].
  unfold hw_esp32.ticks_ms.
  destruct (_ - u <? 0); [exact Hw|].
  cbn [actuator.st].
  repeat match goal with
         | |- context [if ?b then _ else _] => destruct b
         end;
    first [apply start_phase_not_both | apply to_idle_not_both].
Qed.

Lemma exec_not_both (o : actuator.op) (w : actuator.world) :
  outputs.both_high (actuator.hw w) = false ->
  outputs.both_high (actuator.hw (actuator.exec o w)) = false.
Proof.
  intros Hw. destruct o; cbn [actuator.exec].
  - apply init_not_both.
  - unfold actuator.jog_fwd, actuator._start_auto_cycle.
    destruct (negb _); [exact Hw | apply start_phase_not_both].
  - unfold actuator.jog_rev, actuator._start_auto_cycle.
    destruct (negb _); [exact Hw | apply start_phase_not_both].
  - apply step_not_both, Hw.
Qed.

(** X12: once [init] has run, no sequence of actuator calls ever leaves
    both motor drive pins at the active level, whatever the pins held
    before and whatever the clock does. *)
Theorem motor_pins_never_both_high (w : actuator.world)
    (ops : list actuator.op) :
  outputs.both_high
    (actuator.hw (actuator.run ops (actuator.init w))) = false.
Proof.
  assert (H : forall l v, outputs.both_high (actuator.hw v) = false ->
            outputs.both_high (actuator.hw (actuator.run l v)) = false).
  { induction l as [|o l IH]; intros v Hv; [exact Hv|].
    cbn [actuator.run fold_left]. apply IH, exec_not_both, Hv. }
  apply H, init_not_both.
Qed.

Lemma actuator_frame_refl (w : actuator.world) : outputs.actuator_frame w w.
Proof. unfold outputs.actuator_frame. repeat split. Qed.

Lemma actuator_frame_trans (a b c : actuator.world) :
  outputs.actuator_frame a b -> outputs.actuator_frame b c ->
  outputs.actuator_frame a c.
Proof.
  unfold outputs.actuator_frame.
  intros (A1 & A2 & A3 & A4 & A5 & A6 & A7 & A8)
         (B1 & B2 & B3 & B4 & B5 & B6 & B7 & B8).
  repeat split; etransitivity; eassumption.
Qed.

Lemma set_motor_frame (f r : bool) (c : control.state) (h : hw_esp32.state) :
  let '(c', h') := control.set_motor f r c h in
  control._ssr_on c' = control._ssr_on c /\
  control._alarm_on c' = control._alarm_on c /\
  hw_esp32._REAL_HW h' = hw_esp32._REAL_HW h /\
  hw_esp32._ssr_pin h' = hw_esp32._ssr_pin h /\
  hw_esp32._pressure_adc h' = hw_esp32._pressure_adc h /\
  hw_esp32._tc_spi h' = hw_esp32._tc_spi h /\
  hw_esp32._tc_cs h' = hw_esp32._tc_cs h /\
  hw_esp32.clock h' = hw_esp32.clock h.
Proof.
  destruct h as [rh ssr mf mr adc spi cs clk rd].
  unfold control.set_motor, hw_esp32.write_motor.
  destruct f, r, mf, mr; cbn; repeat split.
Qed.

Lemma start_phase_frame (s : string) (d dur : Z) (w : actuator.world) :
  outputs.actuator_frame w (actuator._start_phase s d dur w).
Proof.
  unfold actuator._start_phase, control.stop_motor, outputs.actuator_frame.
  destruct (d >? 0); [|destruct (d <? 0)];
    match goal with
    | |- context [control.set_motor ?f ?r ?c ?h] =>
        pose proof (set_motor_frame f r c h) as Hf;
        destruct (control.set_motor f r c h) as [c' h']
    end; exact Hf.
Qed.

Lemma stop_frame (w : actuator.world) :
  outputs.actuator_frame w (actuator.to_idle w) /\
  outputs.actuator_frame w (actuator.init w).
Proof.
  unfold actuator.to_idle, actuator.init, control.stop_motor,
    outputs.actuator_frame.
  pose proof (set_motor_frame false false (actuator.ctl w) (actuator.hw w))
    as Hf.
  destruct (control.set_motor false false (actuator.ctl w) (actuator.hw w)).
  split; exact Hf.
Qed.

Lemma exec_frame (o : actuator.op) (w : actuator.world) :
  outputs.actuator_frame w (actuator.exec o w).
Proof.
  destruct o; cbn [actuator.exec].
  - apply stop_frame.
  - unfold actuator.jog_fwd, actuator._start_auto_cycle.
    destruct (negb _); [apply actuator_frame_refl | apply start_phase_frame].
  - unfold actuator.jog_rev, actuator._start_auto_cycle.
    destruct (negb _); [apply actuator_frame_refl | apply start_phase_frame].
  - unfold actuator.step.
    destruct (actuator._until_ms (actuator.st w)) as [u|];
      [|apply actuator_frame_refl].
    destruct (String.eqb (actuator._state (actuator.st w)) "IDLE");
      [apply actuator_frame_refl|].
    unfold hw_esp32.ticks_ms.
    set (w' := {| actuator.st := actuator.st w; actuator.ctl := actuator.ctl w;
                  actuator.hw := hw_esp32.set_reads _ (actuator.hw w) |}).
    assert (Hw' : outputs.actuator_frame w w')
      by (unfold outputs.actuator_frame; repeat split).
    destruct (_ - u <? 0); [exact Hw'|].
    apply (actuator_frame_trans w w'); [exact Hw'|].
    repeat match goal with
           | |- context [if ?b then _ else _] => destruct b
           end;
      first [apply start_phase_frame | apply stop_frame].
Qed.

(** X13: no sequence of actuator calls changes the heater side: the
    tracked SSR and alarm state, the SSR pin, the sensor inputs and the
    clock's readings are those it started with. *)
Theorem actuator_leaves_heater_alone (w : actuator.world)
    (ops : list actuator.op) :
  outputs.actuator_frame w (actuator.run ops w).
Proof.
  revert w. induction ops as [|o ops IH]; intros w.
  - apply actuator_frame_refl.
  - cbn [actuator.run fold_left].
    apply (actuator_frame_trans w (actuator.exec o w)).
    + apply exec_frame.
    + apply IH.
Qed.

(* --------------------------------------------------------------------- *)
(** *** The motor outputs follow the direction *)

Lemma set_motor_follows (f r : bool) (c : control.state)
    (h : hw_esp32.state) :
  f && r = false ->
  let d := if f then 1 else if r then -1 else 0 in
  let '(c', h') := control.set_motor f r c h in
  control._motor_dir c' = d /\
  outputs.motor_pins_bound h' = outputs.motor_pins_bound h /\
  (outputs.motor_pins_bound h = true ->
   outputs.motor_pins h' = outputs.drive_levels d).
Proof.
  destruct h as [rh ssr mf mr adc spi cs clk rd].
  unfold control.set_motor, hw_esp32.write_motor, outputs.motor_pins_bound,
    outputs.motor_pins, outputs.drive_levels.
  destruct f, r; try discriminate; intros _;
    destruct mf, mr; cbn; repeat split; try discriminate; reflexivity.
Qed.

Lemma start_phase_follows (s : string) (d dur : Z) (w : actuator.world) :
  d = 1 \/ d = 0 \/ d = -1 ->
  outputs.motor_follows (actuator._start_phase s d dur w) /\
  outputs.motor_pins_bound (actuator.hw (actuator._start_phase s d dur w))
    = outputs.motor_pins_bound (actuator.hw w).
Proof.
  intros Hd. unfold actuator._start_phase, control.stop_motor,
    outputs.motor_follows.
  destruct Hd as [ -> | [ -> | -> ] ]; cbn [Z.gtb Z.ltb Z.compare];
    match goal with
    | |- context [control.set_motor ?f ?r ?c ?h] =>
        pose proof (set_motor_follows f r c h eq_refl) as Hf;
        destruct (control.set_motor f r c h) as [c' h']
    end; cbv zeta in Hf; destruct Hf as (H1 & H2 & H3);
    unfold hw_esp32.ticks_ms; cbn;
    unfold outputs.motor_pins_bound, outputs.motor_pins in *; cbn;
    (split; [split; [exact H1|]|exact H2]);
    intros Hb; apply H3; rewrite <- H2; exact Hb.
Qed.

Lemma stop_follows (w : actuator.world) :
  (outputs.motor_follows (actuator.to_idle w) /\
   outputs.motor_pins_bound (actuator.hw (actuator.to_idle w))
     = outputs.motor_pins_bound (actuator.hw w)) /\
  (outputs.motor_follows (actuator.init w) /\
   outputs.motor_pins_bound (actuator.hw (actuator.init w))
     = outputs.motor_pins_bound (actuator.hw w)).
Proof.
  unfold actuator.to_idle, actuator.init, control.stop_motor,
    outputs.motor_follows.
  pose proof (set_motor_follows false false (actuator.ctl w) (actuator.hw w)
                eq_refl) as Hf.
  destruct (control.set_motor false false (actuator.ctl w) (actuator.hw w))
    as [c' h'].
  cbv zeta in Hf. destruct Hf as (H1 & H2 & H3). cbn.
  repeat split; try assumption; intros Hb; apply H3; rewrite <- H2; exact Hb.
Qed.

Lemma exec_follows (o : actuator.op) (w : actuator.world) :
  outputs.motor_follows w ->
  outputs.motor_follows (actuator.exec o w) /\
  outputs.motor_pins_bound (actuator.hw (actuator.exec o w))
    = outputs.motor_pins_bound (actuator.hw w).
Proof.
  intros Hw. destruct o; cbn [actuator.exec].
  - apply stop_follows.
  - unfold actuator.jog_fwd, actuator._start_auto_cycle.
    destruct (negb _); [split; [exact Hw|reflexivity]|].
    apply start_phase_follows. auto.
  - unfold actuator.jog_rev, actuator._start_auto_cycle.
    destruct (negb _); [split; [exact Hw|reflexivity]|].
    apply start_phase_follows. auto.
  - unfold actuator.step.
    destruct (actuator._until_ms (actuator.st w)) as [u|];
      [|split; [exact Hw|reflexivity]].
    destruct (String.eqb (actuator._state (actuator.st w)) "IDLE");
      [split; [exact Hw|reflexivity]|].
    unfold hw_esp32.ticks_ms.
    destruct (_ - u <? 0); [split; [exact Hw|reflexivity]|].
    set (w' := {| actuator.st := actuator.st w; actuator.ctl := actuator.ctl w;
                  actuator.hw := hw_esp32.set_reads _ (actuator.hw w) |}).
    change (outputs.motor_pins_bound (actuator.hw w))
      with (outputs.motor_pins_bound (actuator.hw w')).
    cbn [actuator.st].
    repeat match goal with
           | |- context [if ?b then _ else _] => destruct b
           end.
    + apply (start_phase_follows "WAIT" 0 actuator.AUTO_WAIT_MS w'). auto.
    + apply (start_phase_follows "RETRACT" (-1) actuator.AUTO_RETRACT_MS w').
      auto.
    + exact (proj1 (stop_follows w')).
    + exact (proj1 (stop_follows w')).
Qed.

(** X14: from [init] on, after any sequence of actuator calls, the
    direction tracked by the control layer equals the actuator's
    [_dir] on every board, with or without pins; and where both motor
    pins are bound the pins carry exactly that direction: forward pin
    high iff [_dir = 1], reverse pin high iff [_dir = -1]. *)
Theorem motor_outputs_follow_direction (w : actuator.world)
    (ops : list actuator.op) :
  let w' := actuator.run ops (actuator.init w) in
  control.get_motor_dir (actuator.ctl w') = actuator.get_dir w' /\
  (outputs.motor_pins_bound (actuator.hw w) = true ->
   outputs.motor_pins (actuator.hw w') =
     outputs.drive_levels (actuator.get_dir w')).
Proof.
  intros w'.
  assert (H : forall l v, outputs.motor_follows v ->
            outputs.motor_follows (actuator.run l v) /\
            outputs.motor_pins_bound (actuator.hw (actuator.run l v))
              = outputs.motor_pins_bound (actuator.hw v)).
  { induction l as [|o l IH]; intros v Hv; [split; [exact Hv|reflexivity]|].
    cbn [actuator.run fold_left].
    destruct (exec_follows o v Hv) as [Hf Hbe].
    destruct (IH (actuator.exec o v) Hf) as [Hr Hrb].
    split; [exact Hr|].
    etransitivity; [exact Hrb|exact Hbe]. }
  destruct (stop_follows w) as [_ [Hi Hib]].
  destruct (H ops (actuator.init w) Hi) as [[Hd Hp] Hbound].
  split; [exact Hd|].
  intros Hb. apply Hp. rewrite <- Hb, <- Hib. exact Hbound.
Qed.

Lemma motor_outputs_follow_direction_witness :
  let w' := actuator.run [actuator.JogFwd; actuator.Step; actuator.Step]
              (actuator.init scenario.actuator_idle) in
  control.get_motor_dir (actuator.ctl w') = actuator.get_dir w' /\
  outputs.motor_pins (actuator.hw w') =
    outputs.drive_levels (actuator.get_dir w').
Proof.
  destruct (motor_outputs_follow_direction scenario.actuator_idle
              [actuator.JogFwd; actuator.Step; actuator.Step]) as [Hd Hp].
  split; [exact Hd | exact (Hp eq_refl)].
Defined.

(* --------------------------------------------------------------------- *)
(** *** The display code of the actuator *)

(** X15: in every state reachable from import the 4-character display
    code determines phase and direction: it is "IDLE" exactly when the
    actuator is not moving, "EXT+" exactly when the direction is +1,
    "EXT-" exactly when it is -1, and "WAIT" exactly when the actuator
    is in a cycle with the motor stopped. *)
Theorem ui_state_reflects_phase (c : control.state) (h : hw_esp32.state)
    (ops : list actuator.op) :
  let w := actuator.run ops (actuator.at_import c h) in
  String.length (actuator_ui.get_ui_state w) = 4%nat /\
  (actuator_ui.get_ui_state w = "IDLE"%string <->
   actuator.is_moving w = false) /\
  (actuator_ui.get_ui_state w = "EXT+"%string <-> actuator.get_dir w = 1) /\
  (actuator_ui.get_ui_state w = "EXT-"%string <-> actuator.get_dir w = -1) /\
  (actuator_ui.get_ui_state w = "WAIT"%string <->
   actuator.is_moving w = true /\ actuator.get_dir w = 0).
Proof.
  intros w.
  assert (Hc : actuator.canonical (actuator.st w)).
  { apply run_canonical. left. reflexivity. }
  unfold actuator_ui.get_ui_state, actuator.is_moving, actuator.get_dir.
  destruct Hc as [-> | [[u ->] | [[u ->] | [u ->]]]]; cbn;
    repeat split; intros; try discriminate; try reflexivity; try lia;
    intuition (try discriminate; try lia).
Qed.

(* --------------------------------------------------------------------- *)
(** *** Timing of a cycle under a clock that does not go back *)

Ltac unfold_ms :=
  unfold actuator.AUTO_EXTEND_MS, actuator.AUTO_WAIT_MS,
    actuator.AUTO_RETRACT_MS in *.

Lemma cycle_progress_step (clk : nat -> Z) (t0 : Z) (w : actuator.world) :
  (forall i j, (i <= j)%nat -> clk i <= clk j) ->
  outputs.cycle_progress clk t0 w ->
  outputs.cycle_progress clk t0 (actuator.step w).
Proof.
  intros Hmono (r & Hr & Hcase).
  assert (Hlast : forall n, clk (S n - 1)%nat = clk n)
    by (intros n; f_equal; lia).
  pose proof (Hmono r (S r) (Nat.le_succ_diag_r r)) as Hnext.
  pose proof (Hmono (r - 1)%nat r (Nat.le_sub_l r 1)) as Hprev.
  destruct Hcase as [He | [(u & Hw & Hu & Hl) | [(u & Hw & Hu & Hl) | [Hi Hl]]]].
  - destruct (Z_lt_le_dec (clk r) (t0 + actuator.AUTO_EXTEND_MS)) as [Hlt|Hge].
    + exists (S r). split; [lia|]. left.
      apply step_pending; [exact He|discriminate|exact Hlt].
    + exists (S (S r)). split; [lia|]. right; left.
      eexists. split; [apply (step_extend_done clk 1 _ r w He Hge)|].
      rewrite Hlast. unfold_ms. lia.
  - destruct (Z_lt_le_dec (clk r) u) as [Hlt|Hge].
    + exists (S r). split; [lia|]. right; left.
      exists u. split; [apply step_pending; [exact Hw|discriminate|exact Hlt]|].
      split; [exact Hu|]. rewrite Hlast. unfold_ms. lia.
    + exists (S (S r)). split; [lia|]. right; right; left.
      eexists. split; [apply (step_wait_done clk 0 _ r w Hw Hge)|].
      rewrite Hlast. unfold_ms. lia.
  - destruct (Z_lt_le_dec (clk r) u) as [Hlt|Hge].
    + exists (S r). split; [lia|]. right; right; left.
      exists u. split; [apply step_pending; [exact Hw|discriminate|exact Hlt]|].
      split; [exact Hu|]. rewrite Hlast. unfold_ms. lia.
    + exists (S r). split; [lia|]. right; right; right.
      split; [apply (step_retract_done clk (-1) u r w Hw Hge)|].
      rewrite Hlast. unfold_ms. lia.
  - exists r. split; [exact Hr|]. right; right; right.
    rewrite step_idle; [split; assumption|].
    destruct Hi as (Hst & _). rewrite Hst. reflexivity.
Qed.

(** X16: a cycle never runs short.  Under a clock that does not go
    back, after a jog from IDLE at clock value [t0] and any number of
    polls, the actuator is in WAIT only if a reading of at least
    [t0 + 10000] was taken, in RETRACT only after one of at least
    [t0 + 11000], and back in IDLE only after one of at least
    [t0 + 21000]. *)
Theorem cycle_never_runs_short (w0 : actuator.world) (n : nat) :
  let clk := hw_esp32.clock (actuator.hw w0) in
  let t0 := clk (hw_esp32.reads (actuator.hw w0)) in
  actuator._state (actuator.st w0) = "IDLE"%string ->
  (forall i j, (i <= j)%nat -> clk i <= clk j) ->
  let w := actuator.steps n (actuator.jog_fwd w0) in
  let last := clk (hw_esp32.reads (actuator.hw w) - 1)%nat in
  (actuator._state (actuator.st w) = "WAIT"%string -> t0 + 10000 <= last) /\
  (actuator._state (actuator.st w) = "RETRACT"%string -> t0 + 11000 <= last) /\
  (actuator._state (actuator.st w) = "IDLE"%string -> t0 + 21000 <= last).
Proof.
  intros clk t0 Hidle Hmono w last.
  assert (Hp : outputs.cycle_progress clk t0 w).
  { unfold w. clear w last.
    assert (H1 : outputs.cycle_progress clk t0 (actuator.jog_fwd w0)).
    { exists (S (hw_esp32.reads (actuator.hw w0))). split; [lia|]. left.
      apply jog_from_idle; auto. }
    revert H1. generalize (actuator.jog_fwd w0).
    induction n as [|n IH]; intros v Hv; [exact Hv|].
    cbn [actuator.steps]. apply IH, cycle_progress_step; assumption. }
  destruct Hp as (r & Hr & Hcase).
  unfold actuator.AUTO_EXTEND_MS, actuator.AUTO_WAIT_MS,
    actuator.AUTO_RETRACT_MS in Hcase.
  unfold last.
  destruct Hcase as [He | [(u & Hw & Hu & Hl) | [(u & Hw & Hu & Hl) | [Hi Hl]]]];
    match goal with
    | H : actuator.at_phase _ _ _ _ _ _ |- _ =>
        destruct H as (Hst & _ & _ & Hrd)
    end;
    rewrite Hst, Hrd; cbn [actuator._state];
    repeat split; intros Hs; try discriminate Hs; lia.
Qed.

Lemma cycle_never_runs_short_witness :
  let w := actuator.steps 5 (actuator.jog_fwd scenario.actuator_idle) in
  actuator._state (actuator.st w) = "IDLE"%string /\
  0 + 21000 <= 5000 * Z.of_nat (hw_esp32.reads (actuator.hw w) - 1).
Proof.
  intros w. split; [reflexivity|].
  apply (cycle_never_runs_short scenario.actuator_idle 5).
  - reflexivity.
  - intros i j Hij.
    change (5000 * Z.of_nat i <= 5000 * Z.of_nat j). lia.
  - reflexivity.
Defined.

(* --------------------------------------------------------------------- *)
(** *** A phase without duration *)

(** X17: a phase started by [_start_phase] with a duration of zero or
    less gets the current tick as deadline, so the very next [step]
    ends it -- given only that the clock has not gone back in between:
    EXTEND goes to WAIT, WAIT to RETRACT and RETRACT to IDLE. *)
Theorem zero_duration_phase_ends_at_next_step (s : string) (d dur : Z)
    (w : actuator.world) :
  s = "EXTEND"%string \/ s = "WAIT"%string \/ s = "RETRACT"%string ->
  d = 1 \/ d = 0 \/ d = -1 ->
  dur <= 0 ->
  let clk := hw_esp32.clock (actuator.hw w) in
  let r := hw_esp32.reads (actuator.hw w) in
  clk r <= clk (S r) ->
  actuator._until_ms (actuator.st (actuator._start_phase s d dur w))
    = Some (clk r) /\
  actuator._state (actuator.st (actuator.step (actuator._start_phase s d dur w)))
    = outputs.next_phase s.
Proof.
  intros Hs Hd Hdur clk r Hclk.
  pose proof (start_phase_at clk r s d dur w Hd eq_refl eq_refl) as Hp.
  rewrite Z.max_r, Z.add_0_r in Hp by exact Hdur.
  split; [destruct Hp as (Hst & _); rewrite Hst; reflexivity|].
  destruct Hs as [ -> | [ -> | -> ] ].
  - destruct (step_extend_done clk d _ (S r) _ Hp Hclk) as (Hst & _).
    rewrite Hst. reflexivity.
  - destruct (step_wait_done clk d _ (S r) _ Hp Hclk) as (Hst & _).
    rewrite Hst. reflexivity.
  - destruct (step_retract_done clk d _ (S r) _ Hp Hclk) as (Hst & _).
    rewrite Hst. reflexivity.
Qed.

Lemma zero_duration_phase_ends_at_next_step_witness :
  actuator._state
    (actuator.st
       (actuator.step
          (actuator._start_phase "WAIT" 0 (-5) scenario.actuator_idle)))
  = "RETRACT"%string.
Proof.
  apply (zero_duration_phase_ends_at_next_step "WAIT" 0 (-5)
           scenario.actuator_idle); auto.
  - lia.
  - change (5000 * Z.of_nat 0 <= 5000 * Z.of_nat 1). lia.
Defined.

(* ===================================================================== *)
(** ** The timed-jog variant (actuator_sm.py) *)

Lemma sm_start_move (clk : nat -> Z) (r : nat) (d : Z)
    (w : actuator_sm.world) :
  d = 1 \/ d = -1 ->
  hw_esp32.clock (actuator_sm.hw w) = clk ->
  hw_esp32.reads (actuator_sm.hw w) = r ->
  actuator_sm.moving clk d (clk r + actuator_sm.JOG_MS) (S r)
    (actuator_sm._start_move d w).
Proof.
  intros Hd Hclk Hr. unfold actuator_sm._start_move, hw_esp32.ticks_ms.
  destruct Hd as [ -> | -> ]; cbn [Z.eqb Z.gtb Z.compare];
    match goal with
    | |- context [control.set_motor ?f ?r ?c ?h] =>
        pose proof (set_motor_clock f r c h) as [Hc Hn];
        pose proof (set_motor_dir f r c h) as Hm;
        destruct (control.set_motor f r c h) as [c' h']
    end;
    cbn [fst snd] in *; unfold actuator_sm.moving; cbn;
    rewrite Hc, Hn, Hclk, Hr; repeat split; assumption.
Qed.

(** X18: in the timed-jog variant a jog is never dropped: whatever the
    state, also in the middle of a move, [jog_fwd] and [jog_rev] put the
    machine in MOVING with their own direction, a fresh deadline
    [JOG_MS] after the tick they read, and the control layer driving
    that direction. *)
Theorem sm_jog_always_restarts (w : actuator_sm.world) :
  let clk := hw_esp32.clock (actuator_sm.hw w) in
  let r := hw_esp32.reads (actuator_sm.hw w) in
  actuator_sm.moving clk 1 (clk r + 800) (S r) (actuator_sm.jog_fwd w) /\
  actuator_sm.moving clk (-1) (clk r + 800) (S r) (actuator_sm.jog_rev w).
Proof.
  intros clk r. split.
  - apply (sm_start_move clk r 1 w); auto.
  - apply (sm_start_move clk r (-1) w); auto.
Qed.

Lemma sm_step_pending (clk : nat -> Z) (d u : Z) (r : nat)
    (w : actuator_sm.world) :
  actuator_sm.moving clk d u r w ->
  clk r < u ->
  actuator_sm.moving clk d u (S r) (actuator_sm.step w).
Proof.
  intros (Hst & Hm & Hclk & Hr) Hlt.
  unfold actuator_sm.step, hw_esp32.ticks_ms. rewrite Hst, Hclk, Hr.
  cbn [actuator_sm._state actuator_sm._until_ms String.eqb Ascii.eqb
       Bool.eqb negb].
  destruct (Z.geb_spec (clk r - u) 0) as [Hge|_]; [lia|].
  unfold actuator_sm.moving. cbn. repeat split; assumption.
Qed.

Lemma sm_step_done (clk : nat -> Z) (d u : Z) (r : nat)
    (w : actuator_sm.world) :
  actuator_sm.moving clk d u r w ->
  u <= clk r ->
  actuator_sm.resting (actuator_sm.step w).
Proof.
  intros (Hst & Hm & Hclk & Hr) Hge.
  unfold actuator_sm.step, hw_esp32.ticks_ms. rewrite Hst, Hclk, Hr.
  cbn [actuator_sm._state actuator_sm._until_ms String.eqb Ascii.eqb
       Bool.eqb negb].
  destruct (Z.geb_spec (clk r - u) 0) as [_|Hlt]; [|lia].
  unfold control.stop_motor.
  match goal with
  | |- context [control.set_motor ?f ?r ?c ?h] =>
      pose proof (set_motor_dir f r c h) as Hd;
      destruct (control.set_motor f r c h) as [c' h']
  end.
  unfold actuator_sm.resting. cbn in *. split; [reflexivity|exact Hd].
Qed.

Lemma sm_step_resting (w : actuator_sm.world) :
  actuator_sm.resting w -> actuator_sm.step w = w.
Proof.
  intros (Hst & _). unfold actuator_sm.step. rewrite Hst. reflexivity.
Qed.

Lemma sm_steps_resting (n : nat) (w : actuator_sm.world) :
  actuator_sm.resting w -> actuator_sm.steps n w = w.
Proof.
  intros Hw. induction n as [|n IH]; [reflexivity|].
  cbn [actuator_sm.steps]. rewrite sm_step_resting by exact Hw. exact IH.
Qed.

Lemma sm_steps_moving (clk : nat -> Z) (d u : Z) (n r : nat)
    (w : actuator_sm.world) :
  actuator_sm.moving clk d u r w ->
  (forall i, (r <= i < r + n)%nat -> clk i < u) ->
  actuator_sm.moving clk d u (r + n) (actuator_sm.steps n w).
Proof.
  revert r w. induction n as [|n IH]; intros r w Hw Hlt.
  - rewrite Nat.add_0_r. exact Hw.
  - cbn [actuator_sm.steps]. rewrite <- Nat.add_succ_comm.
    apply IH.
    + apply sm_step_pending; [exact Hw|]. apply Hlt. lia.
    + intros i Hi. apply Hlt. lia.
Qed.

Lemma sm_steps_stopped (clk : nat -> Z) (d u : Z) (n r : nat)
    (w : actuator_sm.world) :
  actuator_sm.moving clk d u r w ->
  (exists i, (r <= i < r + n)%nat /\ u <= clk i) ->
  actuator_sm.resting (actuator_sm.steps n w).
Proof.
  revert r w. induction n as [|n IH]; intros r w Hw (i & Hi & Hge).
  - lia.
  - cbn [actuator_sm.steps].
    destruct (Z_lt_le_dec (clk r) u) as [Hlt|Hdone].
    + apply (IH (S r)).
      * apply sm_step_pending; assumption.
      * exists i. split; [|exact Hge].
        assert (i <> r) by (intros ->; lia). lia.
    + rewrite sm_steps_resting; apply (sm_step_done clk d u r w Hw Hdone).
Qed.

(** X19: after a jog, the timed-jog variant keeps the motor running
    through [n] polls exactly when each of those polls read a tick below
    the deadline; the first poll that reads the deadline or more stops
    the motor and the machine then rests in IDLE. *)
Theorem sm_move_ends_at_first_late_poll (w0 : actuator_sm.world) (n : nat) :
  let clk := hw_esp32.clock (actuator_sm.hw w0) in
  let r := hw_esp32.reads (actuator_sm.hw w0) in
  let u := clk r + actuator_sm.JOG_MS in
  let w := actuator_sm.steps n (actuator_sm.jog_fwd w0) in
  ((forall i, (r < i <= r + n)%nat -> clk i < u) ->
   actuator_sm.moving clk 1 u (S r + n) w) /\
  ((exists i, (r < i <= r + n)%nat /\ u <= clk i) ->
   actuator_sm.resting w).
Proof.
  intros clk r u w.
  assert (H1 : actuator_sm.moving clk 1 u (S r) (actuator_sm.jog_fwd w0))
    by (apply (sm_start_move clk r 1 w0); auto).
  split.
  - intros Hlt. apply sm_steps_moving; [exact H1|].
    intros i Hi. apply Hlt. lia.
  - intros (i & Hi & Hge). apply (sm_steps_stopped clk 1 u n (S r)); [exact H1|].
    exists i. split; [lia|exact Hge].
Qed.

Lemma sm_move_ends_at_first_late_poll_witness :
  actuator_sm.moving (fun k => 500 * Z.of_nat k) 1 800 2
    (actuator_sm.steps 1 (actuator_sm.jog_fwd actuator_sm.example_idle)) /\
  actuator_sm.resting
    (actuator_sm.steps 2 (actuator_sm.jog_fwd actuator_sm.example_idle)).
Proof.
  split.
  - apply (proj1 (sm_move_ends_at_first_late_poll actuator_sm.example_idle 1)).
    intros i Hi. cbn in Hi. replace i with 1%nat by lia. reflexivity.
  - apply (proj2 (sm_move_ends_at_first_late_poll actuator_sm.example_idle 2)).
    exists 2%nat. split; [cbn; lia|]. cbv. discriminate.
Defined.

Lemma sm_init_resting (w : actuator_sm.world) :
  actuator_sm.resting (actuator_sm.init w).
Proof.
  unfold actuator_sm.init, control.stop_motor.
  pose proof (set_motor_dir false false (actuator_sm.ctl w)
                (actuator_sm.hw w)) as Hd.
  destruct (control.set_motor false false (actuator_sm.ctl w)
              (actuator_sm.hw w)) as [c' h'].
  split; [reflexivity|exact Hd].
Qed.

Lemma sm_exec_canonical (o : actuator_sm.op) (w : actuator_sm.world) :
  actuator_sm.canonical w -> actuator_sm.canonical (actuator_sm.exec o w).
Proof.
  intros Hc. destruct o; cbn [actuator_sm.exec].
  - left. apply sm_init_resting.
  - right. exists 1. eexists. split; [left; reflexivity|].
    pose proof (sm_start_move (hw_esp32.clock (actuator_sm.hw w))
                  (hw_esp32.reads (actuator_sm.hw w)) 1 w
                  (or_introl eq_refl) eq_refl eq_refl) as Hm.
    pose proof Hm as (_ & _ & Hclk & Hr).
    unfold actuator_sm.jog_fwd. rewrite Hclk, Hr. exact Hm.
  - right. exists (-1). eexists. split; [right; reflexivity|].
    pose proof (sm_start_move (hw_esp32.clock (actuator_sm.hw w))
                  (hw_esp32.reads (actuator_sm.hw w)) (-1) w
                  (or_intror eq_refl) eq_refl eq_refl) as Hm.
    pose proof Hm as (_ & _ & Hclk & Hr).
    unfold actuator_sm.jog_rev. rewrite Hclk, Hr. exact Hm.
  - destruct Hc as [Hrest | (d & u & Hd & Hm)].
    + rewrite sm_step_resting by exact Hrest. left; exact Hrest.
    + destruct (Z_lt_le_dec
                  (hw_esp32.clock (actuator_sm.hw w)
                     (hw_esp32.reads (actuator_sm.hw w))) u) as [Hlt|Hge].
      * right. exists d, u. split; [exact Hd|].
        pose proof (sm_step_pending _ d u _ w Hm Hlt) as Hp.
        pose proof Hp as (_ & _ & Hclk & Hr).
        rewrite Hclk, Hr. exact Hp.
      * left. apply (sm_step_done _ d u _ w Hm Hge).
Qed.

(** X20: in the timed-jog variant, from [init] on and after any
    sequence of calls, the machine is moving exactly when its direction
    is not 0, the deadline is set exactly while moving, the control
    layer tracks the same direction, and the display code is "MOV+" for
    +1, "MOV-" for -1 and "IDLE" at rest. *)
Theorem sm_direction_and_code_follow_state (w0 : actuator_sm.world)
    (ops : list actuator_sm.op) :
  let w := actuator_sm.run ops (actuator_sm.init w0) in
  (actuator_sm.is_moving w = true <-> actuator_sm.get_dir w <> 0) /\
  (actuator_sm._until_ms (actuator_sm.st w) = None <->
   actuator_sm.is_moving w = false) /\
  control.get_motor_dir (actuator_sm.ctl w) = actuator_sm.get_dir w /\
  (actuator_sm.get_ui_state w = "MOV+"%string <-> actuator_sm.get_dir w = 1) /\
  (actuator_sm.get_ui_state w = "MOV-"%string <-> actuator_sm.get_dir w = -1) /\
  (actuator_sm.get_ui_state w = "IDLE"%string <->
   actuator_sm.is_moving w = false).
Proof.
  intros w.
  assert (Hc : actuator_sm.canonical w).
  { unfold w. clear w.
    assert (H : forall l v, actuator_sm.canonical v ->
              actuator_sm.canonical (actuator_sm.run l v)).
    { induction l as [|o l IH]; intros v Hv; [exact Hv|].
      cbn [actuator_sm.run fold_left]. apply IH, sm_exec_canonical, Hv. }
    apply H. left. apply sm_init_resting. }
  unfold actuator_sm.is_moving, actuator_sm.get_dir, actuator_sm.get_ui_state,
    control.get_motor_dir.
  destruct Hc as [(Hst & Hm) | (d & u & Hd & (Hst & Hm & _))];
    rewrite Hst, Hm.
  - cbn. repeat split; intros; try discriminate; try reflexivity; try lia;
      intuition (try discriminate; try lia).
  - destruct Hd as [ -> | -> ]; cbn;
      repeat split; intros; try discriminate; try reflexivity; try lia;
      intuition (try discriminate; try lia).
Qed.

(* ===================================================================== *)
(** ** Buttons (buttons.py) *)

Lemma Button_poll_unchanged (S : Type) (b : buttons.Button) (t : Z)
    (cb : string -> S -> S) (s : S) :
  buttons.pin b = buttons.last_state b ->
  buttons.Button_poll S b t cb s = (b, s).
Proof.
  intros Hp. unfold buttons.Button_poll. rewrite Hp, Z.eqb_refl. reflexivity.
Qed.

Lemma Button_polls_unchanged (S : Type) (b : buttons.Button) (ts : list Z)
    (cb : string -> S -> S) (s : S) :
  buttons.pin b = buttons.last_state b ->
  buttons.Button_polls S b ts cb s = (b, s).
Proof.
  intros Hp. induction ts as [|t ts IH]; [reflexivity|].
  cbn [buttons.Button_polls]. rewrite Button_poll_unchanged by exact Hp.
  exact IH.
Qed.

(** X21: a press and release is classified by how long it lasted.  For
    a released button, pressing at [t0], holding through any number of
    polls and releasing at [t1] calls the callback exactly once, with
    [name_LONG] when [t1 - t0 >= long_ms] and with [name_SHORT] when
    [short_ms <= t1 - t0 < long_ms], and not at all when the press was
    shorter than [short_ms]; the press itself and the polls while held
    call nothing. *)
Theorem press_release_classified (S : Type) (cb : string -> S -> S)
    (b : buttons.Button) (t0 t1 v : Z) (held : list Z) (s : S) :
  buttons.last_state b <> 0 ->
  v <> 0 ->
  let '(b1, s1) := buttons.Button_poll S (buttons.with_pin 0 b) t0 cb s in
  let '(b2, s2) := buttons.Button_polls S b1 held cb s1 in
  let '(b3, s3) := buttons.Button_poll S (buttons.with_pin v b2) t1 cb s2 in
  s1 = s /\ s2 = s /\
  s3 = (if t1 - t0 >=? buttons.long_ms b
        then cb (buttons.name b ++ "_LONG")%string s
        else if t1 - t0 >=? buttons.short_ms b
             then cb (buttons.name b ++ "_SHORT")%string s
             else s) /\
  buttons.press_start_ms b3 = None /\
  buttons.last_state b3 = v.
Proof.
  intros Hrel Hv.
  unfold buttons.Button_poll at 1. cbn [buttons.with_pin buttons.pin
    buttons.last_state buttons.name buttons.short_ms buttons.long_ms].
  apply Z.eqb_neq in Hrel. rewrite Z.eqb_sym in Hrel.
  rewrite Hrel. cbn [negb Z.eqb].
  rewrite Button_polls_unchanged by reflexivity.
  unfold buttons.Button_poll. cbn [buttons.with_pin buttons.pin
    buttons.last_state buttons.name buttons.short_ms buttons.long_ms
    buttons.press_start_ms].
  apply Z.eqb_neq in Hv. rewrite Hv. cbn [negb].
  repeat split.
Qed.

Lemma press_release_classified_witness :
  let b := buttons.Button_init 1 "BTN1" in
  let cb := fun (e : string) (log : list string) => e :: log in
  let '(b1, s1) := buttons.Button_poll _ (buttons.with_pin 0 b) 1000 cb [] in
  let '(b2, s2) := buttons.Button_polls _ b1 [1100; 1200] cb s1 in
  let '(b3, s3) := buttons.Button_poll _ (buttons.with_pin 1 b2) 1900 cb s2 in
  s3 = ["BTN1_LONG"%string].
Proof.
  intros b cb.
  pose proof (press_release_classified (list string) cb b 1000 1900 1
                [1100; 1200] []) as H.
  destruct (buttons.Button_poll _ (buttons.with_pin 0 b) 1000 cb [])
    as [b1 s1].
  destruct (buttons.Button_polls _ b1 [1100; 1200] cb s1) as [b2 s2].
  destruct (buttons.Button_poll _ (buttons.with_pin 1 b2) 1900 cb s2)
    as [b3 s3].
  destruct H as (_ & _ & H3 & _); [discriminate|discriminate|exact H3].
Defined.

(** X22: a button that is already held down when its [Button] object is
    created produces no event when it is released, however long it was
    held: no press start was recorded. *)
Theorem held_at_creation_gives_no_event (S : Type) (cb : string -> S -> S)
    (nm : string) (t v : Z) (s : S) :
  v <> 0 ->
  snd (buttons.Button_poll S
         (buttons.with_pin v (buttons.Button_init 0 nm)) t cb s) = s.
Proof.
  intros Hv. unfold buttons.Button_poll. cbn.
  apply Z.eqb_neq in Hv. rewrite Hv. reflexivity.
Qed.

Lemma held_at_creation_gives_no_event_witness :
  snd (buttons.Button_poll (list string)
         (buttons.with_pin 1 (buttons.Button_init 0 "BTN2")) 5000
         (fun e log => e :: log) []) = [].
Proof.
  apply held_at_creation_gives_no_event. discriminate.
Defined.

(* ===================================================================== *)
(** ** Page selection and units (ui_controller.py, units.py) *)

Lemma presses_idx (n : nat) (s : ui_controller.state) :
  0 <= ui_controller._page_idx s < 3 ->
  ui_controller._page_idx (ui_controller.presses n s)
    = (ui_controller._page_idx s + Z.of_nat n) mod 3 /\
  ui_controller.units_mode (ui_controller.presses n s)
    = ui_controller.units_mode s.
Proof.
  revert s. induction n as [|n IH]; intros s Hs.
  - cbn [ui_controller.presses]. rewrite Z.add_0_r, Z.mod_small by lia.
    split; reflexivity.
  - cbn [ui_controller.presses].
    destruct (IH (ui_controller.next_page s)) as [Hi Hu].
    + cbn. apply Z.mod_pos_bound. lia.
    + rewrite Hi, Hu. cbn. split; [|reflexivity].
      rewrite Zplus_mod_idemp_l. f_equal. lia.
Qed.

(** X23: page cycling.  After [init] and [n] calls of [next_page] the
    current page is entry [n mod 3] of status, limits, debug; so
    [current_page_id] never fails with an index error and three presses
    lead back to the same page. *)
Theorem page_after_presses (s : ui_controller.state) (n : nat) :
  ui_controller.current_page_id
    (ui_controller.presses n (ui_controller.init s))
  = nth_error ui_controller._PAGES (n mod 3)%nat /\
  ui_controller.current_page_id
    (ui_controller.presses (n + 3) (ui_controller.init s))
  = ui_controller.current_page_id
      (ui_controller.presses n (ui_controller.init s)) /\
  ui_controller.current_page_id
    (ui_controller.presses n (ui_controller.init s)) <> None.
Proof.
  assert (Hidx : forall k,
            ui_controller.current_page_id
              (ui_controller.presses k (ui_controller.init s))
            = nth_error ui_controller._PAGES (k mod 3)%nat).
  { intros k. unfold ui_controller.current_page_id.
    destruct (presses_idx k (ui_controller.init s)) as [Hi _];
      [cbn; lia|].
    rewrite Hi. cbn [ui_controller.init ui_controller._page_idx].
    rewrite Z.add_0_l.
    assert (Hr : 0 <= Z.of_nat k mod 3 < 3) by (apply Z.mod_pos_bound; lia).
    unfold py_index. cbn [length ui_controller._PAGES Z.of_nat].
    change (Z.pos (Pos.of_succ_nat 2)) with 3.
    destruct (Z.leb_spec 0 (Z.of_nat k mod 3)); [|lia].
    destruct (Z.ltb_spec (Z.of_nat k mod 3) 3); [|lia].
    cbn [andb]. f_equal.
    change 3 with (Z.of_nat 3). rewrite <- Nat2Z.inj_mod.
    apply Nat2Z.id. }
  split; [apply Hidx|]. split.
  - rewrite !Hidx. f_equal.
    rewrite Nat.Div0.add_mod, Nat.Div0.mod_same, Nat.add_0_r.
    apply Nat.Div0.mod_mod.
  - rewrite Hidx.
    pose proof (Nat.mod_upper_bound n 3 ltac:(discriminate)) as Hb.
    apply nth_error_Some. cbn [length ui_controller._PAGES]. exact Hb.
Qed.

(** X24: the units toggle.  Whatever mode is stored, also a value that
    is neither METRIC nor USCS, one [toggle_units] leaves METRIC or
    USCS; from METRIC or USCS two toggles lead back; and the page
    selection is untouched. *)
Theorem toggle_units_switches (s : ui_controller.state) :
  let s1 := ui_controller.toggle_units s in
  (units.get_units (ui_controller.units_mode s1) = units.UNITS_METRIC \/
   units.get_units (ui_controller.units_mode s1) = units.UNITS_USCS) /\
  units.get_units (ui_controller.units_mode s1)
    <> units.get_units (ui_controller.units_mode s) /\
  ui_controller._page_idx s1 = ui_controller._page_idx s /\
  ui_controller.toggle_units (ui_controller.toggle_units s1) = s1 /\
  (units.units_name (ui_controller.units_mode s1) = "METRIC"%string <->
   units.units_name (ui_controller.units_mode s) = "USCS"%string).
Proof.
  destruct s as [i u]. unfold ui_controller.toggle_units, units.get_units,
    units.set_units, units.units_name, units.UNITS_METRIC, units.UNITS_USCS.
  cbn [ui_controller.units_mode ui_controller._page_idx].
  destruct (Z.eqb_spec u 0) as [->|Hne]; cbn.
  - repeat split; try discriminate; auto.
  - repeat split; try discriminate; auto.
Qed.

(* ===================================================================== *)
(** ** The template engine (ui_pages._expand_line) *)

Lemma len_nonneg (s : text) : 0 <= len s.
Proof. unfold len. lia. Qed.

Lemma len_app (a b : text) : len (a ++ b) = len a + len b.
Proof. unfold len. rewrite length_app. lia. Qed.

Lemma length_spaces (n : Z) : length (spaces n) = Z.to_nat n.
Proof. unfold spaces. apply repeat_length. Qed.

Lemma append_clamped_full (w : Z) (out s : text) :
  w <= len out -> ui_pages.append_clamped w out s = out.
Proof.
  intros Hf. destruct s as [|c s]; [reflexivity|].
  cbn [ui_pages.append_clamped].
  destruct (Z.geb_spec (len out) w); [reflexivity|lia].
Qed.

Lemma append_clamped_firstn (w : Z) (out s : text) :
  len out <= w ->
  ui_pages.append_clamped w out s
  = out ++ firstn (Z.to_nat w - length out) s.
Proof.
  revert out. induction s as [|c s IH]; intros out Hle.
  - cbn. rewrite firstn_nil, app_nil_r. reflexivity.
  - cbn [ui_pages.append_clamped].
    destruct (Z.geb_spec (len out) w) as [Hge|Hlt].
    + assert (Hz : (Z.to_nat w - length out = 0)%nat) by (unfold len in *; lia).
      rewrite Hz. cbn. rewrite app_nil_r. reflexivity.
    + rewrite IH by (rewrite len_app; unfold len in *; cbn; lia).
      rewrite length_app. cbn [length].
      assert (Hs : (Z.to_nat w - length out
                    = S (Z.to_nat w - (length out + 1)))%nat)
        by (unfold len in *; lia).
      rewrite Hs. cbn [firstn]. rewrite <- app_assoc. reflexivity.
Qed.

Lemma append_clamped_app (w : Z) (out a b : text) :
  ui_pages.append_clamped w out (a ++ b)
  = ui_pages.append_clamped w (ui_pages.append_clamped w out a) b.
Proof.
  revert out. induction a as [|c a IH]; intros out; [reflexivity|].
  cbn [app ui_pages.append_clamped].
  destruct (Z.geb_spec (len out) w) as [Hge|Hlt].
  - rewrite append_clamped_full by lia. reflexivity.
  - apply IH.
Qed.

Lemma expand_loop_full (fuel : nat) (ctx : dict) (w : Z) (rest out : text) :
  w <= len out -> ui_pages.expand_loop fuel ctx w rest out = out.
Proof.
  intros Hf. destruct fuel as [|fuel]; [reflexivity|].
  destruct rest as [|ch tail]; [reflexivity|].
  cbn [ui_pages.expand_loop].
  destruct (Z.ltb_spec (len out) w); [lia|reflexivity].
Qed.

Lemma find_char_first (c : ascii) (k more : text) :
  ~ In c k -> find_char c (k ++ c :: more) = Some (length k).
Proof.
  induction k as [|x k IH]; intros Hn.
  - cbn. rewrite Ascii.eqb_refl. reflexivity.
  - cbn [app find_char length].
    destruct (Ascii.eqb_spec x c) as [->|Hne].
    + exfalso. apply Hn. left. reflexivity.
    + rewrite IH; [reflexivity|]. intros Hin. apply Hn. right. exact Hin.
Qed.

Lemma find_char_none (c : ascii) (s : text) :
  ~ In c s -> find_char c s = None.
Proof.
  induction s as [|x s IH]; intros Hn; [reflexivity|].
  cbn [find_char].
  destruct (Ascii.eqb_spec x c) as [->|Hne].
  - exfalso. apply Hn. left. reflexivity.
  - rewrite IH; [reflexivity|]. intros Hin. apply Hn. right. exact Hin.
Qed.

Lemma skipn_past (k : text) (c : ascii) (rest : text) :
  skipn (S (length k)) (k ++ c :: rest) = rest.
Proof. induction k as [|x k IH]; [reflexivity|exact IH]. Qed.

(** Literal text is copied while there is room. *)
Lemma expand_loop_literal (ctx : dict) (w : Z) (s rest E : text) :
  ~ In "{"%char s ->
  (forall fuel out, (length rest <= fuel)%nat ->
     ui_pages.expand_loop fuel ctx w rest out
     = ui_pages.append_clamped w out E) ->
  forall fuel out, (length (s ++ rest) <= fuel)%nat ->
    ui_pages.expand_loop fuel ctx w (s ++ rest) out
    = ui_pages.append_clamped w out (s ++ E).
Proof.
  intros Hs Hrest. induction s as [|c s IH]; intros fuel out Hf.
  - apply Hrest. exact Hf.
  - cbn [app length] in *. destruct fuel as [|fuel]; [lia|].
    cbn [ui_pages.expand_loop ui_pages.append_clamped].
    destruct (Z.ltb_spec (len out) w) as [Hlt|Hge].
    + destruct (Z.geb_spec (len out) w); [lia|].
      destruct (Ascii.eqb_spec c "{"%char) as [->|Hne].
      * exfalso. apply Hs. left. reflexivity.
      * apply IH; [|lia]. intros Hin. apply Hs. right. exact Hin.
    + destruct (Z.geb_spec (len out) w); [reflexivity|lia].
Qed.

(** A token is replaced by its value, clamped to the room left. *)
Lemma expand_loop_token (ctx : dict) (w : Z) (key rest E : text) :
  ~ In "}"%char key ->
  (forall fuel out, (length rest <= fuel)%nat ->
     ui_pages.expand_loop fuel ctx w rest out
     = ui_pages.append_clamped w out E) ->
  forall fuel out,
    (length (ui_pages.piece_text (ui_pages.Tok key) ++ rest) <= fuel)%nat ->
    ui_pages.expand_loop fuel ctx w
      (ui_pages.piece_text (ui_pages.Tok key) ++ rest) out
    = ui_pages.append_clamped w out
        (ui_pages.piece_value ctx (ui_pages.Tok key) ++ E).
Proof.
  intros Hk Hrest fuel out Hf.
  cbn [ui_pages.piece_text ui_pages.piece_value app] in *.
  rewrite <- app_assoc in *. cbn [app] in *.
  destruct fuel as [|fuel]; [cbn in Hf; lia|].
  cbn [ui_pages.expand_loop].
  destruct (Z.ltb_spec (len out) w) as [Hlt|Hge].
  - cbn [Ascii.eqb Bool.eqb andb]. rewrite find_char_first by exact Hk.
    cbv zeta. rewrite firstn_app, firstn_all, Nat.sub_diag. cbn [firstn].
    rewrite app_nil_r.
    rewrite skipn_past, append_clamped_app.
    apply Hrest. cbn [length] in Hf. rewrite length_app in Hf. cbn in Hf. lia.
  - rewrite append_clamped_full by lia. reflexivity.
Qed.

Lemma expand_loop_template (ctx : dict) (w : Z) (ps : list ui_pages.piece) :
  Forall ui_pages.piece_ok ps ->
  forall fuel out, (length (ui_pages.template_text ps) <= fuel)%nat ->
    ui_pages.expand_loop fuel ctx w (ui_pages.template_text ps) out
    = ui_pages.append_clamped w out (ui_pages.template_value ctx ps).
Proof.
  induction 1 as [|p ps Hp Hps IH]; intros fuel out Hf.
  - cbn. destruct fuel; reflexivity.
  - unfold ui_pages.template_text, ui_pages.template_value in *.
    cbn [map concat] in *.
    destruct p as [s|key]; cbn [ui_pages.piece_ok] in Hp.
    + apply (expand_loop_literal ctx w s); assumption.
    + apply (expand_loop_token ctx w key); assumption.
Qed.

Lemma clamp_width (w : Z) (out : text) :
  length (slice_to w (out ++ spaces (w - len out))) =
  if 0 <=? w then Z.to_nat w else (length out - Z.to_nat (- w))%nat.
Proof.
  unfold slice_to.
  destruct (Z.leb_spec 0 w) as [Hw|Hw].
  - rewrite length_firstn, length_app, length_spaces. unfold len. lia.
  - assert (Hs : spaces (w - len out) = []).
    { unfold spaces. pose proof (len_nonneg out).
      replace (Z.to_nat (w - len out)) with 0%nat by lia. reflexivity. }
    rewrite Hs, app_nil_r, length_firstn. lia.
Qed.

(** [_expand_line] returns exactly [width] characters, whatever the
    template and the context hold ([width <= 0] gives the empty
    string); without a width it is [config.LCD_COLS] characters. *)
Lemma expand_line_length (tmpl : option text) (ctx : dict)
    (width : option Z) :
  length (ui_pages._expand_line tmpl ctx width) =
  Z.to_nat (match width with
            | Some w => w
            | None => config_lcd.LCD_COLS
            end).
Proof.
  unfold ui_pages._expand_line.
  set (w := match width with Some w => w | None => config_lcd.LCD_COLS end).
  set (t := match tmpl with Some t => t | None => [] end).
  rewrite clamp_width.
  destruct (Z.leb_spec 0 w) as [Hw|Hw]; [reflexivity|].
  assert (Ho : ui_pages.expand_loop (length t) ctx w t [] = []).
  { destruct t as [|c t]; [reflexivity|]. cbn [length ui_pages.expand_loop].
    destruct (Z.ltb_spec (len []) w) as [Hlt|_]; [cbn in Hlt; lia|reflexivity]. }
  rewrite Ho. cbn. lia.
Qed.

Lemma clamp_firstn (w : Z) (E : text) :
  0 <= w ->
  let out := ui_pages.append_clamped w [] E in
  slice_to w (out ++ spaces (w - len out)) = slice_to w (ljust w E).
Proof.
  intros Hw out. unfold out.
  rewrite append_clamped_firstn by (cbn; lia).
  cbn [app length]. rewrite Nat.sub_0_r.
  unfold slice_to, ljust.
  destruct (Z.leb_spec 0 w); [|lia].
  destruct (Nat.le_gt_cases (Z.to_nat w) (length E)) as [Hlong|Hshort].
  - rewrite !firstn_app.
    rewrite firstn_firstn, Nat.min_id.
    rewrite length_firstn, Nat.min_l by exact Hlong.
    rewrite Nat.sub_diag. cbn [firstn].
    replace (Z.to_nat w - length E)%nat with 0%nat by lia.
    cbn [firstn]. reflexivity.
  - rewrite (firstn_all2 E) by lia. reflexivity.
Qed.

(** X25: what [_expand_line] computes for a well-formed template.  For
    a template made of literal pieces without "{" and of [{KEY}] tokens
    whose keys hold no "}", the result is the text in which every token
    is replaced by [str(ctx.get(KEY, "?"))] -- a missing key gives "?",
    and values are not expanded again -- padded with spaces or cut to
    [width] characters. *)
Theorem expand_line_replaces_tokens (ps : list ui_pages.piece) (ctx : dict)
    (w : Z) :
  Forall ui_pages.piece_ok ps ->
  0 <= w ->
  ui_pages._expand_line (Some (ui_pages.template_text ps)) ctx (Some w)
  = slice_to w (ljust w (ui_pages.template_value ctx ps)).
Proof.
  intros Hok Hw. unfold ui_pages._expand_line.
  rewrite (expand_loop_template ctx w ps Hok) by apply Nat.le_refl.
  apply clamp_firstn. exact Hw.
Qed.

Lemma expand_line_replaces_tokens_witness :
  ui_pages._expand_line (Some (txt "SSR:{SSR} ACT:{ACT}"))
    [(txt "SSR", VStr (txt "OFF")); (txt "STEP", VInt 3)] (Some 16)
  = txt "SSR:OFF ACT:?   ".
Proof.
  apply (expand_line_replaces_tokens
           [ui_pages.Lit (txt "SSR:"); ui_pages.Tok (txt "SSR");
            ui_pages.Lit (txt " ACT:"); ui_pages.Tok (txt "ACT")]
           [(txt "SSR", VStr (txt "OFF")); (txt "STEP", VInt 3)] 16).
  - repeat constructor; cbn; intuition discriminate.
  - lia.
Defined.

Lemma expand_loop_no_close (ctx : dict) (w : Z) (rest : text) :
  ~ In "}"%char rest ->
  forall fuel out, (length rest <= fuel)%nat ->
    ui_pages.expand_loop fuel ctx w rest out
    = ui_pages.append_clamped w out rest.
Proof.
  induction rest as [|c rest IH]; intros Hn fuel out Hf.
  - destruct fuel; reflexivity.
  - destruct fuel as [|fuel]; [cbn in Hf; lia|].
    cbn [ui_pages.expand_loop ui_pages.append_clamped].
    assert (Hr : ~ In "}"%char rest) by (intros Hin; apply Hn; right; exact Hin).
    destruct (Z.ltb_spec (len out) w) as [Hlt|Hge].
    + destruct (Z.geb_spec (len out) w); [lia|].
      destruct (Ascii.eqb_spec c "{"%char) as [->|Hne].
      * rewrite find_char_none by exact Hr. apply IH; [exact Hr|cbn in Hf; lia].
      * apply IH; [exact Hr|cbn in Hf; lia].
    + destruct (Z.geb_spec (len out) w); [reflexivity|lia].
Qed.

(** X26: a template without any closing brace is copied as it stands,
    opening braces included, and padded or cut to [width]. *)
Theorem expand_line_without_closing_brace (tmpl : text) (ctx : dict) (w : Z) :
  ~ In "}"%char tmpl ->
  0 <= w ->
  ui_pages._expand_line (Some tmpl) ctx (Some w) = slice_to w (ljust w tmpl).
Proof.
  intros Hn Hw. unfold ui_pages._expand_line.
  rewrite (expand_loop_no_close ctx w tmpl Hn) by apply Nat.le_refl.
  apply clamp_firstn. exact Hw.
Qed.

Lemma expand_line_without_closing_brace_witness :
  ui_pages._expand_line (Some (txt "a{b {c")) [] (Some 8) = txt "a{b {c  ".
Proof.
  apply (expand_line_without_closing_brace (txt "a{b {c") [] 8).
  - cbn. intuition discriminate.
  - lia.
Defined.

(* ===================================================================== *)
(** ** Pages (ui_pages.render_page, ui_model) *)

Lemma length_clamped (w : Z) (s : text) :
  0 <= w -> length (slice_to w (ljust w s)) = Z.to_nat w.
Proof.
  intros Hw. unfold ljust. rewrite clamp_width.
  destruct (Z.leb_spec 0 w); [reflexivity|lia].
Qed.

Lemma format_temp_total (f : option Z -> Z -> pyfloat -> text)
    (u : units.state) (t : option pyfloat) :
  exists s, units.format_temp f u t = Ok s.
Proof.
  unfold units.format_temp.
  destruct t as [[|q]|]; destruct (u =? units.UNITS_METRIC);
    eexists; reflexivity.
Qed.

Lemma format_press_total (f : option Z -> Z -> pyfloat -> text)
    (u : units.state) (p : option pyfloat) :
  exists s, units.format_press f u p = Ok s.
Proof.
  unfold units.format_press.
  destruct p as [[|q]|]; destruct (u =? units.UNITS_METRIC);
    eexists; reflexivity.
Qed.

Lemma line_or_blank_length (lines : list text) (k : nat) (ctx : dict)
    (cols : Z) :
  length (ui_pages.line_or_blank lines k ctx cols) = Z.to_nat cols.
Proof.
  unfold ui_pages.line_or_blank.
  destruct (nth_error lines k).
  - apply (expand_line_length (Some t) ctx (Some cols)).
  - apply length_spaces.
Qed.

(** [_load_page_from_file] gives exactly four lines whenever the
    file can be read: the first four lines of the file, filled up with
    empty lines when the file is shorter. *)
Lemma load_page_gives_four_lines (raw : list text) :
  exists lines,
    ui_pages._load_page_from_file (ui_pages.FileLines raw)
      = ui_pages.Returns (Some lines) /\
    length lines = 4%nat /\
    forall k, (k < 4)%nat ->
      nth_error lines k =
      Some (match nth_error raw k with Some l => l | None => txt "" end).
Proof.
  unfold ui_pages._load_page_from_file.
  destruct raw as [|a [|b [|c [|d rest]]]]; cbn;
    eexists; (split; [reflexivity|]); (split; [reflexivity|]);
    intros k Hk;
    destruct k as [|[|[|[|k]]]]; try reflexivity; lia.
Qed.

(** X27: [render_page] returns a page whose four lines are each exactly
    [LCD_COLS] = 20 characters long, for every page id, reading and
    formatter, whenever the template file is absent ([open] raises
    [OSError]) or its text can be read.  For an id that is not one of
    the built-in pages the file is not opened: the first line reads
    "UNKNOWN PAGE" and the second "id=" followed by the id, both padded
    or cut to 20.  When [open] succeeds but [f.read()] raises, the
    exception leaves [render_page] for every built-in page. *)
Theorem render_page_four_full_lines
    (f : option Z -> Z -> pyfloat -> text) (cfg : config.t)
    (u : units.state) (file : ui_pages.file_read) (page_id : text)
    (temp_c pressure_kg : option pyfloat) (ssr_on : bool)
    (act_state : text) (step_idx step_count : Z)
    (message program_name debug_hint : text) :
  let known := ui_pages.default_page ui_pages._DEFAULT_PAGES page_id in
  let r := ui_pages.render_page f cfg u file page_id temp_c pressure_kg
             ssr_on act_state step_idx step_count message program_name
             debug_hint in
  (known = None \/ file <> ui_pages.ReadFails ->
   exists pg,
     r = ui_pages.Returns pg /\
     length (ui_pages.line1 pg) = 20%nat /\
     length (ui_pages.line2 pg) = 20%nat /\
     length (ui_pages.line3 pg) = 20%nat /\
     length (ui_pages.line4 pg) = 20%nat /\
     (known = None ->
      ui_pages.line1 pg = txt "UNKNOWN PAGE        " /\
      ui_pages.line2 pg = slice_to 20 (ljust 20 (txt "id=" ++ page_id)))) /\
  (known <> None -> file = ui_pages.ReadFails -> r = ui_pages.ReadError).
Proof.
  intros known r. subst known r.
  unfold ui_pages.render_page, ui_pages.build_context.
  destruct (ui_pages.default_page ui_pages._DEFAULT_PAGES page_id)
    as [meta|].
  - split.
    + intros [Hk|Hfile]; [discriminate Hk|].
      assert (Hload : exists fl,
                ui_pages._load_page_from_file file = ui_pages.Returns fl).
      { destruct file as [| |raw]; [eexists; reflexivity|congruence|].
        destruct (load_page_gives_four_lines raw) as (ls & -> & _).
        eexists; reflexivity. }
      destruct Hload as [fl ->].
      destruct (format_temp_total f u
                  (Some match temp_c with Some t => t | None => NaN end))
        as [ts ->].
      destruct (format_press_total f u
                  (Some match pressure_kg with Some p => p | None => NaN end))
        as [ps ->].
      cbn [bind]. eexists. split; [reflexivity|].
      cbn [ui_pages.line1 ui_pages.line2 ui_pages.line3 ui_pages.line4].
      rewrite !line_or_blank_length.
      do 4 (split; [reflexivity|]). intros H. discriminate H.
    + intros _ ->. reflexivity.
  - split.
    + intros _. eexists. split; [reflexivity|].
      cbn [ui_pages.line1 ui_pages.line2 ui_pages.line3 ui_pages.line4].
      rewrite length_spaces, !length_clamped
        by (unfold config_lcd.LCD_COLS; lia).
      do 4 (split; [reflexivity|]). intros _. split; reflexivity.
    + intros H. contradiction H. reflexivity.
Qed.

(** The status page from a two-line template file, and the same page
    when the file cannot be decoded. *)
Lemma render_page_four_full_lines_witness :
  (exists pg,
     ui_pages.render_page (fun _ _ _ => txt "1.0") config.reference
       units.initial
       (ui_pages.FileLines [txt "T={TEMP}"; txt "P={PRESS}"])
       (txt "status") (Some (Fin 80)) (Some NaN) false (txt "IDLE") 0 0
       (txt "") (txt "") (txt "") = ui_pages.Returns pg /\
     length (ui_pages.line1 pg) = 20%nat /\
     length (ui_pages.line4 pg) = 20%nat) /\
  ui_pages.render_page (fun _ _ _ => txt "1.0") config.reference
    units.initial ui_pages.ReadFails
    (txt "status") (Some (Fin 80)) (Some NaN) false (txt "IDLE") 0 0
    (txt "") (txt "") (txt "") = ui_pages.ReadError.
Proof.
  split.
  - destruct (render_page_four_full_lines (fun _ _ _ => txt "1.0")
                config.reference units.initial
                (ui_pages.FileLines [txt "T={TEMP}"; txt "P={PRESS}"])
                (txt "status") (Some (Fin 80)) (Some NaN) false (txt "IDLE")
                0 0 (txt "") (txt "") (txt "")) as [Hret _].
    destruct Hret as (pg & Hpg & H1 & _ & _ & H4 & _);
      [right; discriminate|].
    exists pg. split; [exact Hpg|]. split; assumption.
  - apply (render_page_four_full_lines (fun _ _ _ => txt "1.0")
             config.reference units.initial ui_pages.ReadFails
             (txt "status") (Some (Fin 80)) (Some NaN) false (txt "IDLE")
             0 0 (txt "") (txt "") (txt ""));
      [discriminate|reflexivity].
Defined.

(** [_fmt_fixed] returns exactly [width] characters for every
    value, absent and NaN included, whatever the formatter and the NaN
    text are: shorter text is padded on the right, longer text cut. *)
Theorem fmt_fixed_exact_width (f : option Z -> Z -> pyfloat -> text)
    (value : option pyfloat) (width prec : Z) (nan_text : text) :
  0 <= width ->
  length (ui_model._fmt_fixed f value width prec nan_text) = Z.to_nat width.
Proof.
  intros Hw. unfold ui_model._fmt_fixed.
  set (t := match value with
            | Some v => if is_nan v then nan_text else f None prec v
            | None => nan_text
            end).
  destruct (Z.ltb_spec (len t) width) as [Hlt|Hge].
  - rewrite length_app, length_spaces. unfold len in *. lia.
  - unfold slice_to. destruct (Z.leb_spec 0 width); [|lia].
    rewrite length_firstn. unfold len in *. lia.
Qed.

Lemma fmt_fixed_exact_width_witness :
  length (ui_model._fmt_fixed (fun _ _ _ => txt "121.04") (Some NaN) 5 1
            (txt "NaN")) = 5%nat.
Proof.
  apply (fmt_fixed_exact_width (fun _ _ _ => txt "121.04") (Some NaN) 5 1
           (txt "NaN")).
  lia.
Defined.

(* ===================================================================== *)
(** ** The LCD driver (i2c_hd44780.py) *)

Ltac mask_consts :=
  unfold i2c_hd44780._backlight_mask, i2c_hd44780._MASK_RS,
    i2c_hd44780._MASK_EN, i2c_hd44780._MASK_BL in *;
  change 0xFF with (Z.ones 8) in *;
  change 0xF0 with (Z.shiftl (Z.ones 4) 4) in *;
  change 0xF with (Z.ones 4) in *;
  change 0x01 with (2 ^ 0) in *;
  change 0x04 with (2 ^ 2) in *;
  change 0x08 with (2 ^ 3) in *.

Ltac bit_specs :=
  repeat (rewrite ?Z.land_spec, ?Z.lor_spec, ?Z.lnot_spec, ?Z.shiftl_spec,
            ?Z.shiftr_spec, ?Z.mul_pow2_bits, ?Z.testbit_ones,
            ?Z.pow2_bits_eqb, ?Z.bits_0 by lia).

Ltac cmp_cases :=
  repeat match goal with
         | |- context [?a <=? ?b] => destruct (Z.leb_spec a b)
         | |- context [?a <? ?b] => destruct (Z.ltb_spec a b)
         | |- context [?a =? ?b] => destruct (Z.eqb_spec a b)
         end.

Ltac bool_cases :=
  repeat match goal with
         | |- context [Z.testbit ?a ?i] =>
             let b := fresh "b" in
             remember (Z.testbit a i) as b; destruct b
         end.

(** The bits of the byte held on the bus while enable is high. *)
Lemma nibble_high_bits (n : Z) (rs bl : bool) (i : Z) :
  0 <= i ->
  Z.testbit
    (Z.land
       (Z.lor
          (Z.lor (if rs then Z.lor (Z.land n 0xF0) 0x01 else Z.land n 0xF0)
                 (if bl then 0x08 else 0))
          0x04)
       0xFF) i
  = (Z.testbit n i && (4 <=? i) && (i <? 8)) || (rs && (i =? 0))
    || (bl && (i =? 3)) || (i =? 2).
Proof.
  intros Hi. mask_consts.
  destruct rs, bl; bit_specs; cmp_cases; try lia;
    replace (i - 4 + 4) with i by lia;
    destruct (Z.testbit n i); try reflexivity;
    rewrite ?Z.testbit_neg_r by lia; reflexivity.
Qed.

(** The bits of the byte written when enable falls. *)
Lemma nibble_low_bits (n : Z) (rs bl : bool) (i : Z) :
  0 <= i ->
  Z.testbit
    (Z.land
       (Z.land
          (Z.lor (if rs then Z.lor (Z.land n 0xF0) 0x01 else Z.land n 0xF0)
                 (if bl then 0x08 else 0))
          (Z.lnot 0x04))
       0xFF) i
  = ((Z.testbit n i && (4 <=? i) && (i <? 8)) || (rs && (i =? 0))
     || (bl && (i =? 3))) && negb (i =? 2).
Proof.
  intros Hi. mask_consts.
  destruct rs, bl; bit_specs; cmp_cases; try lia;
    destruct (Z.testbit n i); try reflexivity;
    rewrite ?Z.testbit_neg_r by lia; reflexivity.
Qed.

Lemma byte_range (x : Z) : 0 <= Z.land x 0xFF < 256.
Proof.
  change 0xFF with (Z.ones 8). rewrite Z.land_ones by lia.
  apply Z.mod_pos_bound. lia.
Qed.

(** One nibble on the bus: enable high, pause, enable low, pause; the
    display takes the upper four bits of [nibble] with the flag [rs]. *)
Lemma latched_send_nibble (lcd : i2c_hd44780.I2cLcd) (n : Z) (rs : bool)
    (rest : list i2c_hd44780.io) :
  i2c_hd44780.latched None (i2c_hd44780._send_nibble lcd n rs ++ rest)
  = (rs, Z.land (Z.shiftr n 4) 0xF) :: i2c_hd44780.latched None rest.
Proof.
  unfold i2c_hd44780._send_nibble, i2c_hd44780._pulse_enable,
    i2c_hd44780._write_byte, i2c_hd44780._backlight_mask,
    i2c_hd44780._MASK_RS, i2c_hd44780._MASK_EN, i2c_hd44780._MASK_BL.
  cbn [app].
  pose proof (nibble_high_bits n rs (i2c_hd44780._backlight lcd)) as Hhi.
  pose proof (nibble_low_bits n rs (i2c_hd44780._backlight lcd) 2) as Hlo.
  match type of Hlo with
  | _ -> Z.testbit ?d _ = _ => set (d2 := d) in *
  end.
  match type of Hhi with
  | forall i, _ -> Z.testbit ?d _ = _ => set (d1 := d) in *
  end.
  cbn [i2c_hd44780.latched].
  rewrite (Hhi 2), Hlo by lia.
  change (2 =? 2) with true. rewrite Bool.orb_true_r, Bool.andb_false_r.
  rewrite (Hhi 0) by lia.
  change (4 <=? 0) with false. change (0 =? 0) with true.
  change (0 =? 3) with false. change (0 =? 2) with false.
  rewrite !Bool.andb_false_r, !Bool.andb_true_r, !Bool.orb_false_r.
  cbn [orb]. f_equal. f_equal.
  apply Z.bits_inj'. intros j Hj.
  rewrite !Z.land_spec, !Z.shiftr_spec by lia.
  rewrite (Hhi (j + 4)) by lia.
  change 0xF with (Z.ones 4). rewrite Z.testbit_ones by lia.
  cmp_cases; try lia; rewrite ?Bool.andb_false_r, ?Bool.andb_true_r,
    ?Bool.orb_false_r; reflexivity.
Qed.

Lemma nibbles_of_byte (v : Z) :
  Z.land (Z.shiftr (Z.land v 0xF0) 4) 0xF * 16
  + Z.land (Z.shiftr (Z.land (Z.shiftl v 4) 0xF0) 4) 0xF
  = Z.land v 0xFF.
Proof.
  set (A := Z.land (Z.shiftr (Z.land v 0xF0) 4) 0xF).
  set (B := Z.land (Z.shiftr (Z.land (Z.shiftl v 4) 0xF0) 4) 0xF).
  assert (HB : 0 <= B < 2 ^ 4).
  { unfold B. change 0xF with (Z.ones 4). rewrite Z.land_ones by lia.
    apply Z.mod_pos_bound. lia. }
  change 16 with (2 ^ 4).
  rewrite <- lor_multiple_small by lia.
  apply Z.bits_inj'. intros i Hi.
  rewrite Z.lor_spec, Z.mul_pow2_bits by lia.
  unfold A, B.
  change 0xFF with (Z.ones 8). change 0xF0 with (Z.shiftl (Z.ones 4) 4).
  change 0xF with (Z.ones 4).
  destruct (Z_lt_le_dec i 4) as [Hlt|Hge].
  - rewrite (Z.testbit_neg_r _ (i - 4)) by lia.
    bit_specs. replace (i + 4 - 4) with i by lia.
    cmp_cases; try lia; destruct (Z.testbit v i); reflexivity.
  - bit_specs. replace (i - 4 + 4) with i by lia.
    replace (i + 4 - 4) with i by lia.
    cmp_cases; try lia; destruct (Z.testbit v i); reflexivity.
Qed.

(** The display receives exactly the byte sent, with its flag. *)
Lemma received_send_byte (lcd : i2c_hd44780.I2cLcd) (v : Z) (rs : bool)
    (rest : list i2c_hd44780.io) :
  i2c_hd44780.latched None (i2c_hd44780._send_byte lcd v rs ++ rest)
  = (rs, Z.land (Z.shiftr (Z.land v 0xF0) 4) 0xF)
    :: (rs, Z.land (Z.shiftr (Z.land (Z.shiftl v 4) 0xF0) 4) 0xF)
    :: i2c_hd44780.latched None rest.
Proof.
  unfold i2c_hd44780._send_byte. rewrite <- app_assoc.
  rewrite !latched_send_nibble. reflexivity.
Qed.

Lemma io_bytes_send_nibble (lcd : i2c_hd44780.I2cLcd) (n : Z) (rs : bool) :
  Forall (fun e => match e with
                   | i2c_hd44780.I2cWrite a d =>
                       a = i2c_hd44780._addr lcd /\ 0 <= d < 256 /\
                       Z.testbit d 3 = i2c_hd44780._backlight lcd /\
                       Z.testbit d 1 = false
                   | i2c_hd44780.Sleep _ => True
                   end)
         (i2c_hd44780._send_nibble lcd n rs).
Proof.
  unfold i2c_hd44780._send_nibble, i2c_hd44780._pulse_enable,
    i2c_hd44780._write_byte, i2c_hd44780._backlight_mask,
    i2c_hd44780._MASK_RS, i2c_hd44780._MASK_EN, i2c_hd44780._MASK_BL.
  cbn [app].
  repeat constructor; try apply byte_range;
    rewrite ?nibble_high_bits, ?nibble_low_bits by lia;
    destruct (Z.testbit n _), rs, (i2c_hd44780._backlight lcd); reflexivity.
Qed.

(** X28: [_send_byte] as seen from the display.  The byte goes out as
    four bus writes -- each nibble with enable high, then low -- and the
    display, which takes a nibble when enable falls, receives exactly
    the low eight bits of [value] together with the register-select
    flag.  Every bus write goes to the LCD's address, is a byte, keeps
    the read/write line low and carries the backlight setting. *)
Theorem send_byte_round_trip (lcd : i2c_hd44780.I2cLcd) (value : Z)
    (rs : bool) :
  i2c_hd44780.received (i2c_hd44780._send_byte lcd value rs)
    = [(rs, Z.land value 0xFF)] /\
  length (i2c_hd44780._send_byte lcd value rs) = 8%nat /\
  Forall (fun e => match e with
                   | i2c_hd44780.I2cWrite a d =>
                       a = i2c_hd44780._addr lcd /\ 0 <= d < 256 /\
                       Z.testbit d 3 = i2c_hd44780._backlight lcd /\
                       Z.testbit d 1 = false
                   | i2c_hd44780.Sleep _ => True
                   end)
         (i2c_hd44780._send_byte lcd value rs).
Proof.
  split; [|split].
  - unfold i2c_hd44780.received.
    rewrite <- (app_nil_r (i2c_hd44780._send_byte lcd value rs)).
    rewrite received_send_byte. cbn [i2c_hd44780.latched
      i2c_hd44780.pair_nibbles].
    rewrite nibbles_of_byte. reflexivity.
  - reflexivity.
  - unfold i2c_hd44780._send_byte. apply Forall_app.
    split; apply io_bytes_send_nibble.
Qed.








(* ===================================================================== *)
(** ** Button events in main.py *)

Lemma on_button_event_long (evt : string) (w : main.world) :
  evt = "BTN1_LONG"%string \/ evt = "BTN2_LONG"%string ->
  main.on_button_event evt w =
  {| main.console := main.console w ++ [txt "Button event: " ++ txt evt];
     main.ui := main.ui w;
     main.act := actuator.jog_fwd (main.act w) |}.
Proof.
  intros [ -> | -> ]; reflexivity.
Qed.

(** X30: from a button to the motor.  On the board, with the actuator
    idle, pressing BTN1 or BTN2 and releasing it at least 800 ms later
    (by the two ticks the polls read) starts the same cycle: the
    actuator is in EXTEND with direction +1 and a deadline 10 s after
    the tick [_start_phase] reads, the event is printed, and page and
    units are untouched.  A press of less than 800 ms leaves the
    actuator's state as it was. *)
Theorem long_press_starts_cycle (i : nat) (w : main.world) :
  (i < 2)%nat ->
  actuator._state (actuator.st (main.act w)) = "IDLE"%string ->
  let clk := hw_esp32.clock (actuator.hw (main.act w)) in
  let r := hw_esp32.reads (actuator.hw (main.act w)) in
  let w' := snd (main.press_and_release i w) in
  (800 <= clk (S r) - clk r ->
   actuator.at_phase clk "EXTEND" 1
     (Some (clk (S (S r)) + actuator.AUTO_EXTEND_MS)) (S (S (S r)))
     (main.act w') /\
   main.ui w' = main.ui w /\
   main.console w' =
     main.console w ++
     [txt "Button event: " ++
      txt (nth i ["BTN1_LONG"; "BTN2_LONG"] "")%string]) /\
  (clk (S r) - clk r < 800 ->
   actuator.st (main.act w') = actuator.st (main.act w) /\
   actuator.ctl (main.act w') = actuator.ctl (main.act w)).
Proof.
  intros Hi Hidle clk r w'.
  assert (Hcases : i = 0%nat \/ i = 1%nat) by lia.
  destruct w as [con u [ast actl [rh ssr mf mr adc spi cs clk0 rd]]].
  cbn in Hidle, clk, r. subst clk r.
  unfold w', main.press_and_release, main.buttons_poll, main.board_buttons,
    buttons.init, buttons.set_callback, buttons.ButtonManager_init,
    buttons.set_pin, buttons.ButtonManager_poll, hw_esp32.ticks_ms.
  clear w'.
  split.
  - intros Hlong.
    destruct Hcases as [ -> | -> ];
      cbn -[main.on_button_event Z.sub Z.geb actuator.jog_fwd txt];
      (destruct (Z.geb_spec (clk0 (S rd) - clk0 rd) 800) as [_|Hlt]; [|lia]);
      rewrite on_button_event_long by auto;
      cbn -[actuator.jog_fwd txt];
      (split; [|split; reflexivity]);
      apply jog_from_idle; try reflexivity; exact Hidle.
  - intros Hshort.
    destruct Hcases as [ -> | -> ];
      cbn -[main.on_button_event Z.sub Z.geb];
      (destruct (Z.geb_spec (clk0 (S rd) - clk0 rd) 800) as [Hge|_]; [lia|]);
      destruct (clk0 (S rd) - clk0 rd >=? 50); split; reflexivity.
Qed.

Lemma long_press_starts_cycle_witness :
  actuator._state
    (actuator.st (main.act (snd (main.press_and_release 0 main.example))))
  = "EXTEND"%string /\
  actuator._state
    (actuator.st (main.act (snd (main.press_and_release 1 main.example))))
  = "EXTEND"%string.
Proof.
  split.
  - destruct (long_press_starts_cycle 0 main.example) as [Hl _];
      [lia|reflexivity|].
    destruct Hl as [(Hst & _) _]; [cbv; discriminate|].
    rewrite Hst. reflexivity.
  - destruct (long_press_starts_cycle 1 main.example) as [Hl _];
      [lia|reflexivity|].
    destruct Hl as [(Hst & _) _]; [cbv; discriminate|].
    rewrite Hst. reflexivity.
Defined.
(* ===================================================================== *)
(** ** Rounding to the nearest float (ieee.round) *)

Lemma pow2_pos (e : Z) : (0 < ieee.pow2 e)%Q.
Proof. apply Qpower_0_lt. reflexivity. Qed.

Lemma pow2_add (a b : Z) :
  (ieee.pow2 (a + b) == ieee.pow2 a * ieee.pow2 b)%Q.
Proof. apply Qpower_plus. discriminate. Qed.

Lemma pow2_le (a b : Z) : a <= b -> (ieee.pow2 a <= ieee.pow2 b)%Q.
Proof. intros H. apply Qpower_le_compat_l; [exact H|discriminate]. Qed.

Lemma pow2_lt (a b : Z) : a < b -> (ieee.pow2 a < ieee.pow2 b)%Q.
Proof. intros H. apply Qpower_lt_compat_l; [exact H|reflexivity]. Qed.

Lemma pow2_lt_inv (a b : Z) : (ieee.pow2 a < ieee.pow2 b)%Q -> a < b.
Proof. intros H. apply (Qpower_lt_compat_l_inv 2); [exact H|reflexivity]. Qed.

Lemma pow2_Z (n : Z) : 0 <= n -> (inject_Z (2 ^ n) == ieee.pow2 n)%Q.
Proof. intros H. apply (Zpower_Qpower 2 n H). Qed.

Lemma pow2_0 : (ieee.pow2 0 == 1)%Q.
Proof. reflexivity. Qed.

(** [x / 2^e * 2^e] and [x * 2^e / 2^e]. *)
Lemma div_mul_pow2 (x : Q) (e : Z) : (x / ieee.pow2 e * ieee.pow2 e == x)%Q.
Proof.
  pose proof (pow2_pos e) as H. field. intros H0. rewrite H0 in H.
  discriminate.
Qed.

Lemma mul_div_pow2 (x : Q) (e : Z) : (x * ieee.pow2 e / ieee.pow2 e == x)%Q.
Proof.
  pose proof (pow2_pos e) as H. field. intros H0. rewrite H0 in H.
  discriminate.
Qed.

Lemma div_pow2_le (x y : Q) (e : Z) :
  (x <= y)%Q -> (x / ieee.pow2 e <= y / ieee.pow2 e)%Q.
Proof.
  intros H. unfold Qdiv. apply Qmult_le_compat_r; [exact H|].
  apply Qlt_le_weak, Qinv_lt_0_compat, pow2_pos.
Qed.

Lemma inject_Z_sub (a b : Z) : (inject_Z (a - b) == inject_Z a - inject_Z b)%Q.
Proof. unfold Z.sub. rewrite inject_Z_plus, inject_Z_opp. reflexivity. Qed.

(** The floor is the only integer [z] with [z <= x < z + 1]. *)
Lemma Qfloor_unique (x : Q) (z : Z) :
  (inject_Z z <= x)%Q -> (x < inject_Z (z + 1))%Q -> Qfloor x = z.
Proof.
  intros Hlo Hhi.
  pose proof (Qfloor_le x) as H1. pose proof (Qlt_floor x) as H2.
  assert (Ha : (inject_Z (Qfloor x) < inject_Z (z + 1))%Q)
    by (eapply Qle_lt_trans; eassumption).
  assert (Hb : (inject_Z z < inject_Z (Qfloor x + 1))%Q)
    by (eapply Qle_lt_trans; eassumption).
  rewrite <- Zlt_Qlt in Ha, Hb. lia.
Qed.

Lemma nearest_even_comp (x y : Q) :
  (x == y)%Q -> ieee.nearest_even x = ieee.nearest_even y.
Proof.
  intros H. unfold ieee.nearest_even.
  rewrite (Qfloor_comp _ _ H).
  assert (H' : (x - inject_Z (Qfloor y) ?= 1 # 2)%Q
               = (y - inject_Z (Qfloor y) ?= 1 # 2)%Q)
    by (rewrite H; reflexivity).
  rewrite H'. reflexivity.
Qed.

Lemma nearest_even_Z (z : Z) : ieee.nearest_even (inject_Z z) = z.
Proof.
  unfold ieee.nearest_even. rewrite Qfloor_Z.
  assert (H : (inject_Z z - inject_Z z ?= 1 # 2)%Q = Lt).
  { apply Qlt_alt. setoid_replace (inject_Z z - inject_Z z)%Q with 0%Q by ring.
    reflexivity. }
  rewrite H. reflexivity.
Qed.

(** The nearest integer lies between the floor and the floor plus one. *)
Lemma nearest_even_bounds (x : Q) :
  Qfloor x <= ieee.nearest_even x <= Qfloor x + 1.
Proof.
  unfold ieee.nearest_even.
  destruct (_ ?= _)%Q; [destruct (Z.even _)| |]; lia.
Qed.

Lemma nearest_even_mono (x y : Q) :
  (x <= y)%Q -> ieee.nearest_even x <= ieee.nearest_even y.
Proof.
  intros Hxy.
  pose proof (Qfloor_resp_le _ _ Hxy) as Hf.
  destruct (Z.eq_dec (Qfloor x) (Qfloor y)) as [E|NE].
  - unfold ieee.nearest_even. rewrite E.
    assert (Hd : (x - inject_Z (Qfloor y) <= y - inject_Z (Qfloor y))%Q) by lra.
    destruct (x - inject_Z (Qfloor y) ?= 1 # 2)%Q eqn:Cx;
      destruct (y - inject_Z (Qfloor y) ?= 1 # 2)%Q eqn:Cy;
      try destruct (Z.even (Qfloor y)); try lia;
      first [ apply Qeq_alt in Cx | apply Qlt_alt in Cx | apply Qgt_alt in Cx ];
      first [ apply Qeq_alt in Cy | apply Qlt_alt in Cy | apply Qgt_alt in Cy ];
      lra.
  - pose proof (nearest_even_bounds x). pose proof (nearest_even_bounds y).
    lia.
Qed.

Lemma nearest_even_opp (x : Q) :
  ieee.nearest_even (- x) = - ieee.nearest_even x.
Proof.
  pose proof (Qfloor_le x) as Hlo. pose proof (Qlt_floor x) as Hhi.
  rewrite inject_Z_plus in Hhi. change (inject_Z 1) with 1%Q in Hhi.
  destruct (Qeq_dec x (inject_Z (Qfloor x))) as [E|NE].
  - rewrite (nearest_even_comp x _ E).
    assert (E' : (- x == inject_Z (- Qfloor x))%Q).
    { rewrite inject_Z_opp, <- E. reflexivity. }
    rewrite (nearest_even_comp _ _ E'), !nearest_even_Z. reflexivity.
  - assert (Hlt : (inject_Z (Qfloor x) < x)%Q).
    { apply Qle_lteq in Hlo. destruct Hlo as [H|H]; [exact H|].
      symmetry in H. contradiction. }
    assert (Hf : Qfloor (- x) = - Qfloor x - 1).
    { apply Qfloor_unique.
      - rewrite inject_Z_sub, inject_Z_opp.
        change (inject_Z 1) with 1%Q. lra.
      - replace (- Qfloor x - 1 + 1) with (- Qfloor x) by lia.
        rewrite inject_Z_opp. lra. }
    unfold ieee.nearest_even. rewrite Hf.
    set (f := Qfloor x) in *.
    assert (Hi : (inject_Z (- f - 1) == - inject_Z f - 1)%Q).
    { rewrite inject_Z_sub, inject_Z_opp. reflexivity. }
    destruct (x - inject_Z f ?= 1 # 2)%Q eqn:Cx;
      destruct (- x - inject_Z (- f - 1) ?= 1 # 2)%Q eqn:Cy;
      first [ apply Qeq_alt in Cx | apply Qlt_alt in Cx | apply Qgt_alt in Cx ];
      first [ apply Qeq_alt in Cy | apply Qlt_alt in Cy | apply Qgt_alt in Cy ];
      rewrite Hi in Cy; try (exfalso; lra).
    + rewrite Z.even_sub, Z.even_opp. cbn [Z.even].
      destruct (Z.even f); cbn; lia.
    + lia.
    + lia.
Qed.

(** [ilog2 q] is the exponent of the binade of a positive [q]. *)
Lemma ilog2_spec (q : Q) :
  (0 < q)%Q ->
  (ieee.pow2 (ieee.ilog2 q) <= q)%Q /\ (q < ieee.pow2 (ieee.ilog2 q + 1))%Q.
Proof.
  intros Hq. destruct q as [n d].
  assert (Hn : 0 < n) by (unfold Qlt in Hq; cbn in Hq; lia).
  unfold ieee.ilog2. cbn [Qnum Qden].
  set (a := Z.log2 n). set (b := Z.log2 (Z.pos d)).
  destruct (Z.log2_spec n Hn) as [Ha1 Ha2]. fold a in Ha1, Ha2.
  destruct (Z.log2_spec (Z.pos d) eq_refl) as [Hb1 Hb2]. fold b in Hb1, Hb2.
  assert (Ha0 : 0 <= a) by apply Z.log2_nonneg.
  assert (Hb0 : 0 <= b) by apply Z.log2_nonneg.
  rewrite <- Z.add_1_r in Ha2, Hb2.
  rewrite Zle_Qle, pow2_Z in Ha1, Hb1 by lia.
  rewrite Zlt_Qlt, pow2_Z in Ha2, Hb2 by lia.
  set (N := inject_Z n) in *. set (D := inject_Z (Z.pos d)) in *.
  assert (HD : (0 < D)%Q) by reflexivity.
  assert (Hq' : (n # d == N / D)%Q) by apply Qmake_Qdiv.
  assert (HqD : ((n # d) * D == N)%Q).
  { rewrite Hq'. field. intros H0. rewrite H0 in HD. discriminate. }
  pose proof (pow2_pos (a - b - 1)) as Hp1.
  pose proof (pow2_pos (a - b + 1)) as Hp2.
  assert (E1 : (ieee.pow2 (a - b - 1) * ieee.pow2 (b + 1) == ieee.pow2 a)%Q).
  { rewrite <- pow2_add. replace (a - b - 1 + (b + 1)) with a by lia.
    reflexivity. }
  assert (E2 : (ieee.pow2 (a - b + 1) * ieee.pow2 b == ieee.pow2 (a + 1))%Q).
  { rewrite <- pow2_add. replace (a - b + 1 + b) with (a + 1) by lia.
    reflexivity. }
  assert (Hlo : (ieee.pow2 (a - b - 1) < n # d)%Q).
  { apply Qnot_le_lt. intros Hc.
    assert (Hx : ((n # d) * D <= ieee.pow2 (a - b - 1) * D)%Q)
      by (apply Qmult_le_compat_r; [exact Hc|lra]).
    assert (Hy : (ieee.pow2 (a - b - 1) * D
                  < ieee.pow2 (a - b - 1) * ieee.pow2 (b + 1))%Q)
      by (apply Qmult_lt_l; assumption).
    lra. }
  assert (Hhi : (n # d < ieee.pow2 (a - b + 1))%Q).
  { apply Qnot_le_lt. intros Hc.
    assert (Hx : (ieee.pow2 (a - b + 1) * D <= (n # d) * D)%Q)
      by (apply Qmult_le_compat_r; [exact Hc|lra]).
    assert (Hy : (ieee.pow2 (a - b + 1) * ieee.pow2 b
                  <= ieee.pow2 (a - b + 1) * D)%Q)
      by (apply Qmult_le_l; assumption).
    lra. }
  destruct (Qle_bool (ieee.pow2 (a - b)) (n # d)) eqn:E.
  - apply Qle_bool_iff in E. split; assumption.
  - assert (Hlt : (n # d < ieee.pow2 (a - b))%Q).
    { apply Qnot_le_lt. intros Hc. apply Qle_bool_iff in Hc. congruence. }
    replace (a - b - 1 + 1) with (a - b) by lia.
    split; [apply Qlt_le_weak; exact Hlo|exact Hlt].
Qed.

Lemma ilog2_unique (q : Q) (k : Z) :
  (ieee.pow2 k <= q)%Q -> (q < ieee.pow2 (k + 1))%Q -> ieee.ilog2 q = k.
Proof.
  intros Hlo Hhi.
  assert (Hq : (0 < q)%Q)
    by (eapply Qlt_le_trans; [apply (pow2_pos k)|exact Hlo]).
  destruct (ilog2_spec q Hq) as [Jlo Jhi].
  assert (H1 : ieee.ilog2 q < k + 1).
  { apply pow2_lt_inv. eapply Qle_lt_trans; eassumption. }
  assert (H2 : k < ieee.ilog2 q + 1).
  { apply pow2_lt_inv. eapply Qle_lt_trans; eassumption. }
  lia.
Qed.

Lemma ilog2_mono (p q : Q) :
  (0 < p)%Q -> (p <= q)%Q -> ieee.ilog2 p <= ieee.ilog2 q.
Proof.
  intros Hp Hpq.
  assert (Hq : (0 < q)%Q) by lra.
  destruct (ilog2_spec p Hp) as [Plo _].
  destruct (ilog2_spec q Hq) as [_ Qhi].
  assert (H : ieee.ilog2 p < ieee.ilog2 q + 1).
  { apply pow2_lt_inv. lra. }
  lia.
Qed.

Lemma ilog2_comp (p q : Q) :
  (0 < p)%Q -> (p == q)%Q -> ieee.ilog2 p = ieee.ilog2 q.
Proof.
  intros Hp E. destruct (ilog2_spec p Hp) as [Plo Phi].
  symmetry. apply ilog2_unique; rewrite <- E; assumption.
Qed.

(** The unit in the last place of a positive [q]: [q] has at most
    [prec] bits above it, and exactly [prec] in the normal range. *)
Lemma exponent_spec (fmt : ieee.format) (q : Q) :
  (0 < q)%Q ->
  let e := ieee.exponent fmt q in
  ieee.emin fmt <= e /\
  (q < ieee.pow2 (e + ieee.prec fmt))%Q /\
  (ieee.emin fmt < e -> (ieee.pow2 (e + ieee.prec fmt - 1) <= q)%Q).
Proof.
  intros Hq e. subst e. unfold ieee.exponent.
  assert (Ha : (Qabs q == q)%Q) by (apply Qabs_pos; lra).
  rewrite (ilog2_comp (Qabs q) q) by (rewrite ?Ha; auto with qarith).
  destruct (ilog2_spec q Hq) as [Hlo Hhi].
  split; [lia|]. split.
  - eapply Qlt_le_trans; [exact Hhi|]. apply pow2_le. lia.
  - intros He.
    replace (Z.max (ieee.ilog2 q - ieee.prec fmt + 1) (ieee.emin fmt)
             + ieee.prec fmt - 1) with (ieee.ilog2 q) by lia.
    exact Hlo.
Qed.

Lemma exponent_mono (fmt : ieee.format) (p q : Q) :
  (0 < p)%Q -> (p <= q)%Q -> ieee.exponent fmt p <= ieee.exponent fmt q.
Proof.
  intros Hp Hpq. unfold ieee.exponent.
  assert (Hq : (0 < q)%Q) by lra.
  assert (H : ieee.ilog2 (Qabs p) <= ieee.ilog2 (Qabs q)).
  { apply ilog2_mono.
    - rewrite Qabs_pos; lra.
    - rewrite !Qabs_pos; lra. }
  lia.
Qed.

Lemma exponent_comp (fmt : ieee.format) (p q : Q) :
  ~ (p == 0)%Q -> (p == q)%Q -> ieee.exponent fmt p = ieee.exponent fmt q.
Proof.
  intros Hp E. unfold ieee.exponent.
  rewrite (ilog2_comp (Qabs p) (Qabs q)); [reflexivity| |rewrite E; reflexivity].
  pose proof (Qabs_nonneg p) as Hn. apply Qle_lteq in Hn.
  destruct Hn as [Hn|Hn]; [exact Hn|].
  exfalso. apply Hp. symmetry in Hn.
  destruct (Qabs_Qle_condition p 0) as [Hc _].
  destruct Hc as [Hc1 Hc2]; [rewrite Hn; apply Qle_refl|].
  lra.
Qed.

Lemma exponent_opp (fmt : ieee.format) (q : Q) :
  ieee.exponent fmt (- q) = ieee.exponent fmt q.
Proof.
  unfold ieee.exponent. destruct q as [n d]. cbn [Qopp Qabs Qnum Qden].
  rewrite Z.abs_opp. reflexivity.
Qed.

Lemma round_finite_value (fmt : ieee.format) (q : Q) :
  (ieee.round_finite fmt q ==
   inject_Z (ieee.nearest_even (q / ieee.pow2 (ieee.exponent fmt q)))
   * ieee.pow2 (ieee.exponent fmt q))%Q.
Proof. unfold ieee.round_finite. cbv zeta. apply Qred_correct. Qed.

(** The results of rounding are reduced fractions, so equal values are
    equal terms. *)
Lemma round_finite_canonical (fmt : ieee.format) (q x : Q) :
  (ieee.round_finite fmt q == x)%Q -> ieee.round_finite fmt q = Qred x.
Proof.
  intros H. unfold ieee.round_finite in *. cbv zeta in *.
  rewrite <- (Qred_complete _ _ H).
  symmetry. apply Qred_complete, Qred_correct.
Qed.

Lemma round_finite_eq (fmt : ieee.format) (p q : Q) :
  (ieee.round_finite fmt p == ieee.round_finite fmt q)%Q ->
  ieee.round_finite fmt p = ieee.round_finite fmt q.
Proof.
  intros H. rewrite (round_finite_canonical fmt p _ H).
  symmetry. apply round_finite_canonical. reflexivity.
Qed.

Lemma round_finite_zero (fmt : ieee.format) (q : Q) :
  (q == 0)%Q -> ieee.round_finite fmt q = 0%Q.
Proof.
  intros H. change 0%Q with (Qred 0). apply round_finite_canonical.
  rewrite round_finite_value.
  assert (E : (q / ieee.pow2 (ieee.exponent fmt q) == inject_Z 0)%Q).
  { generalize (ieee.pow2 (ieee.exponent fmt q)). intros p.
    rewrite H. unfold Qdiv. ring. }
  rewrite (nearest_even_comp _ _ E), nearest_even_Z. ring.
Qed.

Lemma round_finite_opp (fmt : ieee.format) (q : Q) :
  (ieee.round_finite fmt (- q) == - ieee.round_finite fmt q)%Q.
Proof.
  rewrite !round_finite_value, exponent_opp.
  set (p := ieee.pow2 (ieee.exponent fmt q)).
  assert (E : (- q / p == - (q / p))%Q) by (unfold Qdiv; ring).
  rewrite (nearest_even_comp _ _ E), nearest_even_opp, inject_Z_opp. ring.
Qed.

(** The significand of a positive [q]: at most [2 ^ prec], and at least
    [2 ^ (prec - 1)] in the normal range. *)
Lemma significand_bounds (fmt : ieee.format) (q : Q) :
  1 <= ieee.prec fmt ->
  (0 < q)%Q ->
  let e := ieee.exponent fmt q in
  let m := ieee.nearest_even (q / ieee.pow2 e) in
  0 <= m <= 2 ^ ieee.prec fmt /\
  (ieee.emin fmt < e -> 2 ^ (ieee.prec fmt - 1) <= m).
Proof.
  intros Hprec Hq e m.
  destruct (exponent_spec fmt q Hq) as (He & Hhi & Hlo). fold e in He, Hhi, Hlo.
  pose proof (pow2_pos e) as Hpe.
  assert (Hs0 : (inject_Z 0 <= q / ieee.pow2 e)%Q).
  { change (inject_Z 0) with 0%Q. apply Qlt_le_weak, Qlt_shift_div_l; lra. }
  assert (Hs1 : (q / ieee.pow2 e <= inject_Z (2 ^ ieee.prec fmt))%Q).
  { rewrite pow2_Z by lia. apply Qlt_le_weak, Qlt_shift_div_r; [exact Hpe|].
    rewrite <- pow2_add, Z.add_comm. exact Hhi. }
  split.
  - split.
    + rewrite <- (nearest_even_Z 0). apply nearest_even_mono, Hs0.
    + rewrite <- (nearest_even_Z (2 ^ ieee.prec fmt)).
      apply nearest_even_mono, Hs1.
  - intros Hn. specialize (Hlo Hn).
    rewrite <- (nearest_even_Z (2 ^ (ieee.prec fmt - 1))).
    apply nearest_even_mono. rewrite pow2_Z by lia.
    apply Qle_shift_div_l; [exact Hpe|].
    rewrite <- pow2_add.
    replace (ieee.prec fmt - 1 + e) with (e + ieee.prec fmt - 1) by lia.
    exact Hlo.
Qed.

Lemma round_finite_nonneg (fmt : ieee.format) (q : Q) :
  1 <= ieee.prec fmt -> (0 <= q)%Q -> (0 <= ieee.round_finite fmt q)%Q.
Proof.
  intros Hprec Hq. apply Qle_lteq in Hq. destruct Hq as [Hq|Hq].
  - rewrite round_finite_value.
    destruct (significand_bounds fmt q Hprec Hq) as [[Hm _] _].
    apply Qmult_le_0_compat.
    + change 0%Q with (inject_Z 0). rewrite <- Zle_Qle. exact Hm.
    + apply Qlt_le_weak, pow2_pos.
  - rewrite round_finite_zero by (symmetry; exact Hq). apply Qle_refl.
Qed.

Lemma round_finite_mono_pos (fmt : ieee.format) (p q : Q) :
  1 <= ieee.prec fmt ->
  (0 < p)%Q -> (p <= q)%Q ->
  (ieee.round_finite fmt p <= ieee.round_finite fmt q)%Q.
Proof.
  intros Hprec Hp Hpq.
  assert (Hq : (0 < q)%Q) by lra.
  rewrite !round_finite_value.
  pose proof (exponent_mono fmt p q Hp Hpq) as He.
  destruct (significand_bounds fmt p Hprec Hp) as [[_ Hmp] _].
  destruct (significand_bounds fmt q Hprec Hq) as [_ Hmq].
  destruct (exponent_spec fmt p Hp) as (Hep & _).
  set (e1 := ieee.exponent fmt p) in *. set (e2 := ieee.exponent fmt q) in *.
  set (m1 := ieee.nearest_even (p / ieee.pow2 e1)) in *.
  set (m2 := ieee.nearest_even (q / ieee.pow2 e2)) in *.
  destruct (Z.eq_dec e1 e2) as [E|NE].
  - subst m1 m2. rewrite E.
    apply Qmult_le_compat_r; [|apply Qlt_le_weak, pow2_pos].
    rewrite <- Zle_Qle. apply nearest_even_mono, div_pow2_le, Hpq.
  - assert (Hlt : e1 < e2) by lia.
    assert (H2 : 2 ^ (ieee.prec fmt - 1) <= m2) by (apply Hmq; lia).
    apply Qle_trans with (ieee.pow2 (ieee.prec fmt + e1)).
    + rewrite pow2_add, <- (pow2_Z (ieee.prec fmt)) by lia.
      apply Qmult_le_compat_r; [|apply Qlt_le_weak, pow2_pos].
      rewrite <- Zle_Qle. exact Hmp.
    + apply Qle_trans with (ieee.pow2 (ieee.prec fmt - 1 + e2)).
      * apply pow2_le. lia.
      * rewrite pow2_add, <- (pow2_Z (ieee.prec fmt - 1)) by lia.
        apply Qmult_le_compat_r; [|apply Qlt_le_weak, pow2_pos].
        rewrite <- Zle_Qle. exact H2.
Qed.

(** Rounding is monotone. *)
Lemma round_finite_mono (fmt : ieee.format) (p q : Q) :
  1 <= ieee.prec fmt ->
  (p <= q)%Q -> (ieee.round_finite fmt p <= ieee.round_finite fmt q)%Q.
Proof.
  intros Hprec Hpq.
  destruct (Qlt_le_dec 0 p) as [Hp|Hp].
  - apply round_finite_mono_pos; assumption.
  - assert (Hrp : (ieee.round_finite fmt p <= 0)%Q).
    { assert (H : (0 <= ieee.round_finite fmt (- p))%Q)
        by (apply round_finite_nonneg; [exact Hprec|lra]).
      rewrite round_finite_opp in H. lra. }
    destruct (Qlt_le_dec q 0) as [Hq|Hq].
    + assert (H : (ieee.round_finite fmt (- q) <= ieee.round_finite fmt (- p))%Q)
        by (apply round_finite_mono_pos; [exact Hprec|lra|lra]).
      rewrite !round_finite_opp in H. lra.
    + pose proof (round_finite_nonneg fmt q Hprec Hq). lra.
Qed.

Lemma round_finite_comp (fmt : ieee.format) (p q : Q) :
  (p == q)%Q -> ieee.round_finite fmt p = ieee.round_finite fmt q.
Proof.
  intros E. destruct (Qeq_dec p 0) as [Hz|Hnz].
  - rewrite (round_finite_zero fmt p Hz).
    rewrite (round_finite_zero fmt q); [reflexivity|].
    rewrite <- E. exact Hz.
  - apply round_finite_eq. rewrite !round_finite_value.
    rewrite <- (exponent_comp fmt p q Hnz E).
    set (e := ieee.exponent fmt p).
    assert (E' : (p / ieee.pow2 e == q / ieee.pow2 e)%Q) by (rewrite E; reflexivity).
    rewrite (nearest_even_comp _ _ E'). reflexivity.
Qed.

(** A value with at most [prec] significant bits above a unit not below
    [2 ^ emin] is a value of the format: rounding returns it. *)
Lemma round_finite_exact_pos (fmt : ieee.format) (m e : Z) :
  1 <= ieee.prec fmt ->
  ieee.emin fmt <= e ->
  0 < m < 2 ^ ieee.prec fmt ->
  (ieee.round_finite fmt (inject_Z m * ieee.pow2 e)
   == inject_Z m * ieee.pow2 e)%Q.
Proof.
  intros Hprec He Hm.
  set (x := (inject_Z m * ieee.pow2 e)%Q).
  pose proof (pow2_pos e) as Hpe.
  assert (Hm0 : (0 < inject_Z m)%Q).
  { change 0%Q with (inject_Z 0). rewrite <- Zlt_Qlt. lia. }
  assert (Hx : (0 < x)%Q) by (apply Qmult_lt_0_compat; assumption).
  assert (Hxhi : (x < ieee.pow2 (ieee.prec fmt + e))%Q).
  { unfold x. rewrite pow2_add, <- (pow2_Z (ieee.prec fmt)) by lia.
    apply Qmult_lt_compat_r; [exact Hpe|]. rewrite <- Zlt_Qlt. lia. }
  assert (He' : ieee.exponent fmt x <= e).
  { unfold ieee.exponent.
    assert (Ha : (Qabs x == x)%Q) by (apply Qabs_pos; lra).
    rewrite (ilog2_comp (Qabs x) x) by (rewrite ?Ha; auto with qarith).
    destruct (ilog2_spec x Hx) as [Hlo _].
    assert (ieee.ilog2 x < ieee.prec fmt + e).
    { apply pow2_lt_inv. lra. }
    lia. }
  rewrite round_finite_value. fold x.
  set (e' := ieee.exponent fmt x) in *.
  assert (Hs : (x / ieee.pow2 e' == inject_Z (m * 2 ^ (e - e')))%Q).
  { rewrite inject_Z_mult, pow2_Z by lia. unfold x.
    replace e with ((e - e') + e') at 1 by lia.
    rewrite pow2_add. pose proof (pow2_pos e') as Hpe'. field.
    intros H0. rewrite H0 in Hpe'. discriminate. }
  rewrite (nearest_even_comp _ _ Hs), nearest_even_Z.
  rewrite inject_Z_mult, pow2_Z by lia.
  unfold x. rewrite <- Qmult_assoc, <- pow2_add.
  replace (e - e' + e') with e by lia. reflexivity.
Qed.

Lemma round_finite_exact (fmt : ieee.format) (m e : Z) :
  1 <= ieee.prec fmt ->
  ieee.emin fmt <= e ->
  0 <= m <= 2 ^ ieee.prec fmt ->
  (ieee.round_finite fmt (inject_Z m * ieee.pow2 e)
   == inject_Z m * ieee.pow2 e)%Q.
Proof.
  intros Hprec He Hm.
  destruct (Z.eq_dec m 0) as [->|Hm0].
  - rewrite round_finite_zero; [|ring]. ring.
  - destruct (Z.eq_dec m (2 ^ ieee.prec fmt)) as [->|Hm1].
    + assert (E : (inject_Z (2 ^ ieee.prec fmt) * ieee.pow2 e
                   == inject_Z (2 ^ (ieee.prec fmt - 1)) * ieee.pow2 (e + 1))%Q).
      { rewrite !pow2_Z, <- !pow2_add by lia. f_equiv. lia. }
      rewrite (round_finite_comp fmt _ _ E), E.
      apply round_finite_exact_pos; [exact Hprec|lia|].
      split; [apply Z.pow_pos_nonneg; lia|].
      apply Z.pow_lt_mono_r; lia.
    + apply round_finite_exact_pos; [exact Hprec|exact He|lia].
Qed.

(** Rounding a rounded value changes nothing. *)
Lemma round_finite_idempotent (fmt : ieee.format) (q : Q) :
  1 <= ieee.prec fmt ->
  ieee.round_finite fmt (ieee.round_finite fmt q) = ieee.round_finite fmt q.
Proof.
  intros Hprec.
  assert (Hpos : forall x, (0 < x)%Q ->
            ieee.round_finite fmt (ieee.round_finite fmt x)
            = ieee.round_finite fmt x).
  { intros x Hx. apply round_finite_eq.
    destruct (significand_bounds fmt x Hprec Hx) as [Hm _].
    destruct (exponent_spec fmt x Hx) as (He & _).
    rewrite (round_finite_comp fmt _ _ (round_finite_value fmt x)).
    rewrite round_finite_exact by assumption.
    symmetry. apply round_finite_value. }
  destruct (Qlt_le_dec 0 q) as [Hq|Hq]; [apply Hpos, Hq|].
  apply Qle_lteq in Hq. destruct Hq as [Hq|Hq].
  - apply round_finite_eq.
    assert (Hn : (0 < - q)%Q) by lra.
    assert (E : (ieee.round_finite fmt q == - ieee.round_finite fmt (- q))%Q).
    { rewrite round_finite_opp. ring. }
    rewrite (round_finite_comp fmt _ _ E), round_finite_opp.
    rewrite (Hpos _ Hn). symmetry. exact E.
  - rewrite (round_finite_zero fmt q Hq).
    apply round_finite_zero. reflexivity.
Qed.

Lemma ieee_le_Finite (a b : Q) :
  ieee.le (ieee.Finite a) (ieee.Finite b) = true <-> (a <= b)%Q.
Proof.
  unfold ieee.le. destruct (a ?= b)%Q eqn:E.
  - apply Qeq_alt in E. split; [intros _; lra|reflexivity].
  - apply Qlt_alt in E. split; [intros _; lra|reflexivity].
  - apply Qgt_alt in E. split; [discriminate|lra].
Qed.

Lemma ieee_lt_Finite (a b : Q) :
  ieee.lt (ieee.Finite a) (ieee.Finite b) = true <-> (a < b)%Q.
Proof.
  unfold ieee.lt. destruct (a ?= b)%Q eqn:E.
  - apply Qeq_alt in E. split; [discriminate|lra].
  - apply Qlt_alt in E. split; [intros _; exact E|reflexivity].
  - apply Qgt_alt in E. split; [discriminate|lra].
Qed.

Lemma ieee_lt_Finite_false (a b : Q) :
  ieee.lt (ieee.Finite a) (ieee.Finite b) = false <-> (b <= a)%Q.
Proof.
  pose proof (ieee_lt_Finite a b) as H.
  destruct (ieee.lt (ieee.Finite a) (ieee.Finite b)).
  - split; [discriminate|]. intros Hba.
    assert (a < b)%Q by (apply H; reflexivity). lra.
  - split; [|reflexivity]. intros _.
    apply Qnot_lt_le. intros Hab. apply H in Hab. discriminate.
Qed.

Lemma ieee_le_Finite_false (a b : Q) :
  ieee.le (ieee.Finite a) (ieee.Finite b) = false <-> (b < a)%Q.
Proof.
  pose proof (ieee_le_Finite a b) as H.
  destruct (ieee.le (ieee.Finite a) (ieee.Finite b)).
  - split; [discriminate|]. intros Hba.
    assert (a <= b)%Q by (apply H; reflexivity). lra.
  - split; [|reflexivity]. intros _.
    apply Qnot_le_lt. intros Hab. apply H in Hab. discriminate.
Qed.

Lemma negative_q_false (q : Q) : (0 <= q)%Q -> ieee.negative_q q = false.
Proof.
  intros H. unfold ieee.negative_q.
  apply Qle_bool_iff in H. rewrite H. reflexivity.
Qed.

Lemma negative_q_true (q : Q) : (q < 0)%Q -> ieee.negative_q q = true.
Proof.
  intros H. unfold ieee.negative_q.
  destruct (Qle_bool 0 q) eqn:E; [|reflexivity].
  apply Qle_bool_iff in E. lra.
Qed.

(** [round] returns a finite value exactly when the rounded magnitude is
    below [2 ^ emax]. *)
Lemma round_Finite (fmt : ieee.format) (q r : Q) :
  ieee.round fmt q = ieee.Finite r <->
  r = ieee.round_finite fmt q /\ (Qabs r < ieee.pow2 (ieee.emax fmt))%Q.
Proof.
  unfold ieee.round. cbv zeta.
  destruct (Qle_bool (ieee.pow2 (ieee.emax fmt))
              (Qabs (ieee.round_finite fmt q))) eqn:E.
  - apply Qle_bool_iff in E. split; [discriminate|].
    intros [-> H]. lra.
  - split.
    + intros H. injection H as <-. split; [reflexivity|].
      apply Qnot_le_lt. intros Hc. apply Qle_bool_iff in Hc. congruence.
    + intros [-> _]. reflexivity.
Qed.

Lemma round_comp (fmt : ieee.format) (p q : Q) :
  (p == q)%Q -> ieee.round fmt p = ieee.round fmt q.
Proof.
  intros E. unfold ieee.round. rewrite (round_finite_comp fmt p q E).
  reflexivity.
Qed.

(** Rounding is monotone, overflow included. *)
Lemma round_mono (fmt : ieee.format) (p q : Q) :
  1 <= ieee.prec fmt ->
  (p <= q)%Q -> ieee.le (ieee.round fmt p) (ieee.round fmt q) = true.
Proof.
  intros Hprec Hpq.
  pose proof (round_finite_mono fmt p q Hprec Hpq) as Hm.
  pose proof (pow2_pos (ieee.emax fmt)) as Hpe.
  unfold ieee.round. cbv zeta.
  set (a := ieee.round_finite fmt p) in *.
  set (b := ieee.round_finite fmt q) in *.
  destruct (Qle_bool (ieee.pow2 (ieee.emax fmt)) (Qabs a)) eqn:Ea;
    destruct (Qle_bool (ieee.pow2 (ieee.emax fmt)) (Qabs b)) eqn:Eb.
  - apply Qle_bool_iff in Ea, Eb.
    destruct (Qlt_le_dec a 0) as [Ha|Ha].
    + rewrite (negative_q_true a Ha). reflexivity.
    + rewrite (negative_q_false a Ha).
      rewrite Qabs_pos in Ea by exact Ha.
      rewrite negative_q_false by lra. reflexivity.
  - apply Qle_bool_iff in Ea.
    assert (Hb : (Qabs b < ieee.pow2 (ieee.emax fmt))%Q).
    { apply Qnot_le_lt. intros Hc. apply Qle_bool_iff in Hc. congruence. }
    apply Qabs_Qlt_condition in Hb.
    destruct (Qlt_le_dec a 0) as [Ha|Ha].
    + rewrite (negative_q_true a Ha). reflexivity.
    + rewrite Qabs_pos in Ea by exact Ha. exfalso. lra.
  - apply Qle_bool_iff in Eb.
    assert (Ha : (Qabs a < ieee.pow2 (ieee.emax fmt))%Q).
    { apply Qnot_le_lt. intros Hc. apply Qle_bool_iff in Hc. congruence. }
    apply Qabs_Qlt_condition in Ha.
    destruct (Qlt_le_dec b 0) as [Hb|Hb].
    + rewrite Qabs_neg in Eb by lra. exfalso. lra.
    + rewrite (negative_q_false b Hb). reflexivity.
  - apply ieee_le_Finite. exact Hm.
Qed.

(** A float is returned unchanged by rounding. *)
Lemma round_idempotent (fmt : ieee.format) (q r x : Q) :
  1 <= ieee.prec fmt ->
  ieee.round fmt q = ieee.Finite r ->
  (x == r)%Q -> ieee.round fmt x = ieee.Finite r.
Proof.
  intros Hprec H E. apply round_Finite in H. destruct H as [Hr Hb].
  rewrite (round_comp fmt x r E).
  apply round_Finite. split; [|exact Hb].
  rewrite Hr. symmetry. apply round_finite_idempotent, Hprec.
Qed.

Lemma round_0 (fmt : ieee.format) : ieee.round fmt 0 = ieee.Finite 0.
Proof.
  apply round_Finite. split.
  - symmetry. apply round_finite_zero. reflexivity.
  - apply pow2_pos.
Qed.

Lemma round_1 (fmt : ieee.format) :
  ieee.valid fmt -> ieee.round fmt 1 = ieee.Finite 1.
Proof.
  intros (Hprec & Hemin & Hemax).
  apply round_Finite. split.
  - assert (E : (1 == inject_Z (2 ^ (ieee.prec fmt - 1))
                      * ieee.pow2 (1 - ieee.prec fmt))%Q).
    { rewrite pow2_Z, <- pow2_add by lia.
      replace (ieee.prec fmt - 1 + (1 - ieee.prec fmt)) with 0 by lia.
      reflexivity. }
    change 1%Q with (Qred 1) at 1. symmetry.
    apply round_finite_canonical.
    rewrite (round_finite_comp fmt 1 _ E).
    rewrite round_finite_exact; [symmetry; exact E|exact Hprec|exact Hemin|].
    split; [apply Z.pow_nonneg; lia|apply Z.pow_le_mono_r; lia].
  - change (Qabs 1) with (ieee.pow2 0). apply pow2_lt. lia.
Qed.

(** A value between two whose roundings are finite rounds to a finite
    value between them. *)
Lemma round_between (fmt : ieee.format) (p q r a c : Q) :
  1 <= ieee.prec fmt ->
  (p <= q)%Q -> (q <= r)%Q ->
  ieee.round fmt p = ieee.Finite a ->
  ieee.round fmt r = ieee.Finite c ->
  exists b, ieee.round fmt q = ieee.Finite b /\ (a <= b <= c)%Q.
Proof.
  intros Hprec Hpq Hqr Hp Hr.
  pose proof (round_mono fmt p q Hprec Hpq) as H1.
  pose proof (round_mono fmt q r Hprec Hqr) as H2.
  rewrite Hp in H1. rewrite Hr in H2.
  destruct (ieee.round fmt q) as [|[|]|b]; try discriminate.
  exists b. split; [reflexivity|].
  apply ieee_le_Finite in H1, H2. split; assumption.
Qed.

(* ===================================================================== *)
(** ** Pressure mapping in machine arithmetic
       (sensors._map_voltage_to_kgcm2) *)

Section RoundedPressureMapping.

Variable fmt : ieee.format.
Variable cfg : config.t.
Variables vmin vmax pmin pmax s sp top : Q.

Hypothesis Hfmt : ieee.valid fmt.

(** The four calibration constants are finite floats. *)
Hypothesis Hvmin :
  sensors_fp.literal fmt (config.PRESSURE_V_PIN_MIN cfg) = ieee.Finite vmin.
Hypothesis Hvmax :
  sensors_fp.literal fmt (config.PRESSURE_V_PIN_MAX cfg) = ieee.Finite vmax.
Hypothesis Hpmin :
  sensors_fp.literal fmt (config.PRESSURE_P_MIN_KGCM2 cfg) = ieee.Finite pmin.
Hypothesis Hpmax :
  sensors_fp.literal fmt (config.PRESSURE_P_MAX_KGCM2 cfg) = ieee.Finite pmax.

(** The voltage span as computed is finite and positive; the pressure
    span and the top of the range as computed are finite. *)
Hypothesis Hs :
  ieee.sub fmt (ieee.Finite vmax) (ieee.Finite vmin) = ieee.Finite s.
Hypothesis Hs0 : (0 < s)%Q.
Hypothesis Hsp :
  ieee.sub fmt (ieee.Finite pmax) (ieee.Finite pmin) = ieee.Finite sp.
Hypothesis Htop :
  ieee.add fmt (ieee.Finite pmin) (ieee.Finite sp) = ieee.Finite top.

Lemma rounded_map_unfold (v : ieee.t) :
  sensors_fp._map_voltage_to_kgcm2 fmt cfg v =
  (ratio <- ieee.div fmt (ieee.sub fmt v (ieee.Finite vmin)) (ieee.Finite s) ;;
   Ok (ieee.add fmt (ieee.Finite pmin)
         (ieee.mul fmt (sensors_fp.clamped ratio) (ieee.Finite sp)))).
Proof.
  unfold sensors_fp._map_voltage_to_kgcm2, sensors_fp.clamped. cbv zeta.
  rewrite Hvmin, Hvmax, Hpmin, Hpmax, Hs, Hsp.
  rewrite (proj2 (ieee_le_Finite_false s 0) Hs0). reflexivity.
Qed.

Lemma div_by_span (x : Q) :
  ieee.div fmt (ieee.Finite x) (ieee.Finite s) = Ok (ieee.round fmt (x / s)).
Proof.
  unfold ieee.div. destruct (Qeq_bool s 0) eqn:E; [|reflexivity].
  apply Qeq_bool_iff in E. lra.
Qed.

Lemma div_infinity_by_span (b : bool) :
  ieee.div fmt (ieee.Infinity b) (ieee.Finite s) = Ok (ieee.Infinity b).
Proof.
  unfold ieee.div. destruct (Qeq_bool s 0) eqn:E.
  - apply Qeq_bool_iff in E. lra.
  - rewrite negative_q_false by lra. rewrite Bool.xorb_false_r. reflexivity.
Qed.

Lemma mul_zero_span (r : Q) :
  (r == 0)%Q ->
  ieee.mul fmt (ieee.Finite r) (ieee.Finite sp) = ieee.Finite 0.
Proof.
  intros E. cbn [ieee.mul]. rewrite (round_comp fmt (r * sp) 0).
  - apply round_0.
  - rewrite E. ring.
Qed.

Lemma mul_one_span (r : Q) :
  (r == 1)%Q ->
  ieee.mul fmt (ieee.Finite r) (ieee.Finite sp) = ieee.Finite sp.
Proof.
  pose proof (proj1 Hfmt) as Hprec.
  intros E. cbn [ieee.mul].
  apply (round_idempotent fmt (pmax - pmin)); [exact Hprec|exact Hsp|].
  rewrite E. ring.
Qed.

Lemma add_zero_pmin (x : Q) :
  (x == 0)%Q ->
  ieee.add fmt (ieee.Finite pmin) (ieee.Finite x) = ieee.Finite pmin.
Proof.
  pose proof (proj1 Hfmt) as Hprec.
  intros E. cbn [ieee.add].
  apply (round_idempotent fmt (config.PRESSURE_P_MIN_KGCM2 cfg));
    [exact Hprec|exact Hpmin|].
  rewrite E. ring.
Qed.

(** Ratio at or below zero: the result is [P_MIN]. *)
Lemma rounded_map_of_low_ratio (ratio : ieee.t) :
  ieee.le ratio (ieee.Finite 0) = true ->
  ieee.add fmt (ieee.Finite pmin)
    (ieee.mul fmt (sensors_fp.clamped ratio) (ieee.Finite sp)) = ieee.Finite pmin.
Proof.
  intros Hle. unfold sensors_fp.clamped.
  destruct ratio as [|b|r]; [discriminate| |].
  - cbn in Hle. subst b. cbn [ieee.lt].
    rewrite mul_zero_span by reflexivity. apply add_zero_pmin. reflexivity.
  - apply ieee_le_Finite in Hle.
    destruct (ieee.lt (ieee.Finite r) (ieee.Finite 0)) eqn:E0.
    + rewrite mul_zero_span by reflexivity. apply add_zero_pmin. reflexivity.
    + apply ieee_lt_Finite_false in E0.
      unfold ieee.gt.
      rewrite (proj2 (ieee_lt_Finite_false 1 r)) by lra.
      rewrite mul_zero_span by lra. apply add_zero_pmin. reflexivity.
Qed.

(** Ratio at or above one: the result is the top of the range. *)
Lemma rounded_map_of_high_ratio (ratio : ieee.t) :
  ieee.le (ieee.Finite 1) ratio = true ->
  ieee.add fmt (ieee.Finite pmin)
    (ieee.mul fmt (sensors_fp.clamped ratio) (ieee.Finite sp)) = ieee.Finite top.
Proof.
  intros Hle. unfold sensors_fp.clamped, ieee.gt.
  destruct ratio as [|b|r]; [discriminate| |].
  - cbn in Hle. destruct b; [discriminate|]. cbn [ieee.lt negb].
    rewrite mul_one_span by reflexivity. exact Htop.
  - apply ieee_le_Finite in Hle.
    rewrite (proj2 (ieee_lt_Finite_false r 0)) by lra.
    destruct (ieee.lt (ieee.Finite 1) (ieee.Finite r)) eqn:E1.
    + rewrite mul_one_span by reflexivity. exact Htop.
    + apply ieee_lt_Finite_false in E1.
      rewrite mul_one_span by lra. exact Htop.
Qed.

Lemma rounded_map_below (v : ieee.t) :
  ieee.le v (ieee.Finite vmin) = true ->
  sensors_fp._map_voltage_to_kgcm2 fmt cfg v = Ok (ieee.Finite pmin).
Proof.
  pose proof (proj1 Hfmt) as Hprec.
  intros Hv. rewrite rounded_map_unfold.
  assert (Hd : exists d,
            ieee.sub fmt v (ieee.Finite vmin) = d /\
            ieee.le d (ieee.Finite 0) = true).
  { destruct v as [|b|a]; [discriminate| |].
    - cbn in Hv. subst b. eexists. split; reflexivity.
    - apply ieee_le_Finite in Hv. eexists. split; [reflexivity|].
      cbn [ieee.sub]. rewrite <- (round_0 fmt).
      apply round_mono; [exact Hprec|lra]. }
  destruct Hd as (d & -> & Hd).
  destruct d as [|b|d]; [discriminate| |].
  - cbn in Hd. subst b. rewrite div_infinity_by_span. cbn [bind].
    rewrite rounded_map_of_low_ratio; reflexivity.
  - apply ieee_le_Finite in Hd. rewrite div_by_span. cbn [bind].
    rewrite rounded_map_of_low_ratio; [reflexivity|].
    rewrite <- (round_0 fmt). apply round_mono; [exact Hprec|].
    apply Qle_shift_div_r; lra.
Qed.

Lemma rounded_map_above (v : ieee.t) :
  ieee.ge v (ieee.Finite vmax) = true ->
  sensors_fp._map_voltage_to_kgcm2 fmt cfg v = Ok (ieee.Finite top).
Proof.
  pose proof (proj1 Hfmt) as Hprec.
  unfold ieee.ge. intros Hv. rewrite rounded_map_unfold.
  assert (Hd : exists d,
            ieee.sub fmt v (ieee.Finite vmin) = d /\
            ieee.le (ieee.Finite s) d = true).
  { destruct v as [|b|a]; [discriminate| |].
    - cbn in Hv. destruct b; [discriminate|]. eexists. split; reflexivity.
    - apply ieee_le_Finite in Hv. eexists. split; [reflexivity|].
      cbn [ieee.sub]. rewrite <- Hs. cbn [ieee.sub].
      apply round_mono; [exact Hprec|lra]. }
  destruct Hd as (d & -> & Hd).
  destruct d as [|b|d]; [discriminate| |].
  - cbn in Hd. destruct b; [discriminate|].
    rewrite div_infinity_by_span. cbn [bind].
    rewrite rounded_map_of_high_ratio; reflexivity.
  - apply ieee_le_Finite in Hd. rewrite div_by_span. cbn [bind].
    rewrite rounded_map_of_high_ratio; [reflexivity|].
    rewrite <- (round_1 fmt Hfmt). apply round_mono; [exact Hprec|].
    apply Qle_shift_div_l; lra.
Qed.

(** Inside the calibrated range the ratio needs no clamping. *)
Lemma rounded_map_within (v : ieee.t) :
  ieee.le (ieee.Finite vmin) v = true ->
  ieee.le v (ieee.Finite vmax) = true ->
  exists r,
    ieee.div fmt (ieee.sub fmt v (ieee.Finite vmin)) (ieee.Finite s)
      = Ok (ieee.Finite r) /\
    (0 <= r <= 1)%Q /\
    sensors_fp._map_voltage_to_kgcm2 fmt cfg v =
      Ok (ieee.add fmt (ieee.Finite pmin)
            (ieee.mul fmt (ieee.Finite r) (ieee.Finite sp))).
Proof.
  pose proof (proj1 Hfmt) as Hprec.
  intros Hlo Hhi. rewrite rounded_map_unfold.
  destruct v as [|b|a]; [discriminate| |].
  - cbn in Hlo, Hhi. subst b. discriminate.
  - apply ieee_le_Finite in Hlo, Hhi.
    destruct (round_between fmt 0 (a - vmin) (vmax - vmin) 0 s Hprec)
      as (d & Hd & Hd0 & Hd1); [lra|lra|apply round_0|exact Hs|].
    cbn [ieee.sub]. rewrite Hd, div_by_span.
    destruct (round_between fmt 0 (d / s) 1 0 1 Hprec)
      as (r & Hr & Hr0 & Hr1);
      [apply Qle_shift_div_l; lra|apply Qle_shift_div_r; lra
      |apply round_0|apply round_1, Hfmt|].
    exists r. rewrite Hr. split; [reflexivity|]. split; [split; assumption|].
    cbn [bind]. unfold sensors_fp.clamped, ieee.gt.
    rewrite (proj2 (ieee_lt_Finite_false r 0)) by lra.
    rewrite (proj2 (ieee_lt_Finite_false 1 r)) by lra.
    reflexivity.
Qed.

(** With [P_MIN] zero, as in config.py, the top of the range is
    [P_MAX] itself. *)
Lemma rounded_top_zero_based : (pmin == 0)%Q -> top = pmax.
Proof.
  pose proof (proj1 Hfmt) as Hprec.
  intros E.
  assert (Hsp' : ieee.Finite sp = ieee.Finite pmax).
  { rewrite <- Hsp. cbn [ieee.sub].
    apply (round_idempotent fmt (config.PRESSURE_P_MAX_KGCM2 cfg));
      [exact Hprec|exact Hpmax|]. rewrite E. ring. }
  injection Hsp' as Hsp'.
  assert (Ht : ieee.Finite top = ieee.Finite pmax).
  { rewrite <- Htop. cbn [ieee.add].
    apply (round_idempotent fmt (config.PRESSURE_P_MAX_KGCM2 cfg));
      [exact Hprec|exact Hpmax|]. rewrite E, Hsp'. ring. }
  injection Ht as Ht. exact Ht.
Qed.

Lemma ieee_lt_le (x y : ieee.t) : ieee.lt x y = true -> ieee.le x y = true.
Proof.
  destruct x as [|a|a], y as [|b|b]; cbn; try congruence.
  - destruct a, b; cbn; congruence.
  - destruct (a ?= b)%Q; congruence.
Qed.

(** C8 as the code computes it.  With the calibration constants finite
    floats and the voltage span, as computed, finite and positive:
    [v_min] and every voltage below it map to [P_MIN]; [v_max] and every
    voltage above it map to one and the same value, the float sum
    [P_MIN + (P_MAX - P_MIN)], which is [P_MAX] when [P_MIN] is zero as
    in config.py; and a voltage in between maps to
    [P_MIN + ratio * (P_MAX - P_MIN)] evaluated in floats, with the
    ratio [(v - v_min) / span] inside [0, 1] and not clamped.  The
    infinities are voltages below and above the range. *)
Theorem map_voltage_rounded_clamped (v : ieee.t) :
  let f := sensors_fp._map_voltage_to_kgcm2 fmt cfg in
  f (ieee.Finite vmin) = Ok (ieee.Finite pmin) /\
  f (ieee.Finite vmax) = Ok (ieee.Finite top) /\
  (ieee.lt v (ieee.Finite vmin) = true -> f v = Ok (ieee.Finite pmin)) /\
  (ieee.gt v (ieee.Finite vmax) = true -> f v = Ok (ieee.Finite top)) /\
  (ieee.le (ieee.Finite vmin) v = true ->
   ieee.le v (ieee.Finite vmax) = true ->
   exists r,
     ieee.div fmt (ieee.sub fmt v (ieee.Finite vmin)) (ieee.Finite s)
       = Ok (ieee.Finite r) /\
     (0 <= r <= 1)%Q /\
     f v = Ok (ieee.add fmt (ieee.Finite pmin)
                 (ieee.mul fmt (ieee.Finite r) (ieee.Finite sp)))) /\
  ((pmin == 0)%Q -> top = pmax).
Proof.
  intros f. subst f.
  split; [apply rounded_map_below, ieee_le_Finite, Qle_refl|].
  split; [apply rounded_map_above, ieee_le_Finite, Qle_refl|].
  split; [intros H; apply rounded_map_below, ieee_lt_le, H|].
  split; [intros H; apply rounded_map_above, ieee_lt_le, H|].
  split; [apply rounded_map_within|apply rounded_top_zero_based].
Qed.

(** X5: with [P_MIN <= P_MAX] besides, every voltage that is not NaN
    maps to a finite pressure between [P_MIN] and the float sum
    [P_MIN + (P_MAX - P_MIN)]; with [P_MIN] zero, as in config.py, that
    is between [P_MIN] and [P_MAX]. *)
Theorem map_voltage_rounded_range (v : ieee.t) :
  (pmin <= pmax)%Q ->
  v <> ieee.Nan ->
  exists p,
    sensors_fp._map_voltage_to_kgcm2 fmt cfg v = Ok (ieee.Finite p) /\
    (pmin <= p <= top)%Q /\
    ((pmin == 0)%Q -> (p <= pmax)%Q).
Proof.
  pose proof (proj1 Hfmt) as Hprec.
  intros Hp Hv.
  assert (Hsp0 : (0 <= sp)%Q).
  { apply ieee_le_Finite. rewrite <- (round_0 fmt), <- Hsp. cbn [ieee.sub].
    apply round_mono; [exact Hprec|lra]. }
  assert (Hpt : (pmin <= top)%Q).
  { apply ieee_le_Finite.
    rewrite <- (add_zero_pmin 0 (Qeq_refl 0)) at 1. rewrite <- Htop.
    cbn [ieee.add]. apply round_mono; [exact Hprec|lra]. }
  assert (Hfin : exists p,
            sensors_fp._map_voltage_to_kgcm2 fmt cfg v = Ok (ieee.Finite p) /\
            (pmin <= p <= top)%Q).
  { destruct (ieee.le v (ieee.Finite vmin)) eqn:Elo.
    { exists pmin. split; [apply rounded_map_below, Elo|lra]. }
    destruct (ieee.le (ieee.Finite vmax) v) eqn:Ehi.
    { exists top. split; [apply rounded_map_above, Ehi|lra]. }
    destruct v as [|b|a]; [congruence|destruct b; discriminate|].
    apply ieee_le_Finite_false in Elo, Ehi.
    destruct (rounded_map_within (ieee.Finite a)) as (r & _ & [Hr0 Hr1] & ->);
      [apply ieee_le_Finite; lra|apply ieee_le_Finite; lra|].
    destruct (round_between fmt 0 (r * sp) sp 0 sp Hprec)
      as (x & Hx & Hx0 & Hx1).
    - apply Qmult_le_0_compat; assumption.
    - rewrite <- (Qmult_1_l sp) at 2.
      apply Qmult_le_compat_r; assumption.
    - apply round_0.
    - apply (round_idempotent fmt (pmax - pmin)); [exact Hprec|exact Hsp|].
      reflexivity.
    - cbn [ieee.mul]. rewrite Hx.
      destruct (round_between fmt (pmin + 0) (pmin + x) (pmin + sp) pmin top
                  Hprec) as (p & Hpv & Hp0 & Hp1).
      + lra.
      + lra.
      + apply (add_zero_pmin 0). reflexivity.
      + exact Htop.
      + exists p. cbn [ieee.add]. rewrite Hpv.
        split; [reflexivity|split; assumption]. }
  destruct Hfin as (p & Hfp & Hrange).
  exists p. split; [exact Hfp|]. split; [exact Hrange|].
  intros E. rewrite <- (rounded_top_zero_based E). apply Hrange.
Qed.

End RoundedPressureMapping.

(** With the values of config.py in binary64: [v_min] maps to 0.0 and
    [v_max] to 2.10, the float [P_MAX] itself. *)
Lemma map_voltage_rounded_clamped_witness :
  let f := sensors_fp._map_voltage_to_kgcm2 ieee.binary64 config.reference in
  f (sensors_fp.literal ieee.binary64 (334 # 1000)) = Ok (ieee.Finite 0) /\
  f (sensors_fp.literal ieee.binary64 (2997 # 1000))
    = Ok (sensors_fp.literal ieee.binary64 (210 # 100)) /\
  f (ieee.Infinity false) = Ok (sensors_fp.literal ieee.binary64 (210 # 100)).
Proof.
  set (vmin := ieee.round_finite ieee.binary64 (334 # 1000)).
  set (vmax := ieee.round_finite ieee.binary64 (2997 # 1000)).
  set (pmax := ieee.round_finite ieee.binary64 (210 # 100)).
  set (s := ieee.round_finite ieee.binary64 (vmax - vmin)).
  destruct (map_voltage_rounded_clamped ieee.binary64 config.reference
              vmin vmax 0 pmax s pmax pmax) with (v := ieee.Infinity false)
    as (Hlo & Hhi & _ & Hinf & _ & _);
    try (vm_compute; reflexivity).
  - unfold ieee.valid. cbn. lia.
  - split; [exact Hlo|]. split; [exact Hhi|]. apply Hinf. reflexivity.
Defined.

(** The claim as stated fails in binary64 for the range 0.3 .. 0.9:
    at [v_max] the mapping returns 0.9000000000000001, the float above
    [P_MAX]. *)
Lemma map_voltage_top_above_p_max :
  exists p pmax,
    sensors_fp.literal ieee.binary64
      (config.PRESSURE_P_MAX_KGCM2 sensors_fp.calibration_03_09)
      = ieee.Finite pmax /\
    sensors_fp._map_voltage_to_kgcm2 ieee.binary64 sensors_fp.calibration_03_09
      (sensors_fp.literal ieee.binary64
         (config.PRESSURE_V_PIN_MAX sensors_fp.calibration_03_09))
      = Ok (ieee.Finite p) /\
    (pmax < p)%Q /\
    p = (4053239664633447 # 4503599627370496)%Q.
Proof.
  eexists. eexists.
  split; [vm_compute; reflexivity|].
  split; [vm_compute; reflexivity|].
  split; vm_compute; reflexivity.
Qed.

(** With the values of config.py in binary64, 2.0 V maps into the
    range from 0.0 to the float 2.10. *)
Lemma map_voltage_rounded_range_witness :
  exists p,
    sensors_fp._map_voltage_to_kgcm2 ieee.binary64 config.reference
      (ieee.Finite 2) = Ok (ieee.Finite p) /\
    (0 <= p <= ieee.round_finite ieee.binary64 (210 # 100))%Q.
Proof.
  set (vmin := ieee.round_finite ieee.binary64 (334 # 1000)).
  set (vmax := ieee.round_finite ieee.binary64 (2997 # 1000)).
  set (pmax := ieee.round_finite ieee.binary64 (210 # 100)).
  set (s := ieee.round_finite ieee.binary64 (vmax - vmin)).
  destruct (map_voltage_rounded_range ieee.binary64 config.reference
              vmin vmax 0 pmax s pmax pmax) with (v := ieee.Finite 2)
    as (p & Hp & [Hp0 _] & Hp1);
    try (vm_compute; reflexivity).
  - unfold ieee.valid. cbn. lia.
  - vm_compute. discriminate.
  - discriminate.
  - exists p. split; [exact Hp|]. split; [exact Hp0|].
    apply Hp1. reflexivity.
Defined.

(** The rounding agrees with the Standard Library's specification of
    IEEE 754 binary64 arithmetic on the operations of the example:
    0.9 - 0.3, 0.3 + 0.6000000000000001, and the voltage span, ratio and
    product of config.py at 2.0 V. *)
Lemma rounding_agrees_with_SpecFloat :
  let x03 := S754_finite false 5404319552844595 (-54) in
  let x09 := S754_finite false 8106479329266893 (-53) in
  let vmin := S754_finite false 6016809102166983 (-54) in
  let vmax := S754_finite false 6748644041614688 (-51) in
  let two := S754_finite false 4503599627370496 (-51) in
  let pmax := S754_finite false 4728779608739021 (-51) in
  ieee.of_spec x03 = sensors_fp.literal ieee.binary64 (3 # 10) /\
  ieee.of_spec x09 = sensors_fp.literal ieee.binary64 (9 # 10) /\
  ieee.of_spec vmin = sensors_fp.literal ieee.binary64 (334 # 1000) /\
  ieee.of_spec vmax = sensors_fp.literal ieee.binary64 (2997 # 1000) /\
  ieee.of_spec pmax = sensors_fp.literal ieee.binary64 (210 # 100) /\
  ieee.of_spec (SFsub 53 1024 x09 x03)
    = ieee.sub ieee.binary64 (ieee.of_spec x09) (ieee.of_spec x03) /\
  ieee.of_spec (SFadd 53 1024 x03 (SFsub 53 1024 x09 x03))
    = ieee.add ieee.binary64 (ieee.of_spec x03)
        (ieee.sub ieee.binary64 (ieee.of_spec x09) (ieee.of_spec x03)) /\
  ieee.of_spec (SFsub 53 1024 vmax vmin)
    = ieee.sub ieee.binary64 (ieee.of_spec vmax) (ieee.of_spec vmin) /\
  Ok (ieee.of_spec (SFdiv 53 1024 (SFsub 53 1024 two vmin)
                      (SFsub 53 1024 vmax vmin)))
    = ieee.div ieee.binary64
        (ieee.sub ieee.binary64 (ieee.of_spec two) (ieee.of_spec vmin))
        (ieee.sub ieee.binary64 (ieee.of_spec vmax) (ieee.of_spec vmin)) /\
  ieee.of_spec (SFmul 53 1024
                  (SFdiv 53 1024 (SFsub 53 1024 two vmin)
                     (SFsub 53 1024 vmax vmin)) pmax)
    = ieee.mul ieee.binary64
        (ieee.of_spec (SFdiv 53 1024 (SFsub 53 1024 two vmin)
                         (SFsub 53 1024 vmax vmin)))
        (ieee.of_spec pmax).
Proof.
  intros x03 x09 vmin vmax two pmax.
  do 9 (split; [vm_compute; reflexivity|]).
  vm_compute. reflexivity.
Qed.
